(** * Universal-HRM: ownership, hand-off and audit trail of leads

    A shallow embedding of the server side of the lead workflow:
    - the tables of [shared/schema.ts] ([users], [leads], [lead_history],
      [notifications]) as lists of rows;
    - the storage layer [DatabaseStorage] (server/storage.ts) as statements
      over that store, in a state-and-exception monad in which every
      awaited storage call is one step that the store may reject;
    - the route handlers of [registerRoutes] (server/routes.ts):
      PUT /api/leads/:id, DELETE /api/leads/:id and
      POST /api/leads/:id/assign.

    Conventions.  A JS object used as a record of optional fields (the
    request body, the validated [updates], the argument of [.set(...)])
    is a [gmap string json]; an absent key is [undefined].  A nullable
    text column of a lead is a key of [lead_cols]; an absent key is SQL
    NULL.  The columns [walkinDate], [walkinTime], [registrationAmount]
    and [pendingAmount] are typed (date, time, decimal(10,2)): what the
    store makes of a string written to them, or that it refuses the
    string, is the store's own conversion, a parameter of the model
    ([cast]).  A statement the store rejects for a reason outside the
    tables (a lost connection) is a fault of the environment
    ([fault]). *)

From Stdlib Require Import ZArith Permutation Sorted Ascii Lia.
From stdpp Require Import base option list strings gmap fin_maps.

Local Open Scope Z_scope.
Local Open Scope string_scope.

(** ** Data model (shared/schema.ts) *)

Inductive Role := manager | hr | accounts | admin.

#[global] Instance Role_eq_dec : EqDecision Role.
Proof. solve_decision. Defined.

Inductive json :=
| JNull
| JBool (b : bool)
| JNum (n : Z)
| JStr (s : string)
| JCompound.  (* an array or a nested object: never a valid field value *)

#[global] Instance json_eq_dec : EqDecision json.
Proof. solve_decision. Defined.

Record User := mkUser {
  user_id : string;
  user_role : Role;
  user_isActive : option bool;
}.

Record Lead := mkLead {
  lead_id : Z;
  currentOwnerId : option string;
  lead_status : string;
  lead_isActive : option bool;
  lead_cols : gmap string string;
}.

#[global] Instance Lead_eq_dec : EqDecision Lead.
Proof. solve_decision. Defined.

Record ChangedField := mkChangedField {
  cf_field : string;
  cf_oldValue : json;
  cf_newValue : json;
}.

(** The payloads the handlers put in [change_data]. *)
Inductive ChangeData :=
| CD_updates (updates : gmap string json)
| CD_changedFields (changedFields : list ChangedField) (updates : gmap string json)
| CD_handoff (handoffType : string) (previousOwner : option string) (newOwner : string)
| CD_assignment (previousOwner : option string) (newOwner : string)
| CD_unassigned (previousOwner : option string) (releasedBy : string) (releasedAt : Z)
| CD_deleted (deletedLead : Lead) (deletedBy : string) (deletedAt : Z).

(** [InsertLeadHistory]: a row of [lead_history] without [id] and
    [changedAt], which the store fills in. *)
Record InsertLeadHistory := mkInsertLeadHistory {
  i_leadId : Z;
  i_fromUserId : option string;
  i_toUserId : option string;
  i_previousStatus : option string;
  i_newStatus : option string;
  i_changeReason : option string;
  i_changeData : ChangeData;
  i_changedByUserId : string;
}.

Record LeadHistory := mkLeadHistory {
  h_id : Z;
  leadId : Z;
  fromUserId : option string;
  toUserId : option string;
  previousStatus : option string;
  newStatus : option string;
  changeReason : option string;
  changeData : ChangeData;
  changedByUserId : string;
  changedAt : Z;
}.

Record Notification := mkNotification {
  n_userId : string;
  n_title : string;
  n_message : string;
  n_type : string;
  n_relatedLeadId : option Z;
}.

Record DB := mkDB {
  users : list User;
  leads : list Lead;
  leadHistory : list LeadHistory;
  notifications : list Notification;
}.

(** The store together with what a rollback does not restore: the
    identity sequence of [lead_history] and the number of statements
    issued so far. *)
Record World := mkWorld {
  w_db : DB;
  w_hseq : Z;
  w_tick : nat;
}.

Inductive Exn :=
| LeadNotFound      (* Error("Lead not found") *)
| AlreadyAssigned   (* Error("Lead is already assigned to another user") *)
| StoreFailure      (* any error raised by the store *)
| JsTypeError.      (* a property read on undefined *)

Inductive Response :=
| R_lead (l : option Lead)                   (* res.json(finalLead) *)
| R_success (message : string)               (* { success: true, message } *)
| R_assigned (l : option Lead)               (* { success: true, lead } *)
| R_error (code : nat) (message : string).   (* res.status(code).json(...) *)

(** ** The handler monad *)

Inductive Out (A : Type) :=
| Ret (a : A)
| Throw (e : Exn)
| Reply (r : Response).   (* [return res.status(...).json(...)] *)
Arguments Ret {A} a.
Arguments Throw {A} e.
Arguments Reply {A} r.

Definition M (A : Type) : Type := World → Out A * World.

Definition ret {A} (a : A) : M A := λ w, (Ret a, w).
Definition throw {A} (e : Exn) : M A := λ w, (Throw e, w).
Definition reply {A} (r : Response) : M A := λ w, (Reply r, w).

Definition bind {A B} (m : M A) (k : A → M B) : M B := λ w,
  match m w with
  | (Ret a, w') => k a w'
  | (Throw e, w') => (Throw e, w')
  | (Reply r, w') => (Reply r, w')
  end.

Notation "x <- m ;; k" := (bind m (λ x, k))
  (at level 100, m at next level, right associativity).
Notation "m ;;; k" := (bind m (λ _, k))
  (at level 100, right associativity).

(** [try { m } catch (error) { h error }] *)
Definition try_catch {A} (m : M A) (h : Exn → M A) : M A := λ w,
  match m w with
  | (Throw e, w') => h e w'
  | r => r
  end.

(** [db.transaction(async (tx) => m)]: when [m] throws, the writes to the
    tables are undone and the error is thrown again. *)
Definition transaction {A} (m : M A) : M A := λ w,
  match m w with
  | (Throw e, w') => (Throw e, mkWorld (w_db w) (w_hseq w') (w_tick w'))
  | r => r
  end.

(** A whole handler: its [try { ... } catch] answers 500. *)
Definition run_route (failure : string) (m : M Response) (w : World) : Response * World :=
  match m w with
  | (Ret r, w') => (r, w')
  | (Reply r, w') => (r, w')
  | (Throw _, w') => (R_error 500 failure, w')
  end.

(** ** Tables: pure reads and writes *)

Definition find_user (db : DB) (id : string) : option User :=
  find (λ u, bool_decide (user_id u = id)) (users db).

Definition find_lead (db : DB) (id : Z) : option Lead :=
  find (λ l, bool_decide (lead_id l = id)) (leads db).

Definition user_exists (db : DB) (id : string) : bool :=
  bool_decide (is_Some (find_user db id)).

Definition opt_user_exists (db : DB) (id : option string) : bool :=
  match id with Some i => user_exists db i | None => true end.

Definition lead_exists (db : DB) (id : Z) : bool :=
  bool_decide (is_Some (find_lead db id)).

(** The nullable text columns of [leads]. *)
Definition text_columns : list string :=
  [ "name"; "email"; "phone"; "location"; "degree"; "domain"; "sessionDays";
    "walkinDate"; "walkinTime"; "timing"; "notes"; "yearOfPassing";
    "collegeName"; "registrationAmount"; "pendingAmount" ].

(** The types of the columns of [leads] that are written as strings. *)
Inductive ColumnType :=
| T_text
| T_date                              (* date("walkin_date") *)
| T_time                              (* time("walkin_time") *)
| T_decimal (precision scale : nat).  (* decimal(name, { precision, scale }) *)

Definition column_type (field : string) : ColumnType :=
  if bool_decide (field = "walkinDate") then T_date
  else if bool_decide (field = "walkinTime") then T_time
  else if bool_decide (field = "registrationAmount") then T_decimal 10 2
  else if bool_decide (field = "pendingAmount") then T_decimal 10 2
  else T_text.

(** The store's conversion of a string into a typed column: [None] when
    the store refuses the string (a malformed date, an amount that does
    not fit the precision), else the text the column holds afterwards
    and gives back when read ('12.5' becomes '12.50'). *)
Class Store := cast : ColumnType → string → option string.

(** What a column holds after the string [s] is written to it. *)
Definition store_text `{!Store} (field s : string) : option string :=
  match column_type field with
  | T_text => Some s
  | ty => cast ty s
  end.

(** [(lead as any)[field]] for a text column. *)
Definition col_value (l : Lead) (field : string) : json :=
  match lead_cols l !! field with
  | Some s => JStr s
  | None => JNull
  end.

Definition set_text `{!Store} (set : gmap string json) (field : string)
    (c : option (gmap string string)) : option (gmap string string) :=
  c ← c;
  match set !! field with
  | None => Some c
  | Some (JStr s) => stored ← store_text field s; Some (<[field := stored]> c)
  | Some JNull => Some (delete field c)
  | Some _ => None
  end.

(** [.set({...})] on one row: keys that are not columns are ignored; a
    value of the wrong type, a NULL for [status] or a string that the
    store cannot convert into its column is refused. *)
Definition apply_set `{!Store} (set : gmap string json) (l : Lead) : option Lead :=
  owner ← match set !! "currentOwnerId" with
          | None => Some (currentOwnerId l)
          | Some (JStr s) => Some (Some s)
          | Some JNull => Some None
          | Some _ => None
          end;
  st ← match set !! "status" with
       | None => Some (lead_status l)
       | Some (JStr s) => Some s
       | Some _ => None
       end;
  act ← match set !! "isActive" with
        | None => Some (lead_isActive l)
        | Some (JBool b) => Some (Some b)
        | Some JNull => Some None
        | Some _ => None
        end;
  c ← foldr (set_text set) (Some (lead_cols l)) text_columns;
  Some (mkLead (lead_id l) owner st act c).

(** [UPDATE leads SET set WHERE cond RETURNING *]: the new table and the
    rows that were updated. *)
Fixpoint update_rows `{!Store} (cond : Lead → bool) (set : gmap string json)
    (rows : list Lead) : option (list Lead * list Lead) :=
  match rows with
  | [] => Some ([], [])
  | l :: rest =>
      '(rest', ret) ← update_rows cond set rest;
      if cond l then l' ← apply_set set l; Some (l' :: rest', l' :: ret)
      else Some (l :: rest', ret)
  end.

Definition with_leads (db : DB) (ls : list Lead) : DB :=
  mkDB (users db) ls (leadHistory db) (notifications db).
Definition with_history (db : DB) (hs : list LeadHistory) : DB :=
  mkDB (users db) (leads db) hs (notifications db).
Definition with_notifications (db : DB) (ns : list Notification) : DB :=
  mkDB (users db) (leads db) (leadHistory db) ns.

Definition update_table `{!Store} (cond : Lead → bool) (set : gmap string json)
    (db : DB) : option (list Lead * DB) :=
  '(rows, ret) ← update_rows cond set (leads db);
  if forallb (λ l, opt_user_exists db (currentOwnerId l)) ret
  then Some (ret, with_leads db rows)
  else None.   (* current_owner_id references users.id *)

Definition history_row (h : InsertLeadHistory) (id now : Z) : LeadHistory :=
  mkLeadHistory id (i_leadId h) (i_fromUserId h) (i_toUserId h)
    (i_previousStatus h) (i_newStatus h) (i_changeReason h) (i_changeData h)
    (i_changedByUserId h) now.

(** The foreign keys of a [lead_history] row. *)
Definition history_refs_ok (db : DB) (h : InsertLeadHistory) : bool :=
  lead_exists db (i_leadId h) && opt_user_exists db (i_fromUserId h)
  && opt_user_exists db (i_toUserId h) && user_exists db (i_changedByUserId h).

Definition insert_history_table (h : InsertLeadHistory) (id now : Z)
    (db : DB) : option (LeadHistory * DB) :=
  if history_refs_ok db h
  then let row := history_row h id now in
       Some (row, with_history db (leadHistory db ++ [row]))
  else None.

Definition delete_history_table (lead : Z) (db : DB) : DB :=
  with_history db (filter (λ h, leadId h ≠ lead) (leadHistory db)).

(** [DELETE FROM leads WHERE id = lead]: refused while a row of
    [lead_history] or [notifications] references the lead. *)
Definition lead_referenced (db : DB) (lead : Z) : bool :=
  existsb (λ h, bool_decide (leadId h = lead)) (leadHistory db)
  || existsb (λ n, bool_decide (n_relatedLeadId n = Some lead)) (notifications db).

Definition delete_lead_table (lead : Z) (db : DB) : option DB :=
  if lead_exists db lead && lead_referenced db lead then None
  else Some (with_leads db (filter (λ l, lead_id l ≠ lead) (leads db))).

Definition insert_notification_table (n : Notification) (db : DB) : option DB :=
  if user_exists db (n_userId n)
     && match n_relatedLeadId n with Some l => lead_exists db l | None => true end
  then Some (with_notifications db (notifications db ++ [n]))
  else None.

(** JS truthiness of a nullable string, and [a || b]. *)
Definition truthy (o : option string) : bool :=
  match o with
  | Some s => negb (bool_decide (s = ""))
  | None => false
  end.

Definition or_else (o : option string) (d : string) : string :=
  if truthy o then default d o else d.

Section Server.

(** The environment of a run: the store's conversion of typed columns;
    which statement (counted from 0) the store rejects for a reason of
    its own, if any; the clock of the store; and the two library
    functions the handlers call on field values. *)
Context {store : Store}.
Variable fault : option nat.
Variable clock : nat → Z.
Variable parseFloat : string → option string.   (* [None] is NaN, else [parsed.toString()] *)
Variable isEmail : string → bool.               (* zod's [.email()] *)

(** ** Statements *)

Definition tick (w : World) : World :=
  mkWorld (w_db w) (w_hseq w) (S (w_tick w)).

Definition rejected (w : World) : bool :=
  bool_decide (fault = Some (w_tick w)).

Definition db_now (w : World) : Z := clock (w_tick w).

(** [new Date()] in the handler. *)
Definition new_Date : M Z := λ w, (Ret (db_now w), w).

(** A read. *)
Definition query {A} (q : DB → A) : M A := λ w,
  if rejected w then (Throw StoreFailure, tick w)
  else (Ret (q (w_db w)), tick w).

(** A write on tables other than [lead_history]. *)
Definition execute {A} (f : DB → option (A * DB)) : M A := λ w,
  if rejected w then (Throw StoreFailure, tick w)
  else match f (w_db w) with
       | Some (a, db) => (Ret a, mkWorld db (w_hseq w) (S (w_tick w)))
       | None => (Throw StoreFailure, tick w)
       end.

(** [db.insert(leadHistory).values(h).returning()]: the identity column
    and [changedAt] (defaultNow) are filled in by the store. *)
Definition insert_history (h : InsertLeadHistory) : M LeadHistory := λ w,
  if rejected w then (Throw StoreFailure, tick w)
  else match insert_history_table h (w_hseq w) (db_now w) (w_db w) with
       | Some (row, db) => (Ret row, mkWorld db (w_hseq w + 1) (S (w_tick w)))
       | None => (Throw StoreFailure, mkWorld (w_db w) (w_hseq w + 1) (S (w_tick w)))
       end.

Definition update_leads (cond : Lead → bool) (set : gmap string json) : M (list Lead) :=
  execute (update_table cond set).

Definition has_id (id : Z) (l : Lead) : bool := bool_decide (lead_id l = id).

(** ** DatabaseStorage (server/storage.ts) *)

Definition getUser (id : string) : M (option User) :=
  query (λ db, find_user db id).

Definition getUsersByRole (role : Role) : M (list User) :=
  query (λ db, filter (λ u, user_role u = role ∧ user_isActive u = Some true) (users db)).

Definition getLead (id : Z) : M (option Lead) :=
  query (λ db, find_lead db id).

(** The fields [updateLead] turns from the empty string into NULL. *)
Definition sanitized_fields : list string :=
  [ "walkinDate"; "walkinTime"; "phone"; "domain"; "notes"; "sessionDays";
    "timing"; "yearOfPassing"; "collegeName"; "registrationAmount" ].

Definition sanitize_field (updates : gmap string json) (field : string) : gmap string json :=
  if bool_decide (updates !! field = Some (JStr "")) then <[field := JNull]> updates
  else updates.

Definition sanitize (updates : gmap string json) : gmap string json :=
  foldl sanitize_field updates sanitized_fields.

Definition updateLead (id : Z) (updates : gmap string json) : M (option Lead) :=
  rows <- update_leads (has_id id) (sanitize updates) ;;
  ret (head rows).

Definition createLeadHistory (h : InsertLeadHistory) : M LeadHistory :=
  insert_history h.

Definition createNotification (n : Notification) : M unit :=
  execute (λ db, db' ← insert_notification_table n db; Some ((), db')).

(** [ORDER BY changed_at DESC] as a stable sort of the table scan: a row
    goes before the first row that is not newer, so rows with equal
    [changedAt] stay in the order of the table. *)
Fixpoint insert_desc (h : LeadHistory) (sorted : list LeadHistory) : list LeadHistory :=
  match sorted with
  | [] => [h]
  | x :: rest =>
      if bool_decide (changedAt x ≤ changedAt h)%Z then h :: x :: rest
      else x :: insert_desc h rest
  end.

Definition order_by_changedAt_desc (rows : list LeadHistory) : list LeadHistory :=
  foldr insert_desc [] rows.

Definition history_of (db : DB) (lead : Z) : list LeadHistory :=
  filter (λ h, leadId h = lead) (leadHistory db).

Definition getLeadHistory (lead : Z) : M (list LeadHistory) :=
  query (λ db, order_by_changedAt_desc (history_of db lead)).

Definition deleteLeadWithHistory (lead : Z) (historyData : InsertLeadHistory) : M unit :=
  transaction (
    insert_history historyData ;;;
    execute (λ db, Some ((), delete_history_table lead db)) ;;;
    execute (λ db, db' ← delete_lead_table lead db; Some ((), db'))).

Definition unassignLeadWithHistory (lead : Z) (historyData : InsertLeadHistory) : M (option Lead) :=
  transaction (
    insert_history historyData ;;;
    rows <- update_leads (has_id lead)
              {[ "currentOwnerId" := JNull; "status" := JStr "new" ]} ;;
    ret (head rows)).

Definition assignment_entry (lead : Z) (currentLead : Lead) (toUserId changedByUserId : string)
    (reason : option string) : InsertLeadHistory :=
  mkInsertLeadHistory lead (currentOwnerId currentLead) (Some toUserId)
    (Some (lead_status currentLead)) (Some (lead_status currentLead))
    (Some (or_else reason "Lead assigned"))
    (CD_assignment (currentOwnerId currentLead) toUserId)
    changedByUserId.

(** [assignLead], in the two parts of its transaction: the read of the
    current lead, and everything that follows it. *)
Definition assignLead_select (lead : Z) : M Lead :=
  cur <- getLead lead ;;
  match cur with
  | None => throw LeadNotFound
  | Some currentLead => ret currentLead
  end.

Definition assignLead_write (lead : Z) (toUserId changedByUserId : string)
    (reason : option string) (currentLead : Lead) : M (option Lead) :=
  let previousOwnerId := currentOwnerId currentLead in
  let isHRSelfAssign :=
    bool_decide (toUserId = changedByUserId) && bool_decide (previousOwnerId = None) in
  if isHRSelfAssign then
    result <- update_leads
                (λ l, has_id lead l && bool_decide (currentOwnerId l = None))
                {[ "currentOwnerId" := JStr toUserId ]} ;;
    match result with
    | [] => throw AlreadyAssigned
    | updatedLead :: _ =>
        insert_history (assignment_entry lead currentLead toUserId changedByUserId reason) ;;;
        ret (Some updatedLead)
    end
  else
    result <- update_leads (has_id lead) {[ "currentOwnerId" := JStr toUserId ]} ;;
    insert_history (assignment_entry lead currentLead toUserId changedByUserId reason) ;;;
    ret (head result).

Definition assignLead (lead : Z) (toUserId changedByUserId : string)
    (reason : option string) : M (option Lead) :=
  transaction (
    currentLead <- assignLead_select lead ;;
    assignLead_write lead toUserId changedByUserId reason currentLead).


(** ** Request validation (zod) *)

(** [s.length]: the UTF-16 code units of the string whose UTF-8 bytes
    are [s].  A byte that starts a character of up to three bytes counts
    one unit, a byte that starts a character of four bytes counts two (a
    surrogate pair), a continuation byte counts none. *)
Definition code_units (b : Ascii.ascii) : nat :=
  let n := Ascii.nat_of_ascii b in
  if (n <? 128)%nat then 1
  else if (n <? 192)%nat then 0
  else if (n <? 240)%nat then 1
  else 2.

Fixpoint js_length (s : string) : nat :=
  match s with
  | EmptyString => 0
  | String b rest => code_units b + js_length rest
  end.

Inductive FieldKind :=
| F_string                        (* z.string() *)
| F_enum (values : list string)   (* z.enum([...]) *)
| F_min1                          (* z.string().min(1) *)
| F_max (n : nat)                 (* z.string().max(n) *)
| F_email.                        (* z.string().email() *)

Definition check_kind (kind : FieldKind) (v : json) : bool :=
  match v with
  | JStr s =>
      match kind with
      | F_string => true
      | F_enum values => bool_decide (s ∈ values)
      | F_min1 => negb (bool_decide (s = ""))
      | F_max n => bool_decide (js_length s ≤ n)%nat
      | F_email => isEmail s
      end
  | _ => false
  end.

Definition field_ok (body : gmap string json) (entry : string * FieldKind) : bool :=
  match body !! entry.1 with
  | None => true                         (* every field is .optional() *)
  | Some v => check_kind entry.2 v
  end.

(** [z.object(shape).safeParse(body)]: the declared fields that are
    present must be valid; the result keeps the declared fields only
    (zod's default for unknown keys is to drop them). *)
Definition safeParse (shape : list (string * FieldKind)) (body : gmap string json)
    : option (gmap string json) :=
  if forallb (field_ok body) shape
  then Some (filter (λ kv, kv.1 ∈ shape.*1) body)
  else None.

Definition status_values : list string :=
  [ "new"; "scheduled"; "completed"; "not_interested"; "pending";
    "ready_for_class"; "not_available"; "no_show"; "reschedule";
    "pending_but_ready" ].

Definition baseUpdateSchema : list (string * FieldKind) :=
  [ ("status", F_enum status_values);
    ("notes", F_string);
    ("changeReason", F_string);
    ("yearOfPassing", F_string);
    ("collegeName", F_string);
    ("registrationAmount", F_string);
    ("pendingAmount", F_string) ].

Definition managerUpdateSchema : list (string * FieldKind) :=
  baseUpdateSchema ++
  [ ("name", F_min1);
    ("email", F_email);
    ("phone", F_string);
    ("location", F_string);
    ("degree", F_string);
    ("domain", F_string);
    ("sessionDays", F_enum [ "M,W,F"; "T,T,S"; "daily"; "weekend"; "custom"; "" ]);
    ("timing", F_string);
    ("walkinDate", F_string);
    ("walkinTime", F_string) ].

Definition assignLeadSchema : list (string * FieldKind) :=
  [ ("toUserId", F_string); ("reason", F_max 256) ].

Definition elevated (r : Role) : bool :=
  bool_decide (r = manager) || bool_decide (r = admin).

Definition updateLeadSchema (userRole : Role) : list (string * FieldKind) :=
  if elevated userRole then managerUpdateSchema else baseUpdateSchema.

(** [obj.field] of a validated object, as a nullable string. *)
Definition str_field (o : gmap string json) (field : string) : option string :=
  match o !! field with
  | Some (JStr s) => Some s
  | _ => None
  end.

(** The amount fields: the empty string becomes NULL, anything else must
    parse as a number and is stored as [parsed.toString()].  [inl] is the
    response of an early [return res.status(400)]. *)
Definition parse_amount (field message : string) (updates : gmap string json)
    : Response + gmap string json :=
  match updates !! field with
  | None => inr updates
  | Some (JStr s) =>
      if bool_decide (s = "") then inr (<[field := JNull]> updates)
      else match parseFloat s with
           | None => inl (R_error 400 message)
           | Some parsed => inr (<[field := JStr parsed]> updates)
           end
  | Some JNull => inr (<[field := JNull]> updates)
  | Some _ => inl (R_error 400 message)   (* not reached after validation *)
  end.

(** Validation of the body of PUT /api/leads/:id, up to the parsing of
    the lead id. *)
Definition validate_update (userRole : Role) (body : gmap string json)
    : Response + gmap string json :=
  match safeParse (updateLeadSchema userRole) body with
  | None => inl (R_error 400 "Invalid request body")
  | Some updates =>
      match parse_amount "registrationAmount" "Invalid registration amount format" updates with
      | inl r => inl r
      | inr updates =>
          parse_amount "pendingAmount" "Invalid pending amount format" updates
      end
  end.

(** [currentUser?.role || 'hr'] *)
Definition role_or_hr (u : option User) : Role :=
  match u with
  | Some u => user_role u
  | None => hr
  end.

(** ** PUT /api/leads/:id *)

Definition status_entry (lead : Z) (currentLead : Lead) (newStatus userId : string)
    (updates : gmap string json) : InsertLeadHistory :=
  mkInsertLeadHistory lead (currentOwnerId currentLead) (currentOwnerId currentLead)
    (Some (lead_status currentLead)) (Some newStatus)
    (Some (or_else (str_field updates "changeReason") "Status updated"))
    (CD_updates updates) userId.

Definition handoff_entry (lead : Z) (currentLead : Lead) (assignedUser : User)
    (newStatus reason handoffType userId : string) : InsertLeadHistory :=
  mkInsertLeadHistory lead (currentOwnerId currentLead) (Some (user_id assignedUser))
    (Some "completed") (Some newStatus) (Some reason)
    (CD_handoff handoffType (currentOwnerId currentLead) (user_id assignedUser))
    userId.

Definition handoff_set (assignedUser : User) (newStatus : string) : gmap string json :=
  {[ "currentOwnerId" := JStr (user_id assignedUser);
     "status" := JStr newStatus;
     "isActive" := JBool true ]}.

(** [`${lead.name}`] *)
Definition name_text (l : Lead) : string :=
  default "null" (lead_cols l !! "name").

(** One hand-off: the target is the first active user of [targetRole]. *)
Definition handoff (lead : Z) (currentLead : Lead) (updated : option Lead) (userId : string)
    (targetRole : Role) (newStatus reason handoffType title : string)
    (message : Lead → string) : M unit :=
  targets <- getUsersByRole targetRole ;;
  match targets with
  | [] => ret ()
  | assignedUser :: _ =>
      updateLead lead (handoff_set assignedUser newStatus) ;;;
      createLeadHistory
        (handoff_entry lead currentLead assignedUser newStatus reason handoffType userId) ;;;
      match updated with
      | None => throw JsTypeError
      | Some l =>
          createNotification
            (mkNotification (user_id assignedUser) title (message l)
               "lead_assignment" (Some lead))
      end
  end.

Definition nonStatusFields : list string :=
  [ "name"; "email"; "phone"; "location"; "degree"; "domain"; "sessionDays";
    "timing"; "walkinDate"; "walkinTime"; "notes" ].

Definition changed_field (updates : gmap string json) (currentLead : Lead)
    (field : string) : option ChangedField :=
  match updates !! field with
  | None => None
  | Some updateValue =>
      let currentValue := col_value currentLead field in
      if bool_decide (updateValue ≠ currentValue)
      then Some (mkChangedField field currentValue updateValue)
      else None
  end.

Definition changedFields_of (updates : gmap string json) (currentLead : Lead)
    : list ChangedField :=
  omap (changed_field updates currentLead) nonStatusFields.

Definition fields_entry (lead : Z) (currentLead : Lead) (userId : string)
    (changedFields : list ChangedField) (updates : gmap string json) : InsertLeadHistory :=
  mkInsertLeadHistory lead (currentOwnerId currentLead) (currentOwnerId currentLead)
    (Some (lead_status currentLead)) (Some (lead_status currentLead))
    (Some (or_else (str_field updates "changeReason") "Lead information updated"))
    (CD_changedFields changedFields updates) userId.

(** [updates.status && updates.status !== currentLead.status] *)
Definition changed_status (updates : gmap string json) (currentLead : Lead)
    : option string :=
  match str_field updates "status" with
  | Some newStatus =>
      if truthy (Some newStatus) && bool_decide (newStatus ≠ lead_status currentLead)
      then Some newStatus else None
  | None => None
  end.

(** The part of the handler after the access checks. *)
Definition put_lead_apply (userId : string) (userRole : Role) (lead : Z)
    (currentLead : Lead) (updates : gmap string json) : M Response :=
  updated <- updateLead lead updates ;;
  (match changed_status updates currentLead with
   | Some newStatus =>
       createLeadHistory (status_entry lead currentLead newStatus userId updates) ;;;
       if bool_decide (newStatus = "completed") then
         match userRole with
         | hr =>
             handoff lead currentLead updated userId accounts "pending"
               "Lead completed by HR and forwarded to Accounts team" "HR_to_Accounts"
               "New Lead Assigned"
               (λ l, "Lead " ++ name_text l ++ " has been forwarded from HR")
         | accounts =>
             handoff lead currentLead updated userId admin "completed"
               "Lead completed by Accounts and forwarded to Admin" "Accounts_to_Admin"
               "Completed Lead Assigned"
               (λ l, "Lead " ++ name_text l
                     ++ " has been completed by Accounts and assigned to you")
         | _ => ret ()
         end
       else ret ()
   | None =>
       let changedFields := changedFields_of updates currentLead in
       match changedFields with
       | [] => ret ()
       | _ => createLeadHistory (fields_entry lead currentLead userId changedFields updates) ;;;
              ret ()
       end
   end) ;;;
  finalLead <- getLead lead ;;
  ret (R_lead finalLead).

Definition put_lead (userId : string) (id : option Z) (body : gmap string json)
    : World → Response * World :=
  run_route "Failed to update lead" (
    currentUser <- getUser userId ;;
    let userRole := role_or_hr currentUser in
    match validate_update userRole body with
    | inl r => reply r
    | inr updates =>
        match id with
        | None => reply (R_error 400 "Invalid lead ID")
        | Some lead =>
            current <- getLead lead ;;
            match current with
            | None => reply (R_error 404 "Lead not found")
            | Some currentLead =>
                if bool_decide (userRole = accounts)
                   && bool_decide (currentOwnerId currentLead ≠ Some userId)
                then reply (R_error 403
                       "Access denied: You can only edit leads assigned to you")
                else if bool_decide (userRole = hr)
                        && bool_decide (currentOwnerId currentLead ≠ Some userId)
                then reply (R_error 403
                       "Access denied: You can only edit your own assigned leads")
                else put_lead_apply userId userRole lead currentLead updates
            end
        end
    end).

(** ** DELETE /api/leads/:id *)

Definition release_entry (lead : Z) (currentLead : Lead) (userId : string) (now : Z)
    : InsertLeadHistory :=
  mkInsertLeadHistory lead (currentOwnerId currentLead) None
    (Some (lead_status currentLead)) (Some "new")
    (Some "Lead released by HR - returned to Lead Management")
    (CD_unassigned (currentOwnerId currentLead) userId now) userId.

Definition deletion_entry (lead : Z) (currentLead : Lead) (userId : string) (now : Z)
    : InsertLeadHistory :=
  mkInsertLeadHistory lead (currentOwnerId currentLead) None
    (Some (lead_status currentLead)) (Some (lead_status currentLead))
    (Some "Lead deleted")
    (CD_deleted currentLead userId now) userId.

Definition delete_lead (userId : string) (id : option Z) : World → Response * World :=
  run_route "Failed to delete lead" (
    currentUser <- getUser userId ;;
    let userRole := role_or_hr currentUser in
    match id with
    | None => reply (R_error 400 "Invalid lead ID")
    | Some lead =>
        current <- getLead lead ;;
        match current with
        | None => reply (R_error 404 "Lead not found")
        | Some currentLead =>
            if bool_decide (userRole = hr)
               && bool_decide (currentOwnerId currentLead ≠ Some userId)
            then reply (R_error 403 "Access denied: You can only delete your own leads")
            else if bool_decide (userRole = accounts)
            then reply (R_error 403 "Access denied: Accounts users cannot delete leads")
            else if bool_decide (userRole = hr)
                    && bool_decide (currentOwnerId currentLead = Some userId)
            then
              now <- new_Date ;;
              unassignLeadWithHistory lead (release_entry lead currentLead userId now) ;;;
              ret (R_success "Lead returned to Lead Management for reassignment")
            else
              now <- new_Date ;;
              deleteLeadWithHistory lead (deletion_entry lead currentLead userId now) ;;;
              ret (R_success "Lead deleted successfully")
        end
    end).

(** ** POST /api/leads/:id/assign *)

(** The handler up to the call of [storage.assignLead]: authentication,
    validation and the role-based authorization.  It yields the lead, the
    target user and the reason. *)
Definition assign_precheck (userId : string) (id : option Z) (body : gmap string json)
    : M (Z * string * option string) :=
  currentUser <- getUser userId ;;
  match currentUser with
  | None => reply (R_error 403 "User not found")
  | Some currentUser =>
      let userRole := user_role currentUser in
      match id with
      | None => reply (R_error 400 "Invalid lead ID")
      | Some lead =>
          if bool_decide (lead = 0) then reply (R_error 400 "Invalid lead ID") else
          match safeParse assignLeadSchema body with
          | None => reply (R_error 400 "Invalid request body")
          | Some data =>
              let targetUserId := or_else (str_field data "toUserId") userId in
              targetUser <- getUser targetUserId ;;
              match targetUser with
              | None => reply (R_error 400 "Target user not found")
              | Some targetUser =>
                  (match userRole with
                   | hr =>
                       if bool_decide (targetUserId ≠ userId)
                       then reply (R_error 403 "HR users can only assign leads to themselves")
                       else
                         existingLead <- getLead lead ;;
                         match existingLead with
                         | None => reply (R_error 404 "Lead not found")
                         | Some existingLead =>
                             if truthy (currentOwnerId existingLead)
                             then reply (R_error 409 "Lead is already assigned")
                             else ret ()
                         end
                   | manager | admin =>
                       if bool_decide (user_role targetUser ≠ hr)
                          && bool_decide (targetUserId ≠ userId)
                       then reply (R_error 400 "Can only assign leads to HR users")
                       else ret ()
                   | accounts => reply (R_error 403 "Insufficient permissions")
                   end) ;;;
                  ret (lead, targetUserId, str_field data "reason")
              end
          end
      end
  end.

(** The [catch] around [storage.assignLead]. *)
Definition assign_catch {A} (e : Exn) : M A :=
  match e with
  | LeadNotFound => reply (R_error 404 "Lead not found")
  | AlreadyAssigned => reply (R_error 409 "Lead is already assigned to another user")
  | e => throw e
  end.

Definition assign_lead (userId : string) (id : option Z) (body : gmap string json)
    : World → Response * World :=
  run_route "Failed to assign lead" (
    checked <- assign_precheck userId id body ;;
    let '(lead, targetUserId, reason) := checked in
    updatedLead <- try_catch (assignLead lead targetUserId userId reason) assign_catch ;;
    ret (R_assigned updatedLead)).

(** ** Concurrent assign requests

    Requests run interleaved on the shared store.  A request is at one of
    three points: before the handler's checks, before the read of its
    transaction, or before the writes of its transaction.  Each part runs
    without interruption, which is the most the store promises: the
    transactions themselves are serial. *)

Record Request := mkRequest {
  rq_user : string;
  rq_id : option Z;
  rq_body : gmap string json;
}.

Inductive Pc :=
| AtCheck
| AtSelect (lead : Z) (target : string) (reason : option string)
| AtWrite (lead : Z) (target : string) (reason : option string) (currentLead : Lead)
| Done (r : Response).

Definition finish {A} (k : A → Pc) (r : Out A * World) : Pc * World :=
  match r with
  | (Ret a, w) => (k a, w)
  | (Reply r, w) => (Done r, w)
  | (Throw _, w) => (Done (R_error 500 "Failed to assign lead"), w)
  end.

Definition step_request (rq : Request) (pc : Pc) (w : World) : Pc * World :=
  match pc with
  | AtCheck =>
      finish (λ '(lead, target, reason), AtSelect lead target reason)
        (assign_precheck (rq_user rq) (rq_id rq) (rq_body rq) w)
  | AtSelect lead target reason =>
      finish (AtWrite lead target reason)
        (try_catch (transaction (assignLead_select lead)) assign_catch w)
  | AtWrite lead target reason currentLead =>
      finish (λ l, Done (R_assigned l))
        (try_catch
           (transaction (assignLead_write lead target (rq_user rq) reason currentLead))
           assign_catch w)
  | Done r => (Done r, w)
  end.

(** The requests in flight with their program counters, and the store. *)
Definition System : Type := list (Request * Pc) * World.

Definition step_system (i : nat) (s : System) : System :=
  match s.1 !! i with
  | Some (rq, pc) =>
      let '(pc', w') := step_request rq pc s.2 in
      (<[i := (rq, pc')]> s.1, w')
  | None => s
  end.

(** A schedule names the request that moves next. *)
Definition run_schedule (schedule : list nat) (s : System) : System :=
  foldl (λ s i, step_system i s) s schedule.

Definition succeeded (pc : Pc) : bool :=
  match pc with
  | Done (R_assigned _) => true
  | _ => false
  end.

Definition is_assignment (h : LeadHistory) : bool :=
  match changeData h with
  | CD_assignment _ _ => true
  | _ => false
  end.

End Server.

(** * More of the server *)

Section Reading.

Variable fault : option nat.

(** ** The session check (server/auth.ts) *)

(** [session.user]: the id and the login type. *)
Record SessionUser := mkSessionUser {
  s_id : string;
  s_loginType : string;
}.

(** What the middleware does with the request: [next()] with
    [req.user] (the id and the role), or the answer 401. *)
Inductive Authentication :=
| Next (sub : string) (role : Role)
| Unauthorized.

(** [isAuthenticated]: the outcome and [session.user] after the call. *)
Definition isAuthenticated (session : option SessionUser)
    : World → Authentication * option SessionUser * World := λ w,
  match session with
  | Some user =>
      if bool_decide (s_loginType user = "password") then
        if bool_decide (s_id user = "hardcoded-manager-id")
        then (Next (s_id user) manager, session, w)
        else
          match getUser fault (s_id user) w with
          | (Ret (Some dbUser), w') =>
              if bool_decide (user_isActive dbUser = Some true)
              then (Next (user_id dbUser) (user_role dbUser), session, w')
              else (Unauthorized, None, w')
          | (_, w') => (Unauthorized, None, w')
          end
      else (Unauthorized, session, w)
  | None => (Unauthorized, None, w)
  end.

(** ** GET /api/leads/:id/history, for a numeric id *)

(** [inr rows] is [res.json(history)]. *)
Definition get_lead_history (userId : string) (lead : Z)
    : World → (Response + list LeadHistory) * World := λ w,
  match
    (currentUser <- getUser fault userId ;;
     let userRole := user_role <$> currentUser in
     l <- getLead fault lead ;;
     match l with
     | None => reply (R_error 404 "Lead not found")
     | Some l =>
         match userRole with
         | None => reply (R_error 403 "Access denied - invalid role")
         | Some userRole =>
             (match userRole with
              | admin | manager => ret ()
              | hr =>
                  if bool_decide (currentOwnerId l ≠ Some userId)
                  then reply (R_error 403
                    "Access denied - you can only view history for your assigned leads")
                  else ret ()
              | accounts =>
                  if bool_decide (currentOwnerId l ≠ Some userId)
                     && bool_decide (lead_status l ≠ "pending")
                  then reply (R_error 403
                    "Access denied - you can only view history for your assigned leads or pending leads")
                  else ret ()
              end) ;;;
             getLeadHistory fault lead
         end
     end) w
  with
  | (Ret rows, w') => (inr rows, w')
  | (Reply r, w') => (inl r, w')
  | (Throw _, w') => (inl (R_error 500 "Failed to fetch lead history"), w')
  end.

(** ** [getLeadMetrics] (server/storage.ts) *)

Record LeadMetrics := mkLeadMetrics {
  totalLeads : nat;
  activeHR : nat;
  completed : nat;
  statusDistribution : gmap string nat;
}.

Definition count_where (p : Lead → bool) (db : DB) : nat :=
  length (filter (λ l, p l = true) (leads db)).

(** The query that groups the leads by status and counts each group:
    one row for each status that occurs. *)
Definition count_by_status (db : DB) : list (string * nat) :=
  (λ s, (s, count_where (λ l, bool_decide (lead_status l = s)) db))
  <$> remove_dups (lead_status <$> leads db).

Definition getLeadMetrics : M LeadMetrics :=
  totalLeadsResult <- query fault (count_where (λ _, true)) ;;
  activeHRResult <- query fault (count_where (λ l,
      bool_decide (lead_isActive l = Some true)
      && bool_decide (lead_status l ∈ ["new"; "scheduled"; "not_available"; "reschedule"]))) ;;
  completedResult <- query fault (count_where (λ l,
      bool_decide (lead_status l = "completed"))) ;;
  statusDistributionResult <- query fault count_by_status ;;
  let statusDistribution :=
    foldl (λ (m : gmap string nat) row, <[row.1 := row.2]> m) ∅ statusDistributionResult in
  ret (mkLeadMetrics totalLeadsResult activeHRResult completedResult statusDistribution).

End Reading.

(** ** [broadcastUpdate] (server/routes.ts) *)

(** A connection in [authenticatedClients]: whether its socket is open,
    the user id and role stored with it, and whether [send] throws. *)
Record Client := mkClient {
  c_open : bool;
  c_userId : option string;
  c_userRole : option string;
  c_send_throws : bool;
}.

Record BroadcastOptions := mkBroadcastOptions {
  o_userIds : option (list string);
  o_roles : option (list string);
  o_excludeRoles : option (list string);
}.

(** [xs && xs.length > 0] *)
Definition given (xs : option (list string)) : bool :=
  match xs with
  | Some (_ :: _) => true
  | _ => false
  end.

(** [xs.includes(v)] for a nullable [v]. *)
Definition includes (xs : option (list string)) (v : option string) : bool :=
  match xs, v with
  | Some xs, Some v => bool_decide (v ∈ xs)
  | _, _ => false
  end.

(** One round of the [forEach]: [sent] are the connections that have
    received the message so far. *)
Definition broadcast_to (options : BroadcastOptions) (sent : list Client) (client : Client)
    : list Client :=
  if negb (c_open client) then sent
  else if negb (truthy (c_userId client)) && negb (truthy (c_userRole client)) then sent
  else if given (o_roles options) && negb (includes (o_roles options) (c_userRole client))
  then sent
  else if given (o_excludeRoles options)
          && includes (o_excludeRoles options) (c_userRole client)
  then sent
  else if given (o_userIds options) && negb (includes (o_userIds options) (c_userId client))
  then sent
  else if c_send_throws client then sent   (* caught and logged *)
  else sent ++ [client].

Definition broadcastUpdate (options : BroadcastOptions) (clients : list Client) : list Client :=
  foldl (broadcast_to options) [] clients.

(** ** The bulk upload and the export (server/routes.ts) *)

Section Upload.

(** [parseInt(s)], [None] for NaN, and [String(v)]. *)
Variable parseInt : string → option Z.
Variable String_of : json → string.



End Upload.

Definition quote : ascii := "034"%char.
Definition comma : ascii := ","%char.
Definition LF : ascii := "010"%char.
Definition CR : ascii := "013"%char.

(** [str.includes(c)] *)
Fixpoint has_char (c : ascii) (str : string) : bool :=
  match str with
  | EmptyString => false
  | String a rest => bool_decide (a = c) || has_char c rest
  end.

(** [str.replace] of every double quote by two of them. *)
Fixpoint double_quotes (str : string) : string :=
  match str with
  | EmptyString => EmptyString
  | String a rest =>
      if bool_decide (a = quote) then String quote (String quote (double_quotes rest))
      else String a (double_quotes rest)
  end.

(** [escapeCSVValue]; the argument is [String(value)], [None] for null
    and undefined. *)
Definition escapeCSVValue (value : option string) : string :=
  match value with
  | None => ""
  | Some str =>
      if has_char comma str || has_char quote str || has_char LF str || has_char CR str
      then String quote (double_quotes str ++ String quote "")
      else str
  end.

(** [cells.join(',')] *)
Fixpoint join (sep : ascii) (cells : list string) : string :=
  match cells with
  | [] => ""
  | [cell] => cell
  | cell :: rest => cell ++ String sep (join sep rest)
  end.

(** A row of the export: [Object.values(row).map(escapeCSVValue).join(',')]. *)
Definition csv_row (values : list (option string)) : string :=
  join comma (escapeCSVValue <$> values).

(** * Properties *)

(** Closed decidable facts, such as the membership of a field name in a
    schema, are settled by evaluation. *)
Ltac by_evaluation := apply (bool_decide_unpack _); vm_compute; exact I.

Section Properties.

(** Everything below holds for every conversion the store may apply to
    the typed columns. *)
Context {store : Store}.

(** ** The tables *)

(** The primary keys of [users] and [leads]. *)
Definition primary_keys (db : DB) : Prop :=
  NoDup (user_id <$> users db) ∧ NoDup (lead_id <$> leads db).

Definition replace_lead (id : Z) (l' : Lead) (rows : list Lead) : list Lead :=
  map (λ r, if has_id id r then l' else r) rows.

Lemma find_lead_id db id l : find_lead db id = Some l → lead_id l = id.
Proof.
  unfold find_lead. intros H. apply find_some in H as [_ H].
  by apply bool_decide_eq_true in H.
Qed.

Lemma find_lead_elem db id l : find_lead db id = Some l → l ∈ leads db.
Proof.
  unfold find_lead. intros H. apply find_some in H as [H _].
  by apply list_elem_of_In.
Qed.

Lemma find_user_id db id u : find_user db id = Some u → user_id u = id.
Proof.
  unfold find_user. intros H. apply find_some in H as [_ H].
  by apply bool_decide_eq_true in H.
Qed.

Lemma find_user_elem db id u : find_user db id = Some u → u ∈ users db.
Proof.
  unfold find_user. intros H. apply find_some in H as [H _].
  by apply list_elem_of_In.
Qed.

Lemma elem_user_exists db u : u ∈ users db → user_exists db (user_id u) = true.
Proof.
  intros Hu. unfold user_exists. apply bool_decide_eq_true.
  unfold find_user.
  destruct (find (λ u0, bool_decide (user_id u0 = user_id u)) (users db)) eqn:E; [eauto|].
  apply list_elem_of_In in Hu.
  eapply find_none in E; [|exact Hu]. simpl in E.
  by apply bool_decide_eq_false in E.
Qed.

Lemma find_user_exists db id u : find_user db id = Some u → user_exists db id = true.
Proof. intros H. unfold user_exists. apply bool_decide_eq_true. rewrite H. eauto. Qed.

Lemma find_lead_exists db id l : find_lead db id = Some l → lead_exists db id = true.
Proof. intros H. unfold lead_exists. apply bool_decide_eq_true. rewrite H. eauto. Qed.


Lemma apply_set_id set l l' : apply_set set l = Some l' → lead_id l' = lead_id l.
Proof.
  unfold apply_set. generalize (foldr (set_text set) (Some (lead_cols l)) text_columns).
  intros c H.
  destruct (set !! "currentOwnerId") as [[]|], (set !! "status") as [[]|],
    (set !! "isActive") as [[]|], c; simpl in H; try discriminate;
    by injection H as <-.
Qed.

Lemma update_rows_none cond set rows :
  Forall (λ r, cond r = false) rows → update_rows cond set rows = Some (rows, []).
Proof.
  induction 1 as [|r rows Hr _ IH]; simpl; [done|]. by rewrite IH, Hr.
Qed.

Lemma replace_lead_none id l' rows :
  Forall (λ r, has_id id r = false) rows → replace_lead id l' rows = rows.
Proof.
  induction 1 as [|r rows Hr _ IH]; simpl; [done|]. by rewrite Hr, IH.
Qed.

Lemma NoDup_no_match id r rows :
  NoDup (lead_id <$> (r :: rows)) → has_id id r = true →
  Forall (λ r', has_id id r' = false) rows.
Proof.
  intros Hnd Hr. apply bool_decide_eq_true in Hr.
  apply NoDup_cons in Hnd as [Hx _]. apply Forall_forall. intros r' Hin.
  apply bool_decide_eq_false. intros E. apply Hx. rewrite Hr, <- E.
  by apply list_elem_of_fmap_2.
Qed.

Lemma update_rows_unique set id rows l l' :
  NoDup (lead_id <$> rows) → find (has_id id) rows = Some l →
  apply_set set l = Some l' →
  update_rows (has_id id) set rows = Some (replace_lead id l' rows, [l']).
Proof.
  induction rows as [|r rows IH]; simpl; intros Hnd Hf Hs; [done|].
  destruct (has_id id r) eqn:E.
  - injection Hf as ->.
    pose proof (NoDup_no_match _ _ _ Hnd E) as Hno.
    rewrite (update_rows_none _ _ _ Hno), (replace_lead_none _ _ _ Hno). simpl.
    by rewrite Hs.
  - apply NoDup_cons in Hnd as [_ Hnd]. by rewrite (IH Hnd Hf Hs).
Qed.

Lemma find_replace_lead id l l' rows :
  find (has_id id) rows = Some l → lead_id l' = id →
  find (has_id id) (replace_lead id l' rows) = Some l'.
Proof.
  intros Hf Hid. induction rows as [|r rows IH]; simpl in *; [done|].
  destruct (has_id id r) eqn:E.
  - unfold has_id at 1. by rewrite bool_decide_eq_true_2.
  - rewrite E. by apply IH.
Qed.

Lemma replace_lead_ids id l' rows :
  lead_id l' = id → lead_id <$> replace_lead id l' rows = lead_id <$> rows.
Proof.
  intros Hid. induction rows as [|r rows IH]; simpl; [done|]. f_equal; [|done].
  destruct (has_id id r) eqn:E; [|done].
  apply bool_decide_eq_true in E. congruence.
Qed.

(** The table after [UPDATE leads SET set WHERE id = lead]. *)
Definition updated_db (db : DB) (id : Z) (l' : Lead) : DB :=
  with_leads db (replace_lead id l' (leads db)).

Lemma update_table_unique set id db l l' :
  primary_keys db → find_lead db id = Some l → apply_set set l = Some l' →
  opt_user_exists db (currentOwnerId l') = true →
  update_table (has_id id) set db = Some ([l'], updated_db db id l').
Proof.
  intros [_ Hnd] Hf Hs Hu. unfold update_table.
  rewrite (update_rows_unique set id (leads db) l l' Hnd Hf Hs). simpl.
  by rewrite Hu.
Qed.

Lemma find_lead_unique rows id l r :
  NoDup (lead_id <$> rows) → find (has_id id) rows = Some l →
  r ∈ rows → has_id id r = true → r = l.
Proof.
  induction rows as [|x rows IH]; simpl; intros Hnd Hf Hin Hr; [by inversion Hin|].
  destruct (has_id id x) eqn:E.
  - injection Hf as <-. apply elem_of_cons in Hin as [->|Hin]; [done|].
    pose proof (NoDup_no_match _ _ _ Hnd E) as Hno.
    rewrite Forall_forall in Hno. rewrite (Hno _ Hin) in Hr. done.
  - apply NoDup_cons in Hnd as [_ Hnd].
    apply elem_of_cons in Hin as [->|Hin]; [congruence|]. by apply IH.
Qed.

Lemma update_rows_ext cond cond' set rows :
  (∀ r, r ∈ rows → cond r = cond' r) →
  update_rows cond set rows = update_rows cond' set rows.
Proof.
  induction rows as [|x rows IH]; simpl; intros H; [done|].
  rewrite IH by (intros r Hr; apply H, elem_of_cons; by right).
  by rewrite (H x) by (apply elem_of_cons; by left).
Qed.

(** The conditional write of a claim on a lead that is still unowned. *)
Lemma update_table_unowned set id db l l' :
  primary_keys db → find_lead db id = Some l → currentOwnerId l = None →
  apply_set set l = Some l' →
  opt_user_exists db (currentOwnerId l') = true →
  update_table (λ r, has_id id r && bool_decide (currentOwnerId r = None)) set db
  = Some ([l'], updated_db db id l').
Proof.
  intros Hpk Hf Hown Hs Hu.
  rewrite <- (update_table_unique set id db l l' Hpk Hf Hs Hu).
  unfold update_table. f_equal. apply update_rows_ext. intros r Hr.
  destruct (has_id id r) eqn:E; [|done].
  destruct Hpk as [_ Hnd].
  rewrite (find_lead_unique _ _ _ _ Hnd Hf Hr E), Hown.
  by rewrite bool_decide_eq_true_2.
Qed.


Lemma find_lead_with_history db hs id :
  find_lead (with_history db hs) id = find_lead db id.
Proof. done. Qed.

Lemma user_exists_with_history db hs id :
  user_exists (with_history db hs) id = user_exists db id.
Proof. done. Qed.

Lemma user_exists_updated_db db lead l' id :
  user_exists (updated_db db lead l') id = user_exists db id.
Proof. done. Qed.

Lemma updated_db_find db id l l' :
  find_lead db id = Some l → lead_id l' = id →
  find_lead (updated_db db id l') id = Some l'.
Proof. intros Hf Hid. by apply (find_replace_lead id l l'). Qed.

Lemma updated_db_keys db id l' :
  primary_keys db → lead_id l' = id → primary_keys (updated_db db id l').
Proof.
  intros [Hu Hl] Hid. split; [done|]. simpl. by rewrite replace_lead_ids.
Qed.

(** ** Stepping through a handler *)

Section Steps.

Variable fault : option nat.
Variable clock : nat → Z.

Lemma bind_assoc {A B C} (m : M A) (f : A → M B) (g : B → M C) w :
  bind (bind m f) g w = bind m (λ a, bind (f a) g) w.
Proof. unfold bind. by destruct (m w) as [[a|e|r] w']. Qed.

Lemma ret_step {A B} (a : A) (k : A → M B) w : bind (ret a) k w = k a w.
Proof. done. Qed.

Lemma query_step {A B} (q : DB → A) (k : A → M B) w :
  rejected fault w = false →
  bind (query fault q) k w = k (q (w_db w)) (tick w).
Proof. intros H. unfold bind, query. by rewrite H. Qed.

Lemma query_fail {A B} (q : DB → A) (k : A → M B) w :
  rejected fault w = true →
  bind (query fault q) k w = (Throw StoreFailure, tick w).
Proof. intros H. unfold bind, query. by rewrite H. Qed.

Lemma execute_step {A B} (f : DB → option (A * DB)) (k : A → M B) w a db :
  rejected fault w = false → f (w_db w) = Some (a, db) →
  bind (execute fault f) k w = k a (mkWorld db (w_hseq w) (S (w_tick w))).
Proof. intros H Hf. unfold bind, execute. by rewrite H, Hf. Qed.

Lemma execute_run {A} (f : DB → option (A * DB)) w a db :
  rejected fault w = false → f (w_db w) = Some (a, db) →
  execute fault f w = (Ret a, mkWorld db (w_hseq w) (S (w_tick w))).
Proof. intros H Hf. unfold execute. by rewrite H, Hf. Qed.

Lemma execute_fail {A B} (f : DB → option (A * DB)) (k : A → M B) w :
  rejected fault w = true →
  bind (execute fault f) k w = (Throw StoreFailure, tick w).
Proof. intros H. unfold bind, execute. by rewrite H. Qed.

Lemma insert_history_step {B} (h : InsertLeadHistory) (k : LeadHistory → M B) w :
  rejected fault w = false → history_refs_ok (w_db w) h = true →
  bind (insert_history fault clock h) k w =
  let row := history_row h (w_hseq w) (clock (w_tick w)) in
  k row (mkWorld (with_history (w_db w) (leadHistory (w_db w) ++ [row]))
           (w_hseq w + 1) (S (w_tick w))).
Proof.
  intros H Hf. unfold bind, insert_history, insert_history_table, db_now.
  by rewrite H, Hf.
Qed.

Lemma insert_history_fail {B} (h : InsertLeadHistory) (k : LeadHistory → M B) w :
  rejected fault w = true →
  bind (insert_history fault clock h) k w = (Throw StoreFailure, tick w).
Proof. intros H. unfold bind, insert_history. by rewrite H. Qed.

Lemma update_leads_step {B} id set (k : list Lead → M B) w l l' :
  rejected fault w = false → primary_keys (w_db w) →
  find_lead (w_db w) id = Some l → apply_set set l = Some l' →
  opt_user_exists (w_db w) (currentOwnerId l') = true →
  bind (update_leads fault (has_id id) set) k w =
  k [l'] (mkWorld (updated_db (w_db w) id l') (w_hseq w) (S (w_tick w))).
Proof.
  intros H Hk Hf Hs Hu. unfold update_leads.
  by apply execute_step, update_table_unique with (l := l).
Qed.

Lemma updateLead_step {B} id updates (k : option Lead → M B) w l l' :
  rejected fault w = false → primary_keys (w_db w) →
  find_lead (w_db w) id = Some l → apply_set (sanitize updates) l = Some l' →
  opt_user_exists (w_db w) (currentOwnerId l') = true →
  bind (updateLead fault id updates) k w =
  k (Some l') (mkWorld (updated_db (w_db w) id l') (w_hseq w) (S (w_tick w))).
Proof.
  intros H Hk Hf Hs Hu. unfold updateLead. rewrite bind_assoc.
  by rewrite (update_leads_step _ _ _ _ l l').
Qed.

Lemma new_Date_step {B} (k : Z → M B) w :
  bind (new_Date clock) k w = k (clock (w_tick w)) w.
Proof. done. Qed.

Lemma transaction_step {A B} (m : M A) (k : A → M B) w :
  bind (transaction m) k w =
  match m w with
  | (Ret a, w') => k a w'
  | (Throw e, w') => (Throw e, mkWorld (w_db w) (w_hseq w') (w_tick w'))
  | (Reply r, w') => (Reply r, w')
  end.
Proof. unfold bind, transaction. by destruct (m w) as [[a|e|r] w']. Qed.

Lemma updateLead_fail {B} id updates (k : option Lead → M B) w :
  rejected fault w = true →
  bind (updateLead fault id updates) k w = (Throw StoreFailure, tick w).
Proof.
  intros H. unfold updateLead, update_leads. rewrite bind_assoc.
  by apply execute_fail.
Qed.

End Steps.

Lemma no_fault w : rejected None w = false.
Proof. done. Qed.

(** ** Validation *)

Section Validation.

Variable parseFloat : string → option string.
Variable isEmail : string → bool.

Lemma check_kind_str kind v : check_kind isEmail kind v = true → ∃ s, v = JStr s.
Proof. destruct v; simpl; try done. eauto. Qed.

(** What [safeParse] returns: the declared fields of the body, all valid. *)
Lemma safeParse_lookup shape body updates k v :
  safeParse isEmail shape body = Some updates → updates !! k = Some v →
  body !! k = Some v ∧ ∃ kind, (k, kind) ∈ shape ∧ check_kind isEmail kind v = true.
Proof.
  unfold safeParse. destruct (forallb _ shape) eqn:E; [|done].
  intros [= <-] Hk. apply map_lookup_filter_Some in Hk as [Hb Hin]. simpl in Hin.
  split; [done|]. apply list_elem_of_fmap in Hin as ([k' kind] & -> & Hin).
  exists kind. split; [done|].
  rewrite forallb_forall in E. apply list_elem_of_In in Hin.
  specialize (E _ Hin). unfold field_ok in E. simpl in *. by rewrite Hb in E.
Qed.

Lemma safeParse_declared shape body updates k :
  safeParse isEmail shape body = Some updates → k ∈ shape.*1 →
  updates !! k = body !! k.
Proof.
  unfold safeParse. destruct (forallb _ shape); [|done]. intros [= <-] Hin.
  destruct (body !! k) as [v|] eqn:E.
  - by apply map_lookup_filter_Some.
  - apply map_lookup_filter_None. left. done.
Qed.

Lemma safeParse_undeclared shape body updates k :
  safeParse isEmail shape body = Some updates → k ∉ shape.*1 →
  updates !! k = None.
Proof.
  unfold safeParse. destruct (forallb _ shape); [|done]. intros [= <-] Hin.
  apply map_lookup_filter_None. right. intros v _. done.
Qed.

(** Validated updates: strings or NULL in the declared fields only, and a
    status, when present, is one of the status values. *)
Definition valid_updates (updates : gmap string json) : Prop :=
  ∀ k v, updates !! k = Some v →
    k ∈ managerUpdateSchema.*1
    ∧ (v = JNull ∨ ∃ s, v = JStr s)
    ∧ (k = "status" → ∃ s, v = JStr s ∧ s ∈ status_values).

Lemma updateLeadSchema_sub role k kind :
  (k, kind) ∈ updateLeadSchema role → (k, kind) ∈ managerUpdateSchema.
Proof.
  unfold updateLeadSchema, managerUpdateSchema.
  destruct (elevated role); [done|]. intros H. apply elem_of_app. by left.
Qed.

Lemma status_kind kind :
  ("status", kind) ∈ managerUpdateSchema → kind = F_enum status_values.
Proof.
  unfold managerUpdateSchema, baseUpdateSchema. simpl. intros H.
  repeat (apply elem_of_cons in H as [H|H]; [by injection H|]).
  by apply elem_of_nil in H.
Qed.

Lemma safeParse_valid role body updates :
  safeParse isEmail (updateLeadSchema role) body = Some updates → valid_updates updates.
Proof.
  intros Hp k v Hk.
  destruct (safeParse_lookup _ _ _ _ _ Hp Hk) as (_ & kind & Hin & Hc).
  apply updateLeadSchema_sub in Hin.
  destruct (check_kind_str _ _ Hc) as [s ->].
  split; [|split].
  - change k with ((k, kind).1). by apply list_elem_of_fmap_2.
  - eauto.
  - intros ->. apply status_kind in Hin as ->. exists s. split; [done|].
    simpl in Hc. by apply bool_decide_eq_true in Hc.
Qed.

Lemma parse_amount_valid field message updates updates' :
  field ∈ managerUpdateSchema.*1 → field ≠ "status" →
  valid_updates updates →
  parse_amount parseFloat field message updates = inr updates' →
  valid_updates updates' ∧ ∀ k, k ≠ field → updates' !! k = updates !! k.
Proof.
  intros Hf Hns Hv. unfold parse_amount.
  assert (∀ v, (v = JNull ∨ ∃ s, v = JStr s) →
            valid_updates (<[field := v]> updates)
            ∧ ∀ k, k ≠ field → <[field := v]> updates !! k = updates !! k) as Hins.
  { intros v Hvv. split.
    - intros k v' Hk. destruct (decide (k = field)) as [->|Hne].
      + rewrite lookup_insert_eq in Hk. injection Hk as <-. done.
      + rewrite lookup_insert_ne in Hk by done. by apply Hv.
    - intros k Hne. by rewrite lookup_insert_ne. }
  destruct (updates !! field) as [[| | |s|]|]; try done.
  - intros [= <-]. apply Hins. by left.
  - case_bool_decide.
    + intros [= <-]. apply Hins. by left.
    + destruct (parseFloat s) as [p|]; [|done]. intros [= <-]. apply Hins. eauto.
  - by intros [= <-].
Qed.

Lemma validate_update_valid role body updates :
  validate_update parseFloat isEmail role body = inr updates →
  valid_updates updates ∧ updates !! "status" = body !! "status".
Proof.
  unfold validate_update.
  destruct (safeParse isEmail (updateLeadSchema role) body) as [u0|] eqn:Hp; [|done].
  pose proof (safeParse_valid _ _ _ Hp) as Hv0.
  assert (u0 !! "status" = body !! "status") as Hs0.
  { apply (safeParse_declared _ _ _ _ Hp).
    unfold updateLeadSchema. destruct (elevated role); by_evaluation. }
  destruct (parse_amount parseFloat "registrationAmount" _ u0) as [|u1] eqn:H1; [done|].
  intros H2.
  apply parse_amount_valid in H1 as [Hv1 Hs1]; [|by_evaluation|done|done].
  apply parse_amount_valid in H2 as [Hv2 Hs2]; [|by_evaluation|done|done].
  split; [done|]. rewrite Hs2, Hs1 by done. done.
Qed.

End Validation.

(** ** [updateLead] on validated updates *)

Lemma sanitize_field_lookup u f k :
  sanitize_field u f !! k =
  if decide (k = f ∧ u !! k = Some (JStr "")) then Some JNull else u !! k.
Proof.
  unfold sanitize_field.
  destruct (decide (k = f ∧ u !! k = Some (JStr ""))) as [[-> Hk]|Hn].
  - rewrite bool_decide_eq_true_2 by done. apply lookup_insert_eq.
  - case_bool_decide as Hf; [|done].
    rewrite lookup_insert_ne; [done|]. intros <-. by apply Hn.
Qed.

Lemma foldl_sanitize_lookup fs u k :
  foldl sanitize_field u fs !! k =
  if decide (k ∈ fs ∧ u !! k = Some (JStr "")) then Some JNull else u !! k.
Proof.
  revert u. induction fs as [|f fs IH]; intros u; cbn [foldl].
  - destruct (decide (k ∈ [] ∧ u !! k = Some (JStr ""))) as [[H _]|_]; [|done].
    by apply elem_of_nil in H.
  - rewrite IH, sanitize_field_lookup.
    destruct (decide (k = f ∧ u !! k = Some (JStr ""))) as [[-> Hk]|Hn].
    + destruct (decide (f ∈ fs ∧ Some JNull = Some (JStr ""))) as [[_ ?]|_]; [done|].
      destruct (decide (f ∈ f :: fs ∧ u !! f = Some (JStr ""))) as [_|Hn']; [done|].
      exfalso. apply Hn'. split; [apply elem_of_cons; by left|done].
    + destruct (decide (k ∈ fs ∧ u !! k = Some (JStr ""))) as [[Hin Hk]|Hn'].
      * destruct (decide (k ∈ f :: fs ∧ u !! k = Some (JStr ""))) as [_|Hn']; [done|].
        exfalso. apply Hn'. split; [apply elem_of_cons; by right|done].
      * destruct (decide (k ∈ f :: fs ∧ u !! k = Some (JStr ""))) as [[Hin Hk]|_]; [|done].
        exfalso. apply elem_of_cons in Hin as [->|Hin]; [by apply Hn|by apply Hn'].
Qed.

Lemma sanitize_lookup u k :
  sanitize u !! k =
  if decide (k ∈ sanitized_fields ∧ u !! k = Some (JStr "")) then Some JNull else u !! k.
Proof. apply foldl_sanitize_lookup. Qed.

Lemma sanitize_None u k : u !! k = None → sanitize u !! k = None.
Proof.
  intros H. rewrite sanitize_lookup.
  destruct (decide _) as [[_ ?]|_]; [congruence|done].
Qed.

Lemma sanitize_other u k : k ∉ sanitized_fields → sanitize u !! k = u !! k.
Proof.
  intros H. rewrite sanitize_lookup. by destruct (decide _) as [[? _]|_].
Qed.

Lemma sanitize_values u k v :
  sanitize u !! k = Some v → v = JNull ∨ u !! k = Some v.
Proof. rewrite sanitize_lookup. destruct (decide _); [intros [= <-]; by left|by right]. Qed.

(** The store can convert every string of [set] into its column. *)
Definition accepts_columns (set : gmap string json) (cols : list string) : bool :=
  forallb (λ f, match set !! f with
                | Some (JStr s) => bool_decide (is_Some (store_text f s))
                | _ => true
                end) cols.

Definition store_accepts (set : gmap string json) : bool :=
  accepts_columns set text_columns.

Lemma foldr_set_text_Some set cols c0 :
  (∀ k v, set !! k = Some v → v = JNull ∨ ∃ s, v = JStr s) →
  accepts_columns set cols = true →
  ∃ c, foldr (set_text set) (Some c0) cols = Some c.
Proof.
  intros Hv. induction cols as [|f cols IH]; simpl; [eauto|].
  unfold accepts_columns in *. cbn [forallb].
  intros Hacc. apply andb_true_iff in Hacc as [Hf Hacc].
  destruct (IH Hacc) as [c ->]. simpl.
  destruct (set !! f) as [v|] eqn:E; [|eauto].
  destruct (Hv _ _ E) as [->|[s ->]]; [eauto|].
  apply bool_decide_eq_true in Hf as [stored ->]. simpl. eauto.
Qed.

Lemma foldr_set_text_None set cols c0 :
  accepts_columns set cols = false →
  foldr (set_text set) (Some c0) cols = None.
Proof.
  unfold accepts_columns. induction cols as [|f cols IH]; simpl; [done|].
  intros Hacc. apply andb_false_iff in Hacc as [Hf|Hacc].
  - destruct (foldr (set_text set) (Some c0) cols) as [c|]; [|done]. simpl.
    destruct (set !! f) as [[| | |s|]|]; try done.
    apply bool_decide_eq_false in Hf.
    destruct (store_text f s) as [stored|]; [|done]. destruct Hf. eauto.
  - by rewrite (IH Hacc).
Qed.

Lemma store_accepts_foldr set c0 :
  (∀ k v, set !! k = Some v → v = JNull ∨ ∃ s, v = JStr s) →
  store_accepts set = true →
  ∃ c, foldr (set_text set) (Some c0) text_columns = Some c.
Proof. intros Hv Hacc. by apply foldr_set_text_Some. Qed.

(** The row a validated update leaves when the store accepts its
    strings: the owner and the active flag are kept, the status is the
    submitted one if any. *)
Lemma apply_set_validated updates l :
  valid_updates updates →
  store_accepts (sanitize updates) = true →
  ∃ c, apply_set (sanitize updates) l =
       Some (mkLead (lead_id l) (currentOwnerId l)
               (default (lead_status l) (str_field updates "status"))
               (lead_isActive l) c).
Proof.
  intros Hv Hacc.
  assert (∀ k, k ∉ managerUpdateSchema.*1 → sanitize updates !! k = None) as Hout.
  { intros k Hk. apply sanitize_None. destruct (updates !! k) as [v|] eqn:E; [|done].
    destruct (Hv _ _ E) as [? _]. done. }
  destruct (store_accepts_foldr (sanitize updates) (lead_cols l)) as [c Hc]; [|exact Hacc|].
  { intros k v Hk. apply sanitize_values in Hk as [->|Hk]; [by left|].
    by destruct (Hv _ _ Hk) as (_ & ? & _). }
  clear Hacc.
  unfold apply_set.
  rewrite (Hout "currentOwnerId") by by_evaluation.
  rewrite (Hout "isActive") by by_evaluation.
  rewrite (sanitize_other _ "status") by by_evaluation.
  exists c. rewrite Hc. unfold str_field.
  destruct (updates !! "status") as [v|] eqn:E; [|done].
  destruct (Hv _ _ E) as (_ & _ & Hs). destruct (Hs eq_refl) as (s & -> & _). done.
Qed.

(** The text columns of an updated row are those the [foldr] builds. *)
Lemma apply_set_cols set l l' :
  apply_set set l = Some l' →
  foldr (set_text set) (Some (lead_cols l)) text_columns = Some (lead_cols l').
Proof.
  unfold apply_set. generalize (foldr (set_text set) (Some (lead_cols l)) text_columns).
  intros c H.
  destruct (set !! "currentOwnerId") as [[]|], (set !! "status") as [[]|],
    (set !! "isActive") as [[]|], c; simpl in H; try discriminate;
    by injection H as <-.
Qed.

(** What a column holds after [.set({...})]: what the store makes of the
    submitted string, NULL for a submitted NULL, and the old value when
    the object does not name the column. *)
Lemma foldr_set_text_lookup set cols c0 c f :
  foldr (set_text set) (Some c0) cols = Some c →
  c !! f = if decide (f ∈ cols)
           then match set !! f with
                | Some (JStr s) => store_text f s
                | Some JNull => None
                | _ => c0 !! f
                end
           else c0 !! f.
Proof.
  revert c. induction cols as [|g cols IH]; intros c; simpl.
  - intros [= <-]. destruct (decide (f ∈ [])) as [Hin|_]; [|done].
    by apply elem_of_nil in Hin.
  - destruct (foldr (set_text set) (Some c0) cols) as [c1|]; [|done]. simpl.
    specialize (IH c1 eq_refl).
    destruct (decide (f = g)) as [->|Hne].
    + destruct (decide (g ∈ g :: cols)) as [_|Hn]; [|destruct Hn; apply elem_of_cons; by left].
      destruct (set !! g) as [[| | |s|]|] eqn:E; try done.
      * intros [= <-]. by rewrite lookup_delete_eq.
      * destruct (store_text g s) as [stored|]; [|done]. simpl.
        intros [= <-]. by rewrite lookup_insert_eq.
      * intros [= <-]. rewrite IH. by destruct (decide (g ∈ cols)).
    + assert (c !! f = c1 !! f → c !! f =
                if decide (f ∈ g :: cols)
                then match set !! f with
                     | Some (JStr s) => store_text f s
                     | Some JNull => None
                     | _ => c0 !! f
                     end
                else c0 !! f) as Hstep.
      { intros ->. rewrite IH.
        destruct (decide (f ∈ cols)) as [Hin|Hout],
                 (decide (f ∈ g :: cols)) as [Hin'|Hout']; try done.
        - destruct Hout'. apply elem_of_cons. by right.
        - apply elem_of_cons in Hin' as [?|?]; done. }
      destruct (set !! g) as [[| | |s|]|] eqn:E; try done.
      * intros [= <-]. apply Hstep. by rewrite lookup_delete_ne.
      * destruct (store_text g s) as [stored|]; [|done]. simpl.
        intros [= <-]. apply Hstep. by rewrite lookup_insert_ne.
      * intros [= <-]. by apply Hstep.
Qed.

(** A row cannot take a string that the store cannot convert. *)
Lemma store_refuses_row set l :
  store_accepts set = false → apply_set set l = None.
Proof.
  intros Hacc. unfold apply_set.
  rewrite (foldr_set_text_None set text_columns (lead_cols l) Hacc).
  by destruct (set !! "currentOwnerId") as [[]|],
    (set !! "status") as [[]|], (set !! "isActive") as [[]|].
Qed.

Lemma apply_set_handoff assignedUser newStatus l :
  apply_set (sanitize (handoff_set assignedUser newStatus)) l =
  Some (mkLead (lead_id l) (Some (user_id assignedUser)) newStatus (Some true) (lead_cols l)).
Proof. reflexivity. Qed.

(** ** PUT /api/leads/:id without faults *)

Section Update.

Variable fault : option nat.
Variable clock : nat → Z.
Variable parseFloat : string → option string.
Variable isEmail : string → bool.

Definition active_with_role (role : Role) (db : DB) : list User :=
  filter (λ u, user_role u = role ∧ user_isActive u = Some true) (users db).

Lemma changed_status_Some updates currentLead s :
  updates !! "status" = Some (JStr s) → s ∈ status_values →
  s ≠ lead_status currentLead →
  changed_status updates currentLead = Some s.
Proof.
  intros Hs Hin Hne. unfold changed_status, str_field. rewrite Hs.
  assert (truthy (Some s) = true) as ->.
  { simpl. apply negb_true_iff, bool_decide_eq_false. intros ->.
    revert Hin. by_evaluation. }
  by rewrite bool_decide_eq_true_2.
Qed.

Lemma changed_status_None updates currentLead :
  (∀ s, updates !! "status" = Some (JStr s) → s = lead_status currentLead) →
  changed_status updates currentLead = None.
Proof.
  intros H. unfold changed_status, str_field.
  destruct (updates !! "status") as [[| | |s|]|] eqn:E; try done.
  rewrite (bool_decide_eq_false_2 (s ≠ _)); [by rewrite andb_false_r|].
  intros Hne. by apply Hne, H.
Qed.

(** The handler up to [put_lead_apply], when the actor may edit the lead. *)
Lemma put_lead_checked userId u lead currentLead body updates w :
  rejected fault w = false → rejected fault (tick w) = false →
  find_user (w_db w) userId = Some u →
  validate_update parseFloat isEmail (user_role u) body = inr updates →
  find_lead (w_db w) lead = Some currentLead →
  (elevated (user_role u) = true ∨ currentOwnerId currentLead = Some userId) →
  put_lead fault clock parseFloat isEmail userId (Some lead) body w =
  run_route "Failed to update lead"
    (put_lead_apply fault clock userId (user_role u) lead currentLead updates)
    (tick (tick w)).
Proof.
  intros H0 H1 Hu Hv Hl Hacc. unfold put_lead, run_route, getUser, getLead.
  rewrite query_step by done. rewrite Hu. cbn [role_or_hr]. rewrite Hv.
  rewrite query_step by done. cbn [tick w_db]. rewrite Hl.
  destruct Hacc as [He|Ho].
  - destruct (user_role u); try discriminate He; done.
  - rewrite !(bool_decide_eq_false_2 (currentOwnerId currentLead ≠ Some userId)) by tauto.
    by rewrite !andb_false_r.
Qed.

Lemma history_refs_updated db id l' h :
  history_refs_ok (updated_db db id l') h =
  lead_exists (updated_db db id l') (i_leadId h) && opt_user_exists db (i_fromUserId h)
  && opt_user_exists db (i_toUserId h) && user_exists db (i_changedByUserId h).
Proof. done. Qed.


Lemma active_with_role_elem role db a rest :
  active_with_role role db = a :: rest → a ∈ users db ∧ user_role a = role.
Proof.
  intros H. assert (a ∈ active_with_role role db) as Hin by (rewrite H; apply elem_of_cons; by left).
  apply list_elem_of_filter in Hin as [[? _] ?]. done.
Qed.

(** The store after a hand-off to [assignedUser]. *)
Definition handed_off (lead : Z) (currentLead updated : Lead) (assignedUser : User)
    (userId newStatus reason handoffType title : string) (message : Lead → string)
    (w : World) : World :=
  let l2 := mkLead lead (Some (user_id assignedUser)) newStatus (Some true)
              (lead_cols updated) in
  let row := history_row
               (handoff_entry lead currentLead assignedUser newStatus reason handoffType userId)
               (w_hseq w) (clock (2 + w_tick w)) in
  let n := mkNotification (user_id assignedUser) title (message updated)
             "lead_assignment" (Some lead) in
  mkWorld
    (with_notifications
       (with_history (updated_db (w_db w) lead l2) (leadHistory (w_db w) ++ [row]))
       (notifications (w_db w) ++ [n]))
    (w_hseq w + 1) (4 + w_tick w).

Lemma handed_off_find lead currentLead updated a userId newStatus reason handoffType
    title message w :
  find_lead (w_db w) lead = Some updated →
  find_lead (w_db (handed_off lead currentLead updated a userId newStatus reason
                     handoffType title message w)) lead
  = Some (mkLead lead (Some (user_id a)) newStatus (Some true) (lead_cols updated)).
Proof. intros H. by apply (updated_db_find _ _ updated). Qed.

(** The hand-off when an active user has the target role. *)
Lemma handoff_some {B} lead currentLead updated userId role newStatus reason
    handoffType title message (k : unit → M B) w a rest :
  rejected fault w = false → rejected fault (tick w) = false →
  rejected fault (tick (tick w)) = false → rejected fault (tick (tick (tick w))) = false →
  primary_keys (w_db w) →
  active_with_role role (w_db w) = a :: rest →
  find_lead (w_db w) lead = Some updated →
  opt_user_exists (w_db w) (currentOwnerId currentLead) = true →
  user_exists (w_db w) userId = true →
  bind (handoff fault clock lead currentLead (Some updated) userId role newStatus reason
          handoffType title message) k w =
  k () (handed_off lead currentLead updated a userId newStatus reason handoffType title
          message w).
Proof.
  intros H0 H1 H2 H3 Hpk Ha Hl Hfrom Hby.
  destruct (active_with_role_elem _ _ _ _ Ha) as [Hin _].
  pose proof (elem_user_exists _ _ Hin) as Hex.
  pose proof (find_lead_id _ _ _ Hl) as Hid.
  unfold handoff, getUsersByRole. rewrite bind_assoc.
  rewrite query_step by done. fold (active_with_role role (w_db w)). rewrite Ha.
  rewrite !bind_assoc.
  rewrite (updateLead_step fault lead _ _ _ updated
             (mkLead lead (Some (user_id a)) newStatus (Some true) (lead_cols updated)));
    [|done|done|done|by rewrite apply_set_handoff, Hid|done].
  unfold createLeadHistory. rewrite !bind_assoc.
  rewrite insert_history_step; [|done|]; cycle 1.
  { cbn [w_db tick]. rewrite history_refs_updated.
    cbn [handoff_entry i_leadId i_fromUserId i_toUserId i_changedByUserId opt_user_exists].
    rewrite Hfrom, Hex, Hby.
    rewrite (find_lead_exists _ _ (mkLead lead (Some (user_id a)) newStatus (Some true)
                                      (lead_cols updated))); [done|].
    by apply (updated_db_find _ _ updated). }
  cbv zeta. unfold createNotification.
  erewrite execute_step; [|done|]; cycle 1.
  { cbn [w_db tick]. unfold insert_notification_table.
    cbn [n_userId n_relatedLeadId].
    assert (∀ db hs, user_exists (with_history db hs) (user_id a) = user_exists db (user_id a))
      as -> by done.
    assert (∀ db hs, lead_exists (with_history db hs) lead = lead_exists db lead) as -> by done.
    assert (∀ l', user_exists (updated_db (w_db w) lead l') (user_id a)
                  = user_exists (w_db w) (user_id a)) as -> by done.
    rewrite Hex.
    rewrite (find_lead_exists _ _ (mkLead lead (Some (user_id a)) newStatus (Some true)
                                      (lead_cols updated)));
      [|by apply (updated_db_find _ _ updated)].
    reflexivity. }
  reflexivity.
Qed.

End Update.

(** The diff of the audited fields is empty exactly when no submitted
    audited field differs from the stored value. *)
Lemma changed_field_None updates currentLead f :
  changed_field updates currentLead f = None ↔
  ∀ v, updates !! f = Some v → v = col_value currentLead f.
Proof.
  unfold changed_field. destruct (updates !! f) as [v|]; [|by split].
  case_bool_decide as Hd; split; intros H.
  - done.
  - exfalso. apply Hd. by apply H.
  - intros v' [= <-]. by destruct (decide (v = col_value currentLead f)).
  - done.
Qed.

Lemma changedFields_of_nil updates currentLead :
  changedFields_of updates currentLead = [] ↔
  ∀ f v, f ∈ nonStatusFields → updates !! f = Some v → v = col_value currentLead f.
Proof.
  unfold changedFields_of. generalize nonStatusFields as fs.
  induction fs as [|f fs IH]; simpl.
  - split; [|done]. intros _ f v H. by apply elem_of_nil in H.
  - destruct (changed_field updates currentLead f) as [cf|] eqn:E.
    + split; [done|]. intros H. exfalso.
      assert (changed_field updates currentLead f = None) as E'.
      { apply changed_field_None. intros v. apply H, elem_of_cons. by left. }
      congruence.
    + rewrite IH. split; intros H f' v Hin.
      * apply elem_of_cons in Hin as [->|Hin]; [|by apply H].
        by apply changed_field_None.
      * apply H, elem_of_cons. by right.
Qed.


(** ** Restricted fields *)

(** The body without the keys that the schema of a non-elevated actor
    does not declare. *)
Definition strip_restricted (body : gmap string json) : gmap string json :=
  filter (λ kv, kv.1 ∈ baseUpdateSchema.*1) body.

Lemma filter_declared_lookup (keys : list string) (body : gmap string json) k :
  k ∈ keys → filter (λ kv, kv.1 ∈ keys) body !! k = body !! k.
Proof.
  intros Hin. destruct (body !! k) as [v|] eqn:E.
  - by apply map_lookup_filter_Some.
  - apply map_lookup_filter_None. by left.
Qed.

Lemma filter_undeclared_lookup (keys : list string) (body : gmap string json) k :
  k ∉ keys → filter (λ kv, kv.1 ∈ keys) body !! k = None.
Proof. intros Hin. apply map_lookup_filter_None. right. by intros v _. Qed.

Lemma filter_declared_idem (keys : list string) (body : gmap string json) :
  filter (λ kv, kv.1 ∈ keys) (filter (λ kv, kv.1 ∈ keys) body)
  = filter (λ kv, kv.1 ∈ keys) body.
Proof.
  apply map_eq. intros k. destruct (decide (k ∈ keys)) as [Hin|Hout].
  - by rewrite !filter_declared_lookup.
  - by rewrite !filter_undeclared_lookup.
Qed.

Lemma forallb_ext_elem {A} (f g : A → bool) (l : list A) :
  (∀ x, x ∈ l → f x = g x) → forallb f l = forallb g l.
Proof.
  induction l as [|x l IH]; simpl; intros H; [done|].
  rewrite H by (apply elem_of_cons; by left).
  rewrite IH; [done|]. intros y Hy. apply H, elem_of_cons. by right.
Qed.

Lemma safeParse_filter isEmail shape body :
  safeParse isEmail shape (filter (λ kv, kv.1 ∈ shape.*1) body)
  = safeParse isEmail shape body.
Proof.
  unfold safeParse. rewrite filter_declared_idem.
  assert (forallb (field_ok isEmail (filter (λ kv, kv.1 ∈ shape.*1) body)) shape
          = forallb (field_ok isEmail body) shape) as ->; [|done].
  apply forallb_ext_elem. intros entry Hin. unfold field_ok.
  rewrite filter_declared_lookup; [done|].
  by apply list_elem_of_fmap_2.
Qed.


(** ** DELETE /api/leads/:id *)

Lemma apply_set_release l :
  apply_set {[ "currentOwnerId" := JNull; "status" := JStr "new" ]} l
  = Some (mkLead (lead_id l) None "new" (lead_isActive l) (lead_cols l)).
Proof. reflexivity. Qed.

Lemma rejected_iff fault w : rejected fault w = false ↔ fault ≠ Some (w_tick w).
Proof. unfold rejected. apply bool_decide_eq_false. Qed.

Lemma rejected_at fault w : fault = Some (w_tick w) → rejected fault w = true.
Proof. unfold rejected. apply bool_decide_eq_true_2. Qed.

Lemma filter_other_lead_no_ref lead (hs : list LeadHistory) :
  existsb (λ h, bool_decide (leadId h = lead)) (filter (λ h, leadId h ≠ lead) hs) = false.
Proof.
  induction hs as [|h hs IH]; [done|]. rewrite filter_cons.
  destruct (decide (leadId h ≠ lead)) as [Hne|_]; [|done].
  simpl. by rewrite IH, bool_decide_eq_false_2.
Qed.

Lemma filter_other_lead_none lead (hs : list LeadHistory) :
  filter (λ h, leadId h = lead) (filter (λ h, leadId h ≠ lead) hs) = [].
Proof.
  induction hs as [|h hs IH]; [done|]. rewrite filter_cons.
  destruct (decide (leadId h ≠ lead)) as [Hne|_]; [|done].
  rewrite filter_cons. by destruct (decide (leadId h = lead)).
Qed.

Lemma find_deleted_lead lead (ls : list Lead) :
  find (has_id lead) (filter (λ l, lead_id l ≠ lead) ls) = None.
Proof.
  induction ls as [|l ls IH]; [done|]. rewrite filter_cons.
  destruct (decide (lead_id l ≠ lead)) as [Hne|_]; [|done].
  simpl. unfold has_id at 1. by rewrite bool_decide_eq_false_2.
Qed.


(** ** The order of [getLeadHistory] *)

(** [a] may come before [b] under [ORDER BY changed_at DESC]. *)
Definition not_older (a b : LeadHistory) : Prop := (changedAt b ≤ changedAt a)%Z.

Lemma insert_desc_perm h l : Permutation (insert_desc h l) (h :: l).
Proof.
  induction l as [|x l IH]; simpl; [done|].
  case_bool_decide; [done|].
  rewrite IH. apply perm_swap.
Qed.

Lemma insert_desc_sorted h l :
  StronglySorted not_older l → StronglySorted not_older (insert_desc h l).
Proof.
  induction l as [|x l IH]; simpl; intros Hs.
  - repeat constructor.
  - apply StronglySorted_inv in Hs as [Hs Hx].
    case_bool_decide as Hd.
    + constructor; [by constructor|].
      constructor; [done|].
      eapply Forall_impl; [exact Hx|]. unfold not_older. intros y Hy. lia.
    + constructor; [by apply IH|].
      rewrite insert_desc_perm. constructor; [|done].
      unfold not_older. lia.
Qed.

Lemma order_by_changedAt_desc_perm rows :
  Permutation (order_by_changedAt_desc rows) rows.
Proof.
  induction rows as [|h rows IH]; simpl; [done|].
  rewrite insert_desc_perm. by constructor.
Qed.

Lemma order_by_changedAt_desc_sorted rows :
  StronglySorted not_older (order_by_changedAt_desc rows).
Proof.
  induction rows as [|h rows IH]; simpl; [constructor|].
  by apply insert_desc_sorted.
Qed.

Lemma sorted_lookup (l : list LeadHistory) i j a b :
  StronglySorted not_older l → l !! i = Some a → l !! j = Some b → (i < j)%nat →
  not_older a b.
Proof.
  intros Hs. revert i j. induction Hs as [|x l Hs IH Hx]; intros i j Hi Hj Hlt.
  - done.
  - destruct i as [|i], j as [|j]; try lia; simpl in *.
    + injection Hi as <-. rewrite Forall_forall in Hx. apply Hx.
      by eapply list_elem_of_lookup_2.
    + eapply IH; eauto. lia.
Qed.


(** ** Concurrent assign requests *)

Section Interleaving.

Variable fault : option nat.
Variable clock : nat → Z.
Variable isEmail : string → bool.

Lemma assignLead_select_db lead w :
  w_db (assignLead_select fault lead w).2 = w_db w.
Proof.
  unfold assignLead_select, getLead, bind, query.
  destruct (rejected fault w); [done|]. cbn [fst snd].
  by destruct (find_lead (w_db w) lead).
Qed.

(** The three parts of a request, run one after the other, are the
    handler. *)
Lemma steps_are_assign_lead rq w r w' :
  assign_lead fault clock isEmail (rq_user rq) (rq_id rq) (rq_body rq) w = (r, w') →
  let '(pc1, w1) := step_request fault clock isEmail rq AtCheck w in
  let '(pc2, w2) := step_request fault clock isEmail rq pc1 w1 in
  step_request fault clock isEmail rq pc2 w2 = (Done r, w').
Proof.
  unfold assign_lead, run_route, bind. cbn [step_request].
  destruct (assign_precheck fault isEmail (rq_user rq) (rq_id rq) (rq_body rq) w)
    as [[[[lead target] reason]|e|r0] w1]; cbn [finish step_request];
    [|by intros [= <- <-]..].
  unfold assignLead, bind.
  pose proof (assignLead_select_db lead w1) as Hdb.
  unfold try_catch, transaction.
  destruct (assignLead_select fault lead w1) as [[currentLead|e|r0] w2];
    cbn [finish step_request fst snd] in *.
  - unfold try_catch, transaction.
    destruct (assignLead_write fault clock lead target (rq_user rq) reason currentLead w2)
      as [[l|e|r0] w3]; cbn [finish]; [by intros [= <- <-]| |by intros [= <- <-]].
    rewrite Hdb. destruct e; by intros [= <- <-].
  - destruct e; by intros [= <- <-].
  - by intros [= <- <-].
Qed.

Lemma step_system_0 rq pc rest w :
  step_system fault clock isEmail 0 ((rq, pc) :: rest, w)
  = ((rq, (step_request fault clock isEmail rq pc w).1) :: rest,
     (step_request fault clock isEmail rq pc w).2).
Proof.
  unfold step_system. cbn [fst snd lookup list_lookup].
  by destruct (step_request fault clock isEmail rq pc w).
Qed.

Lemma step_system_1 x rq pc rest w :
  step_system fault clock isEmail 1 (x :: (rq, pc) :: rest, w)
  = (x :: (rq, (step_request fault clock isEmail rq pc w).1) :: rest,
     (step_request fault clock isEmail rq pc w).2).
Proof.
  unfold step_system. cbn [fst snd lookup list_lookup].
  by destruct (step_request fault clock isEmail rq pc w).
Qed.


(** The parts of a claim by an hr user, one at a time. *)

Lemma step_check_unowned userId u lead l w :
  find_user (w_db w) userId = Some u → user_role u = hr → lead ≠ 0 →
  find_lead (w_db w) lead = Some l → currentOwnerId l = None →
  step_request None clock isEmail (mkRequest userId (Some lead) ∅) AtCheck w
  = (AtSelect lead userId None, tick (tick (tick w))).
Proof.
  intros Hu Hrole Hz Hl Hown.
  cbn [step_request rq_user rq_id rq_body].
  unfold assign_precheck, getUser, getLead.
  rewrite query_step by done. cbv beta. rewrite Hu.
  rewrite (bool_decide_eq_false_2 (lead = 0)) by done.
  change (safeParse isEmail assignLeadSchema ∅) with (Some (∅ : gmap string json)).
  cbv beta iota zeta.
  change (or_else (str_field ∅ "toUserId") userId) with userId.
  change (str_field ∅ "reason") with (@None string).
  rewrite query_step by done. cbv beta. cbn [tick w_db]. rewrite Hu, Hrole.
  rewrite (bool_decide_eq_false_2 (userId ≠ userId)) by (intros H; by apply H).
  rewrite bind_assoc, query_step by done. cbv beta. cbn [tick w_db].
  rewrite Hl, Hown. reflexivity.
Qed.

Lemma step_select rq lead target reason l w :
  find_lead (w_db w) lead = Some l →
  step_request None clock isEmail rq (AtSelect lead target reason) w
  = (AtWrite lead target reason l, tick w).
Proof.
  intros Hl. cbn [step_request].
  unfold try_catch, transaction, assignLead_select, getLead.
  rewrite query_step by done. cbv beta. by rewrite Hl.
Qed.

(** The store after an assignment of [lead] to [userId]. *)
Definition assigned (lead : Z) (userId : string) (reason : option string)
    (snapshot l : Lead) (w : World) : World :=
  let l' := mkLead lead (Some userId) (lead_status l) (lead_isActive l) (lead_cols l) in
  let row := history_row (assignment_entry lead snapshot userId userId reason)
               (w_hseq w) (clock (1 + w_tick w)) in
  mkWorld (with_history (updated_db (w_db w) lead l') (leadHistory (w_db w) ++ [row]))
    (w_hseq w + 1) (2 + w_tick w).

Lemma assigned_refs lead userId u reason snapshot l w :
  find_user (w_db w) userId = Some u →
  find_lead (w_db w) lead = Some l →
  opt_user_exists (w_db w) (currentOwnerId snapshot) = true →
  history_refs_ok
    (updated_db (w_db w) lead
       (mkLead lead (Some userId) (lead_status l) (lead_isActive l) (lead_cols l)))
    (assignment_entry lead snapshot userId userId reason) = true.
Proof.
  intros Hu Hl Hfk. rewrite history_refs_updated.
  cbn [assignment_entry i_leadId i_fromUserId i_toUserId i_changedByUserId opt_user_exists].
  rewrite Hfk, (find_user_exists _ _ _ Hu).
  rewrite (find_lead_exists _ _ (mkLead lead (Some userId) (lead_status l)
                                    (lead_isActive l) (lead_cols l))); [done|].
  by apply (updated_db_find _ _ l).
Qed.

(** The writes of a claim whose read saw no owner, on a lead that is
    still unowned: the conditional update succeeds. *)
Lemma step_write_unowned userId u rid body reason lead snapshot l w :
  primary_keys (w_db w) → find_user (w_db w) userId = Some u →
  currentOwnerId snapshot = None →
  find_lead (w_db w) lead = Some l → currentOwnerId l = None →
  step_request None clock isEmail (mkRequest userId rid body)
    (AtWrite lead userId reason snapshot) w
  = (Done (R_assigned
             (Some (mkLead lead (Some userId) (lead_status l) (lead_isActive l)
                      (lead_cols l)))),
     assigned lead userId reason snapshot l w).
Proof.
  intros Hpk Hu Hsnap Hl Hown.
  pose proof (find_lead_id _ _ _ Hl) as Hid.
  cbn [step_request rq_user]. unfold try_catch, transaction, assignLead_write.
  rewrite Hsnap. rewrite !bool_decide_eq_true_2 by done. cbn [andb].
  unfold update_leads.
  rewrite (execute_step None _ _ w
             [mkLead lead (Some userId) (lead_status l) (lead_isActive l) (lead_cols l)]
             (updated_db (w_db w) lead
                (mkLead lead (Some userId) (lead_status l) (lead_isActive l) (lead_cols l))));
    [|done|]; cycle 1.
  { apply (update_table_unowned _ _ _ l); try done.
    - by rewrite <- Hid.
    - by apply (find_user_exists _ _ u). }
  rewrite insert_history_step; [|done|]; cycle 1.
  { cbn [w_db]. apply (assigned_refs _ _ u); try done. by rewrite Hsnap. }
  reflexivity.
Qed.

(** The writes of a self-assignment whose read saw an owner: the
    unconditional update. *)
Lemma step_write_owned userId u rid body reason lead snapshot owner l w :
  primary_keys (w_db w) → find_user (w_db w) userId = Some u →
  currentOwnerId snapshot = Some owner → user_exists (w_db w) owner = true →
  find_lead (w_db w) lead = Some l →
  step_request None clock isEmail (mkRequest userId rid body)
    (AtWrite lead userId reason snapshot) w
  = (Done (R_assigned
             (Some (mkLead lead (Some userId) (lead_status l) (lead_isActive l)
                      (lead_cols l)))),
     assigned lead userId reason snapshot l w).
Proof.
  intros Hpk Hu Hsnap Hex Hl.
  pose proof (find_lead_id _ _ _ Hl) as Hid.
  cbn [step_request rq_user]. unfold try_catch, transaction, assignLead_write.
  rewrite Hsnap. rewrite (bool_decide_eq_false_2 (Some owner = None)) by done.
  rewrite andb_false_r.
  rewrite (update_leads_step None lead _ _ _ l
             (mkLead lead (Some userId) (lead_status l) (lead_isActive l) (lead_cols l)));
    [|done|done|done|by rewrite <- Hid|by apply (find_user_exists _ _ u)].
  rewrite insert_history_step; [|done|]; cycle 1.
  { cbn [w_db]. apply (assigned_refs _ _ u); try done. by rewrite Hsnap. }
  reflexivity.
Qed.


End Interleaving.


(** ** PUT /api/leads/:id when the store rejects a statement *)

(** The statements the handler issues on the hand-off path, in order:
    getUser, getLead, updateLead, createLeadHistory, getUsersByRole,
    updateLead, createLeadHistory, createNotification, getLead.  [true]
    marks a write. *)
Definition handoff_statements : list bool :=
  [ false; false; true; true; false; true; true; true; false ].

(** How many statements of a call that starts at tick [t0] complete
    before the store rejects one. *)
Definition statements_done (fault : option nat) (t0 : nat) : nat :=
  match fault with
  | Some f =>
      if bool_decide (t0 ≤ f < t0 + length handoff_statements)%nat
      then (f - t0)%nat else length handoff_statements
  | None => length handoff_statements
  end.

Definition visible_writes (done : nat) : nat :=
  length (filter (λ b, b = true) (take done handoff_statements)).

Lemma statements_done_at t0 j :
  (j < 9)%nat → statements_done (Some (j + t0)%nat) t0 = j.
Proof.
  intros Hj. unfold statements_done. cbn [length handoff_statements].
  rewrite bool_decide_eq_true_2 by lia. lia.
Qed.

Lemma statements_done_all fault t0 :
  (∀ j, (j < 9)%nat → fault ≠ Some (j + t0)%nat) → statements_done fault t0 = 9%nat.
Proof.
  intros H. unfold statements_done. destruct fault as [f|]; [|done].
  cbn [length handoff_statements]. case_bool_decide as Hd; [|done].
  exfalso. apply (H (f - t0)%nat); [lia|]. f_equal. lia.
Qed.


Section Claims.

Variable clock : nat → Z.
Variable parseFloat : string → option string.
Variable isEmail : string → bool.



(** The fields of the reduced schema that the handler does not compare
    with the stored values. *)
Definition unaudited_fields : list string :=
  [ "yearOfPassing"; "collegeName"; "registrationAmount"; "pendingAmount" ].

(** C8 (what the code does).  An update that leaves the status as it is,
    by an actor who may edit the lead, with strings the store can
    convert into their columns.  The handler compares eleven fields
    ([nonStatusFields]) with the stored values.  When a validated field
    among them differs, exactly one entry is written, with
    previousStatus = newStatus and the list of changed fields.  When
    none of them differs, no entry is written, also when the update
    changes yearOfPassing, collegeName, registrationAmount or
    pendingAmount: the submitted value of such a field is stored, and the
    history stays as it was. *)
Theorem field_edit_audit userId u lead currentLead body updates w :
  primary_keys (w_db w) →
  find_user (w_db w) userId = Some u →
  validate_update parseFloat isEmail (user_role u) body = inr updates →
  store_accepts (sanitize updates) = true →
  (∀ s, body !! "status" = Some (JStr s) → s = lead_status currentLead) →
  find_lead (w_db w) lead = Some currentLead →
  (elevated (user_role u) = true ∨ currentOwnerId currentLead = Some userId) →
  opt_user_exists (w_db w) (currentOwnerId currentLead) = true →
  ∃ l' w',
    put_lead None clock parseFloat isEmail userId (Some lead) body w = (R_lead (Some l'), w')
    ∧ find_lead (w_db w') lead = Some l'
    ∧ (∀ f s, f ∈ unaudited_fields → updates !! f = Some (JStr s) → s ≠ "" →
         lead_cols l' !! f = store_text f s)
    ∧ ((∃ f v, f ∈ nonStatusFields ∧ updates !! f = Some v
               ∧ v ≠ col_value currentLead f) →
       changedFields_of updates currentLead ≠ []
       ∧ leadHistory (w_db w') =
           (leadHistory (w_db w) ++
            [ mkLeadHistory (w_hseq w) lead
                (currentOwnerId currentLead) (currentOwnerId currentLead)
                (Some (lead_status currentLead)) (Some (lead_status currentLead))
                (Some (or_else (str_field updates "changeReason")
                         "Lead information updated"))
                (CD_changedFields (changedFields_of updates currentLead) updates)
                userId (clock (3 + w_tick w)) ])%list)
    ∧ ((∀ f v, f ∈ nonStatusFields → updates !! f = Some v →
               v = col_value currentLead f) →
       leadHistory (w_db w') = leadHistory (w_db w)).
Proof.
  intros Hpk Hu Hv Hstore Hbody Hl Hacc Hfk.
  destruct (validate_update_valid _ _ _ _ _ Hv) as [Hvalid Hstatus].
  rewrite <- Hstatus in Hbody.
  destruct (apply_set_validated updates currentLead Hvalid Hstore) as [c Hset].
  set (l1 := mkLead _ _ _ _ c) in Hset.
  pose proof (find_lead_id _ _ _ Hl) as Hid.
  assert (lead_id l1 = lead) as Hid1 by done.
  pose proof (find_user_exists _ _ _ Hu) as Hex.
  assert (∀ f s, f ∈ unaudited_fields → updates !! f = Some (JStr s) → s ≠ "" →
            lead_cols l1 !! f = store_text f s) as Hstored.
  { intros f s Hin Hf Hne.
    rewrite (foldr_set_text_lookup _ _ _ _ f (apply_set_cols _ _ _ Hset)).
    rewrite sanitize_lookup, Hf.
    destruct (decide (f ∈ sanitized_fields ∧ Some (JStr s) = Some (JStr "")))
      as [[_ [= ->]]|_]; [done|].
    destruct (decide (f ∈ text_columns)) as [_|Hout]; [done|].
    destruct Hout. revert Hin. unfold unaudited_fields. intros Hin.
    repeat (apply elem_of_cons in Hin as [->|Hin]; [by_evaluation|]).
    by apply elem_of_nil in Hin. }
  rewrite (put_lead_checked None clock parseFloat isEmail userId u lead currentLead body updates)
    by done.
  unfold put_lead_apply, run_route.
  rewrite (updateLead_step None lead updates _ _ currentLead l1); try done.
  rewrite (changed_status_None updates currentLead Hbody). cbv zeta.
  destruct (changedFields_of updates currentLead) as [|cf cfs] eqn:Hcf;
    exists l1; eexists.
  - rewrite !ret_step. unfold getLead. rewrite query_step by done. cbv beta.
    cbn [w_db tick]. rewrite (updated_db_find _ _ currentLead l1 Hl Hid1).
    unfold ret. split; [reflexivity|].
    split; [by apply (updated_db_find _ _ currentLead)|].
    split; [exact Hstored|]. split; [|done].
    intros (f & v & Hin & Hf & Hne). exfalso. apply Hne.
    by apply (proj1 (changedFields_of_nil updates currentLead) Hcf f v).
  - unfold createLeadHistory. rewrite !bind_assoc.
    rewrite insert_history_step; [|done|]; cycle 1.
    { cbn [w_db tick]. rewrite history_refs_updated. cbn [fields_entry i_leadId i_fromUserId
        i_toUserId i_changedByUserId]. rewrite Hfk, Hex.
      rewrite (find_lead_exists _ _ l1); [done|].
      by apply (updated_db_find _ _ currentLead). }
    cbv zeta. rewrite !ret_step. unfold getLead. rewrite query_step by done. cbv beta.
    cbn [w_db tick]. rewrite find_lead_with_history.
    rewrite (updated_db_find _ _ currentLead l1 Hl Hid1).
    unfold ret. split; [reflexivity|].
    split; [by apply (updated_db_find _ _ currentLead)|].
    split; [exact Hstored|]. split.
    + intros _. split; [done|]. reflexivity.
    + intros H. apply changedFields_of_nil in H. congruence.
Qed.

(** C5 (as the code has it).  For an actor who is neither manager nor
    admin, the fields outside the reduced schema are dropped by the
    validation without an error: the handler answers, and leaves the
    store, exactly as it does for the body without those fields. *)
Theorem restricted_fields_stripped fault userId id body w :
  elevated (role_or_hr (find_user (w_db w) userId)) = false →
  put_lead fault clock parseFloat isEmail userId id body w
  = put_lead fault clock parseFloat isEmail userId id (strip_restricted body) w.
Proof.
  intros He. unfold put_lead, run_route, getUser.
  destruct (rejected fault w) eqn:Hr.
  - by rewrite !query_fail.
  - rewrite !query_step by done. cbv beta zeta.
    assert (validate_update parseFloat isEmail (role_or_hr (find_user (w_db w) userId))
              (strip_restricted body)
            = validate_update parseFloat isEmail (role_or_hr (find_user (w_db w) userId)) body)
      as ->; [|done].
    unfold validate_update, updateLeadSchema. rewrite He.
    unfold strip_restricted. by rewrite safeParse_filter.
Qed.

(** C9.  When an hr user deletes a lead they own, the lead is released:
    its owner becomes NULL and its status "new", and the history gains
    exactly one entry (action "unassigned", to NULL, new status "new").
    The insert of the entry and the update of the lead are one
    transaction: whichever statement the store rejects, the tables are
    either as before the call or as after the complete release. *)
Theorem release_by_owner userId u lead currentLead w :
  primary_keys (w_db w) →
  find_user (w_db w) userId = Some u →
  user_role u = hr →
  find_lead (w_db w) lead = Some currentLead →
  currentOwnerId currentLead = Some userId →
  let released :=
    mkLead lead None "new" (lead_isActive currentLead) (lead_cols currentLead) in
  let entry :=
    mkLeadHistory (w_hseq w) lead (Some userId) None
      (Some (lead_status currentLead)) (Some "new")
      (Some "Lead released by HR - returned to Lead Management")
      (CD_unassigned (Some userId) userId (clock (2 + w_tick w)))
      userId (clock (2 + w_tick w)) in
  let db' :=
    updated_db (with_history (w_db w) (leadHistory (w_db w) ++ [entry])) lead released in
  delete_lead None clock userId (Some lead) w
  = (R_success "Lead returned to Lead Management for reassignment",
     mkWorld db' (w_hseq w + 1) (4 + w_tick w))
  ∧ find_lead db' lead = Some released
  ∧ leadHistory db' = (leadHistory (w_db w) ++ [entry])%list
  ∧ ∀ fault,
      w_db (delete_lead fault clock userId (Some lead) w).2 = w_db w
      ∨ w_db (delete_lead fault clock userId (Some lead) w).2 = db'.
Proof using clock.
  intros Hpk Hu Hrole Hl Hown released entry db'.
  pose proof (find_lead_id _ _ _ Hl) as Hid.
  pose proof (find_user_exists _ _ _ Hu) as Hex.
  assert (find_lead db' lead = Some released) as Hfind.
  { apply (updated_db_find _ _ currentLead); done. }
  assert (∀ fault,
    fault ≠ Some (w_tick w) → fault ≠ Some (1 + w_tick w)%nat →
    delete_lead fault clock userId (Some lead) w
    = run_route "Failed to delete lead"
        (now <- new_Date clock ;;
         unassignLeadWithHistory fault clock lead
           (release_entry lead currentLead userId now) ;;;
         ret (R_success "Lead returned to Lead Management for reassignment"))
        (tick (tick w))) as Hdispatch.
  { intros fault N0 N1. unfold delete_lead, run_route, getUser, getLead.
    rewrite query_step by by apply rejected_iff.
    rewrite Hu. cbn [role_or_hr]. rewrite Hrole.
    rewrite query_step by by apply rejected_iff.
    cbn [tick w_db]. rewrite Hl, Hown.
    rewrite (bool_decide_eq_false_2 (Some userId ≠ Some userId)) by (intros Hne; by apply Hne).
    rewrite (bool_decide_eq_true_2 (Some userId = Some userId)) by done.
    rewrite (bool_decide_eq_false_2 (hr = accounts)) by done.
    rewrite !(bool_decide_eq_true_2 (hr = hr)) by done.
    reflexivity. }
  assert (history_refs_ok (w_db w)
            (release_entry lead currentLead userId (clock (2 + w_tick w))) = true) as Hrefs.
  { unfold history_refs_ok.
    cbn [release_entry i_leadId i_fromUserId i_toUserId i_changedByUserId opt_user_exists].
    rewrite (find_lead_exists _ _ _ Hl), Hown. cbn [opt_user_exists]. by rewrite Hex. }
  assert (∀ fault,
    fault ≠ Some (w_tick w) → fault ≠ Some (1 + w_tick w)%nat →
    fault ≠ Some (2 + w_tick w)%nat → fault ≠ Some (3 + w_tick w)%nat →
    delete_lead fault clock userId (Some lead) w
    = (R_success "Lead returned to Lead Management for reassignment",
       mkWorld db' (w_hseq w + 1) (4 + w_tick w))) as Hrun.
  { intros fault N0 N1 N2 N3. rewrite Hdispatch by done. unfold run_route.
    rewrite new_Date_step. unfold unassignLeadWithHistory.
    rewrite transaction_step.
    rewrite insert_history_step; [|by apply rejected_iff|done].
    cbv zeta.
    rewrite (update_leads_step fault lead _ _ _ currentLead released);
      [|by apply rejected_iff| |exact Hl
       |by rewrite apply_set_release, Hid|done]; cycle 1.
    { split; [apply Hpk|]. cbn [w_db with_history leads]. apply Hpk. }
    unfold ret. cbn [tick w_db w_hseq w_tick]. unfold db', entry, history_row.
    cbn [release_entry i_leadId i_fromUserId i_toUserId i_previousStatus i_newStatus
         i_changeReason i_changeData i_changedByUserId]. by rewrite Hown. }
  split; [apply Hrun; done|]. split; [done|]. split; [done|].
  intros fault.
  destruct (decide (fault = Some (w_tick w))) as [E0|N0].
  { left. unfold delete_lead, run_route, getUser.
    by rewrite query_fail by by apply rejected_at. }
  destruct (decide (fault = Some (1 + w_tick w)%nat)) as [E1|N1].
  { left. unfold delete_lead, run_route, getUser, getLead.
    rewrite query_step by by apply rejected_iff.
    rewrite Hu. cbn [role_or_hr].
    by rewrite query_fail by by apply rejected_at. }
  destruct (decide (fault = Some (2 + w_tick w)%nat)) as [E2|N2].
  { left. rewrite Hdispatch by done. unfold run_route.
    rewrite new_Date_step. unfold unassignLeadWithHistory. rewrite transaction_step.
    by rewrite insert_history_fail by by apply rejected_at. }
  destruct (decide (fault = Some (3 + w_tick w)%nat)) as [E3|N3].
  { left. rewrite Hdispatch by done. unfold run_route.
    rewrite new_Date_step. unfold unassignLeadWithHistory. rewrite transaction_step.
    rewrite insert_history_step; [|by apply rejected_iff|done].
    cbv zeta. unfold update_leads.
    by rewrite execute_fail by by apply rejected_at. }
  right. by rewrite Hrun.
Qed.

(** C6 (what the code does).  When a manager or admin deletes a lead,
    the terminal entry is inserted first, and the DELETE of the lead's
    history that follows removes it together with the prior entries:
    after the call the lead is gone and no history entry of the lead is
    left, the terminal entry included. *)
Theorem destroy_erases_history userId u lead currentLead w :
  find_user (w_db w) userId = Some u →
  elevated (user_role u) = true →
  find_lead (w_db w) lead = Some currentLead →
  opt_user_exists (w_db w) (currentOwnerId currentLead) = true →
  existsb (λ n, bool_decide (n_relatedLeadId n = Some lead)) (notifications (w_db w)) = false →
  ∃ w',
    delete_lead None clock userId (Some lead) w = (R_success "Lead deleted successfully", w')
    ∧ find_lead (w_db w') lead = None
    ∧ history_of (w_db w') lead = []
    ∧ leadHistory (w_db w') = filter (λ h, leadId h ≠ lead) (leadHistory (w_db w)).
Proof.
  intros Hu He Hl Hfk Hnotif.
  pose proof (find_lead_id _ _ _ Hl) as Hid.
  pose proof (find_user_exists _ _ _ Hu) as Hex.
  assert (delete_lead None clock userId (Some lead) w
    = run_route "Failed to delete lead"
        (now <- new_Date clock ;;
         deleteLeadWithHistory None clock lead
           (deletion_entry lead currentLead userId now) ;;;
         ret (R_success "Lead deleted successfully"))
        (tick (tick w))) as ->.
  { unfold delete_lead, run_route, getUser, getLead.
    rewrite query_step by done. rewrite Hu. cbn [role_or_hr].
    rewrite query_step by done. cbn [tick w_db]. rewrite Hl.
    destruct (user_role u); try discriminate He; reflexivity. }
  unfold run_route. rewrite new_Date_step. unfold deleteLeadWithHistory.
  rewrite transaction_step.
  rewrite insert_history_step; [|done|]; cycle 1.
  { unfold history_refs_ok.
    cbn [deletion_entry i_leadId i_fromUserId i_toUserId i_changedByUserId opt_user_exists
         tick w_db].
    by rewrite (find_lead_exists _ _ _ Hl), Hfk, Hex. }
  cbv zeta.
  erewrite execute_step; [|done|reflexivity].
  erewrite execute_run; [|done|]; cycle 1.
  { cbn [w_db tick]. unfold delete_lead_table, delete_history_table, lead_referenced.
    cbn [leadHistory notifications with_history].
    rewrite filter_other_lead_no_ref, Hnotif. rewrite andb_false_r. reflexivity. }
  eexists. split; [reflexivity|]. cbn [w_db].
  split; [apply find_deleted_lead|].
  unfold history_of. cbn [leadHistory with_leads with_history delete_history_table w_db tick].
  rewrite filter_app, filter_cons.
  cbn [history_row leadId deletion_entry i_leadId].
  destruct (decide (lead ≠ lead)) as [Hne|_]; [done|].
  rewrite filter_nil, app_nil_r.
  split; [apply filter_other_lead_none|done].
Qed.

(** C7 (as the code has it).  [getLeadHistory] returns all the entries
    of the lead, and no others, ordered by their [changedAt] timestamp
    alone, newest first: of two returned entries the one that comes
    first is not older by timestamp.  No sequence counter takes part in
    the order. *)
Theorem history_ordered_by_timestamp lead w :
  ∃ result,
    getLeadHistory None lead w = (Ret result, tick w)
    ∧ Permutation result (history_of (w_db w) lead)
    ∧ (∀ h, h ∈ result ↔ h ∈ leadHistory (w_db w) ∧ leadId h = lead)
    ∧ ∀ i j a b, result !! i = Some a → result !! j = Some b → (i < j)%nat →
        (changedAt b ≤ changedAt a)%Z.
Proof.
  exists (order_by_changedAt_desc (history_of (w_db w) lead)).
  split; [done|].
  split; [apply order_by_changedAt_desc_perm|].
  split.
  - intros h. rewrite (order_by_changedAt_desc_perm (history_of (w_db w) lead)).
    unfold history_of. rewrite list_elem_of_filter. tauto.
  - intros i j a b Hi Hj Hlt.
    exact (sorted_lookup _ i j a b (order_by_changedAt_desc_sorted _) Hi Hj Hlt).
Qed.

(** Inside [assignLead], a self-assignment whose read finds the lead
    already owned is not treated as a claim: the call does not fail, it
    overwrites the owner and writes an assignment entry.  This is the
    branch a manager's or admin's reassignment takes. *)
Lemma self_assign_overwrites_owner userId u owner reason lead currentLead w :
  primary_keys (w_db w) →
  find_user (w_db w) userId = Some u →
  find_lead (w_db w) lead = Some currentLead →
  currentOwnerId currentLead = Some owner →
  user_exists (w_db w) owner = true →
  ∃ w',
    assignLead None clock lead userId userId reason w
    = (Ret (Some (mkLead lead (Some userId) (lead_status currentLead)
                    (lead_isActive currentLead) (lead_cols currentLead))), w')
    ∧ (currentOwnerId <$> find_lead (w_db w') lead) = Some (Some userId)
    ∧ leadHistory (w_db w') =
        (leadHistory (w_db w) ++
         [ mkLeadHistory (w_hseq w) lead (Some owner) (Some userId)
             (Some (lead_status currentLead)) (Some (lead_status currentLead))
             (Some (or_else reason "Lead assigned"))
             (CD_assignment (Some owner) userId) userId (clock (2 + w_tick w)) ])%list.
Proof.
  intros Hpk Hu Hl Hown Hex.
  pose proof (find_lead_id _ _ _ Hl) as Hid.
  pose proof (find_user_exists _ _ _ Hu) as Hexu.
  set (l' := mkLead lead (Some userId) (lead_status currentLead)
               (lead_isActive currentLead) (lead_cols currentLead)).
  assert (apply_set {[ "currentOwnerId" := JStr userId ]} currentLead = Some l') as Hset.
  { unfold l'. rewrite <- Hid. reflexivity. }
  eexists. unfold assignLead, transaction, assignLead_select, getLead.
  rewrite bind_assoc, query_step by done. cbv beta. rewrite Hl, ret_step.
  unfold assignLead_write. rewrite Hown.
  rewrite (bool_decide_eq_false_2 (Some owner = None)) by done. rewrite andb_false_r.
  rewrite (update_leads_step None lead _ _ _ currentLead l'); try done.
  rewrite insert_history_step; [|done|]; cycle 1.
  { cbn [w_db tick]. rewrite history_refs_updated.
    cbn [assignment_entry i_leadId i_fromUserId i_toUserId i_changedByUserId opt_user_exists].
    rewrite Hown. cbn [opt_user_exists]. rewrite Hex, Hexu.
    rewrite (find_lead_exists _ _ l'); [done|]. by apply (updated_db_find _ _ currentLead). }
  cbv zeta. unfold ret. cbn [head].
  split; [reflexivity|]. cbn [w_db tick]. rewrite find_lead_with_history.
  rewrite (updated_db_find _ _ currentLead l' Hl eq_refl).
  split; [done|].
  cbn [leadHistory with_history updated_db with_leads tick w_db w_hseq w_tick].
  unfold history_row, assignment_entry.
  cbn [i_leadId i_fromUserId i_toUserId i_previousStatus i_newStatus i_changeReason
       i_changeData i_changedByUserId]. by rewrite Hown.
Qed.

(** C2 (what the code does).  A claim by an hr user on a lead whose
    owner is set.  The handler looks at the owner in three places.  Its
    own read before the transaction answers 409 and leaves the tables as
    they are; so does the conditional write of the transaction, when the
    read of the transaction saw no owner.  But when the request is past
    the handler's check and the read of its transaction finds the owner
    (set by another claim in between), the call does not fail: it takes
    the branch of a reassignment, answers with success, overwrites the
    owner and writes an assignment entry from the owner to the user. *)
Theorem claim_on_owned_lead_overwrites userId u body data owner lead existingLead w :
  primary_keys (w_db w) →
  find_user (w_db w) userId = Some u → user_role u = hr →
  safeParse isEmail assignLeadSchema body = Some data →
  or_else (str_field data "toUserId") userId = userId →
  lead ≠ 0 →
  find_lead (w_db w) lead = Some existingLead →
  currentOwnerId existingLead = Some owner → owner ≠ "" →
  user_exists (w_db w) owner = true →
  let rq := mkRequest userId (Some lead) body in
  let reason := str_field data "reason" in
  let l' := mkLead lead (Some userId) (lead_status existingLead)
              (lead_isActive existingLead) (lead_cols existingLead) in
  (∃ w',
     assign_lead None clock isEmail userId (Some lead) body w
     = (R_error 409 "Lead is already assigned", w')
     ∧ w_db w' = w_db w)
  ∧ (∀ snapshot,
       currentOwnerId snapshot = None →
       ∃ w',
         step_request None clock isEmail rq (AtWrite lead userId reason snapshot) w
         = (Done (R_error 409 "Lead is already assigned to another user"), w')
         ∧ w_db w' = w_db w)
  ∧ (∃ w1 w',
       step_request None clock isEmail rq (AtSelect lead userId reason) w
       = (AtWrite lead userId reason existingLead, w1)
       ∧ step_request None clock isEmail rq (AtWrite lead userId reason existingLead) w1
         = (Done (R_assigned (Some l')), w')
       ∧ find_lead (w_db w') lead = Some l'
       ∧ leadHistory (w_db w') =
           (leadHistory (w_db w) ++
            [ mkLeadHistory (w_hseq w) lead (Some owner) (Some userId)
                (Some (lead_status existingLead)) (Some (lead_status existingLead))
                (Some (or_else reason "Lead assigned"))
                (CD_assignment (Some owner) userId) userId (clock (2 + w_tick w)) ])%list).
Proof using clock isEmail.
  intros Hpk Hu Hrole Hp Ht Hz Hl Hown Hne Hex rq reason l'. subst rq reason.
  split; [|split].
  - eexists.
    unfold assign_lead, run_route, assign_precheck, getUser, getLead.
    rewrite !bind_assoc, query_step by done. cbv beta. rewrite Hu.
    rewrite (bool_decide_eq_false_2 (lead = 0)) by done. rewrite Hp. cbv zeta.
    rewrite !bind_assoc, query_step by done. cbv beta. rewrite Ht.
    cbn [tick w_db]. rewrite Hu, Hrole.
    rewrite (bool_decide_eq_false_2 (userId ≠ userId)) by (intros H; by apply H).
    rewrite !bind_assoc, query_step by done. cbv beta.
    cbn [tick w_db]. rewrite Hl, Hown. cbn [truthy].
    rewrite (bool_decide_eq_false_2 (owner = "")) by done.
    split; reflexivity.
  - intros snapshot Hsnap. eexists.
    cbn [step_request rq_user]. unfold try_catch, transaction, assignLead_write.
    rewrite Hsnap. rewrite !bool_decide_eq_true_2 by done. cbn [andb].
    unfold update_leads.
    rewrite (execute_step None _ _ w [] (with_leads (w_db w) (leads (w_db w))));
      [|done|]; cycle 1.
    { unfold update_table. rewrite update_rows_none; [done|].
      apply Forall_forall. intros r Hr.
      destruct (has_id lead r) eqn:E; [|done].
      destruct Hpk as [_ Hnd].
      rewrite (find_lead_unique _ _ _ _ Hnd Hl Hr E), Hown. done. }
    split; reflexivity.
  - eexists _, _.
    split; [by apply step_select|].
    split; [by apply (step_write_owned clock isEmail userId u (Some lead) body _ lead
                        existingLead owner existingLead)|].
    cbn [w_db assigned tick]. rewrite find_lead_with_history.
    split; [by apply (updated_db_find _ _ existingLead)|].
    unfold history_row, assignment_entry.
    cbn [leadHistory with_history updated_db with_leads w_hseq w_tick
         i_leadId i_fromUserId i_toUserId i_previousStatus i_newStatus i_changeReason
         i_changeData i_changedByUserId]. by rewrite Hown.
Qed.

(** The hand-off path, statement by statement, for a body whose strings
    the store can convert. *)
Lemma handoff_writes_when_accepted userId u a rest lead currentLead body updates w :
  primary_keys (w_db w) →
  find_user (w_db w) userId = Some u →
  user_role u = hr →
  validate_update parseFloat isEmail hr body = inr updates →
  store_accepts (sanitize updates) = true →
  body !! "status" = Some (JStr "completed") →
  find_lead (w_db w) lead = Some currentLead →
  currentOwnerId currentLead = Some userId →
  lead_status currentLead ≠ "completed" →
  active_with_role accounts (w_db w) = a :: rest →
  ∃ c,
    let l1 := mkLead lead (Some userId) "completed" (lead_isActive currentLead) c in
    let l2 := mkLead lead (Some (user_id a)) "pending" (Some true) c in
    let e1 := mkLeadHistory (w_hseq w) lead (Some userId) (Some userId)
                (Some (lead_status currentLead)) (Some "completed")
                (Some (or_else (str_field updates "changeReason") "Status updated"))
                (CD_updates updates) userId (clock (3 + w_tick w)) in
    let e2 := mkLeadHistory (w_hseq w + 1) lead (Some userId) (Some (user_id a))
                (Some "completed") (Some "pending")
                (Some "Lead completed by HR and forwarded to Accounts team")
                (CD_handoff "HR_to_Accounts" (Some userId) (user_id a))
                userId (clock (6 + w_tick w)) in
    let n := mkNotification (user_id a) "New Lead Assigned"
               ("Lead " ++ name_text l1 ++ " has been forwarded from HR")
               "lead_assignment" (Some lead) in
    let db0 := w_db w in
    let db1 := updated_db db0 lead l1 in
    let db2 := with_history db1 (leadHistory db0 ++ [e1]) in
    let db3 := updated_db db2 lead l2 in
    let db4 := with_history db3 (leadHistory db0 ++ [e1; e2]) in
    let db5 := with_notifications db4 (notifications db0 ++ [n]) in
    ∀ fault,
      let done := statements_done fault (w_tick w) in
      ∃ q t,
        put_lead fault clock parseFloat isEmail userId (Some lead) body w
        = (if bool_decide (done = 9%nat) then R_lead (Some l2)
           else R_error 500 "Failed to update lead",
           mkWorld (nth (visible_writes done) [db0; db1; db2; db3; db4; db5] db0) q t).
Proof.
  intros Hpk Hu Hrole Hv Hstore Hbody Hl Hown Hst Ha.
  destruct (validate_update_valid _ _ _ _ _ Hv) as [Hvalid Hstatus].
  rewrite Hbody in Hstatus.
  destruct (apply_set_validated updates currentLead Hvalid Hstore) as [c Hset].
  unfold str_field in Hset. rewrite Hstatus in Hset.
  cbv [default from_option id] in Hset.
  pose proof (find_lead_id _ _ _ Hl) as Hid.
  rewrite Hid, Hown in Hset.
  pose proof (find_user_exists _ _ _ Hu) as Hex.
  destruct (active_with_role_elem _ _ _ _ Ha) as [Hin Hacc].
  pose proof (elem_user_exists _ _ Hin) as Hexa.
  exists c. intros l1 l2 e1 e2 n db0 db1 db2 db3 db4 db5 fault done. subst done db0.
  assert (find_lead db1 lead = Some l1) as Hl1
    by by apply (updated_db_find _ _ currentLead).
  assert (primary_keys db1) as Hpk1 by by apply updated_db_keys.
  (* statement 0: getUser *)
  destruct (decide (fault = Some (0 + w_tick w)%nat)) as [->|N0].
  { rewrite (statements_done_at _ 0) by lia. eexists _, _.
    unfold put_lead, run_route, getUser.
    rewrite query_fail by by apply rejected_at. reflexivity. }
  (* statement 1: getLead *)
  destruct (decide (fault = Some (1 + w_tick w)%nat)) as [->|N1].
  { rewrite (statements_done_at _ 1) by lia. eexists _, _.
    unfold put_lead, run_route, getUser, getLead.
    rewrite query_step by by apply rejected_iff.
    rewrite Hu. cbn [role_or_hr]. rewrite Hrole, Hv.
    rewrite query_fail by by apply rejected_at. reflexivity. }
  rewrite (put_lead_checked fault clock parseFloat isEmail userId u lead currentLead body updates);
    [|by apply rejected_iff|by apply rejected_iff|done|by rewrite Hrole|done|by right].
  unfold put_lead_apply, run_route.
  (* statement 2: updateLead *)
  destruct (decide (fault = Some (2 + w_tick w)%nat)) as [->|N2].
  { rewrite (statements_done_at _ 2) by lia. eexists _, _.
    rewrite updateLead_fail by by apply rejected_at. reflexivity. }
  rewrite (updateLead_step fault lead updates _ _ currentLead l1);
    [|by apply rejected_iff|done|done|done|done].
  rewrite (changed_status_Some updates currentLead "completed"); [|done|by_evaluation|done].
  unfold createLeadHistory. rewrite !bind_assoc.
  (* statement 3: createLeadHistory *)
  destruct (decide (fault = Some (3 + w_tick w)%nat)) as [->|N3].
  { rewrite (statements_done_at _ 3) by lia. eexists _, _.
    rewrite insert_history_fail by by apply rejected_at. reflexivity. }
  rewrite insert_history_step; [|by apply rejected_iff|]; cycle 1.
  { cbn [w_db tick]. rewrite history_refs_updated. cbn [status_entry i_leadId i_fromUserId
      i_toUserId i_changedByUserId]. rewrite Hown. cbn [opt_user_exists].
    fold db1. by rewrite (find_lead_exists _ _ l1), Hex. }
  cbv zeta. rewrite bool_decide_eq_true_2 by done. rewrite Hrole.
  (* statement 4: getUsersByRole *)
  destruct (decide (fault = Some (4 + w_tick w)%nat)) as [->|N4].
  { rewrite (statements_done_at _ 4) by lia. eexists _, _.
    unfold handoff, getUsersByRole.
    rewrite !bind_assoc, query_fail by by apply rejected_at.
    cbn [tick w_db w_hseq w_tick]. unfold history_row, status_entry.
    cbn [i_leadId i_fromUserId i_toUserId i_previousStatus i_newStatus i_changeReason
         i_changeData i_changedByUserId]. rewrite Hown. reflexivity. }
  (* statement 5: updateLead of the hand-off *)
  destruct (decide (fault = Some (5 + w_tick w)%nat)) as [->|N5].
  { rewrite (statements_done_at _ 5) by lia. eexists _, _.
    unfold handoff, getUsersByRole.
    rewrite !bind_assoc, query_step by by apply rejected_iff.
    cbv beta. cbn [w_db tick].
    change (filter _ (users _)) with (active_with_role accounts (w_db w)). rewrite Ha.
    rewrite !bind_assoc, updateLead_fail by by apply rejected_at.
    cbn [tick w_db w_hseq w_tick]. unfold history_row, status_entry.
    cbn [i_leadId i_fromUserId i_toUserId i_previousStatus i_newStatus i_changeReason
         i_changeData i_changedByUserId]. rewrite Hown. reflexivity. }
  (* statement 6: createLeadHistory of the hand-off *)
  destruct (decide (fault = Some (6 + w_tick w)%nat)) as [->|N6].
  { rewrite (statements_done_at _ 6) by lia. eexists _, _.
    unfold handoff, getUsersByRole.
    rewrite !bind_assoc, query_step by by apply rejected_iff.
    cbv beta. cbn [w_db tick].
    change (filter _ (users _)) with (active_with_role accounts (w_db w)). rewrite Ha.
    rewrite !bind_assoc.
    rewrite (updateLead_step (Some (6 + w_tick w)%nat) lead _ _ _ l1 l2);
      [|by apply rejected_iff|done|done|by rewrite apply_set_handoff|done].
    unfold createLeadHistory.
    rewrite !bind_assoc, insert_history_fail by by apply rejected_at.
    cbn [tick w_db w_hseq w_tick]. unfold history_row, status_entry.
    cbn [i_leadId i_fromUserId i_toUserId i_previousStatus i_newStatus i_changeReason
         i_changeData i_changedByUserId]. rewrite Hown. reflexivity. }
  (* statement 7: createNotification *)
  destruct (decide (fault = Some (7 + w_tick w)%nat)) as [->|N7].
  { rewrite (statements_done_at _ 7) by lia. eexists _, _.
    unfold handoff, getUsersByRole.
    rewrite !bind_assoc, query_step by by apply rejected_iff.
    cbv beta. cbn [w_db tick].
    change (filter _ (users _)) with (active_with_role accounts (w_db w)). rewrite Ha.
    rewrite !bind_assoc.
    rewrite (updateLead_step (Some (7 + w_tick w)%nat) lead _ _ _ l1 l2);
      [|by apply rejected_iff|done|done|by rewrite apply_set_handoff|done].
    unfold createLeadHistory. rewrite !bind_assoc.
    rewrite insert_history_step; [|by apply rejected_iff|]; cycle 1.
    { cbn [w_db tick]. rewrite history_refs_updated.
      cbn [handoff_entry i_leadId i_fromUserId i_toUserId i_changedByUserId].
      rewrite Hown. cbn [opt_user_exists].
      rewrite !user_exists_with_history, !user_exists_updated_db.
      rewrite Hex, Hexa.
      rewrite (find_lead_exists _ _ l2); [done|]. by apply (updated_db_find _ _ l1). }
    cbv zeta. unfold createNotification.
    rewrite execute_fail by by apply rejected_at.
    cbn [tick w_db w_hseq w_tick]. unfold history_row, status_entry, handoff_entry.
    cbn [i_leadId i_fromUserId i_toUserId i_previousStatus i_newStatus i_changeReason
         i_changeData i_changedByUserId]. rewrite Hown.
    unfold visible_writes. cbn [take handoff_statements].
    cbn. rewrite <- app_assoc. reflexivity. }
  rewrite (handoff_some fault clock lead currentLead l1 userId accounts _ _ _ _ _ _ _ a rest);
    [|by apply rejected_iff..|done|done|done|by rewrite Hown|done].
  unfold getLead.
  (* statement 8: the final getLead *)
  destruct (decide (fault = Some (8 + w_tick w)%nat)) as [->|N8].
  { rewrite (statements_done_at _ 8) by lia. eexists _, _.
    rewrite query_fail by by apply rejected_at.
    unfold handed_off, tick. cbn [w_db w_hseq w_tick].
    unfold history_row, status_entry, handoff_entry.
    cbn [i_leadId i_fromUserId i_toUserId i_previousStatus i_newStatus i_changeReason
         i_changeData i_changedByUserId]. rewrite Hown.
    cbn [with_history with_notifications updated_db with_leads leadHistory leads users
         notifications].
    rewrite <- app_assoc. reflexivity. }
  rewrite statements_done_all; cycle 1.
  { intros j Hj.
    destruct j as [|[|[|[|[|[|[|[|[|j]]]]]]]]]; try done. lia. }
  eexists _, _.
  rewrite query_step by by apply rejected_iff.
  cbv beta.
  rewrite (handed_off_find clock lead currentLead l1 a userId) by done.
  unfold ret.
  unfold handed_off, tick. cbn [w_db w_hseq w_tick].
  unfold history_row, status_entry, handoff_entry.
  cbn [i_leadId i_fromUserId i_toUserId i_previousStatus i_newStatus i_changeReason
       i_changeData i_changedByUserId]. rewrite Hown.
  cbn [with_history with_notifications updated_db with_leads leadHistory leads users
       notifications].
  rewrite <- app_assoc. reflexivity.
Qed.

(** An UPDATE that selects a row which cannot take the new values is
    refused. *)
Lemma update_rows_refused cond set rows l :
  l ∈ rows → cond l = true → apply_set set l = None →
  update_rows cond set rows = None.
Proof.
  intros Hin Hc Hs. induction rows as [|r rows IH]; [by apply elem_of_nil in Hin|].
  simpl. apply elem_of_cons in Hin as [<-|Hin].
  - rewrite Hc, Hs. by destruct (update_rows cond set rows) as [[??]|].
  - by rewrite (IH Hin).
Qed.

Lemma updateLead_refused {B} fault id updates (k : option Lead → M B) w l :
  find_lead (w_db w) id = Some l → store_accepts (sanitize updates) = false →
  bind (updateLead fault id updates) k w = (Throw StoreFailure, tick w).
Proof.
  intros Hl Hstore. unfold updateLead, update_leads. rewrite bind_assoc.
  unfold bind, execute. destruct (rejected fault w); [done|].
  unfold update_table.
  rewrite (update_rows_refused _ _ _ l); [done|by eapply find_lead_elem| |
                                          by apply store_refuses_row].
  unfold has_id. apply bool_decide_eq_true. by eapply find_lead_id.
Qed.

(** C4 (what the code does).  On the hand-off path of an update the
    writes are separate statements, each committed on its own, in the
    order: lead update, status-change entry, hand-off lead update,
    hand-off entry, notification.  When the store rejects a statement
    the call answers 500 and the writes of the statements before it
    stay in the tables; when no statement is rejected all of them are
    there.  (A body with a string that the store cannot convert into its
    column makes the first of the writes, statement 2, fail.) *)
Theorem handoff_writes_commit_separately userId u a rest lead currentLead body updates w :
  primary_keys (w_db w) →
  find_user (w_db w) userId = Some u →
  user_role u = hr →
  validate_update parseFloat isEmail hr body = inr updates →
  body !! "status" = Some (JStr "completed") →
  find_lead (w_db w) lead = Some currentLead →
  currentOwnerId currentLead = Some userId →
  lead_status currentLead ≠ "completed" →
  active_with_role accounts (w_db w) = a :: rest →
  ∃ c,
    let l1 := mkLead lead (Some userId) "completed" (lead_isActive currentLead) c in
    let l2 := mkLead lead (Some (user_id a)) "pending" (Some true) c in
    let e1 := mkLeadHistory (w_hseq w) lead (Some userId) (Some userId)
                (Some (lead_status currentLead)) (Some "completed")
                (Some (or_else (str_field updates "changeReason") "Status updated"))
                (CD_updates updates) userId (clock (3 + w_tick w)) in
    let e2 := mkLeadHistory (w_hseq w + 1) lead (Some userId) (Some (user_id a))
                (Some "completed") (Some "pending")
                (Some "Lead completed by HR and forwarded to Accounts team")
                (CD_handoff "HR_to_Accounts" (Some userId) (user_id a))
                userId (clock (6 + w_tick w)) in
    let n := mkNotification (user_id a) "New Lead Assigned"
               ("Lead " ++ name_text l1 ++ " has been forwarded from HR")
               "lead_assignment" (Some lead) in
    let db0 := w_db w in
    let db1 := updated_db db0 lead l1 in
    let db2 := with_history db1 (leadHistory db0 ++ [e1]) in
    let db3 := updated_db db2 lead l2 in
    let db4 := with_history db3 (leadHistory db0 ++ [e1; e2]) in
    let db5 := with_notifications db4 (notifications db0 ++ [n]) in
    ∀ fault,
      let done := if store_accepts (sanitize updates)
                  then statements_done fault (w_tick w)
                  else Nat.min 2 (statements_done fault (w_tick w)) in
      ∃ q t,
        put_lead fault clock parseFloat isEmail userId (Some lead) body w
        = (if bool_decide (done = 9%nat) then R_lead (Some l2)
           else R_error 500 "Failed to update lead",
           mkWorld (nth (visible_writes done) [db0; db1; db2; db3; db4; db5] db0) q t).
Proof.
  intros Hpk Hu Hrole Hv Hbody Hl Hown Hst Ha.
  destruct (store_accepts (sanitize updates)) eqn:Hstore.
  { exact (handoff_writes_when_accepted userId u a rest lead currentLead body updates w
             Hpk Hu Hrole Hv Hstore Hbody Hl Hown Hst Ha). }
  exists ∅. intros l1 l2 e1 e2 n db0 db1 db2 db3 db4 db5 fault done. subst done db0.
  (* statement 0: getUser *)
  destruct (decide (fault = Some (0 + w_tick w)%nat)) as [->|N0].
  { rewrite (statements_done_at _ 0) by lia. eexists _, _.
    unfold put_lead, run_route, getUser.
    rewrite query_fail by by apply rejected_at. reflexivity. }
  (* statement 1: getLead *)
  destruct (decide (fault = Some (1 + w_tick w)%nat)) as [->|N1].
  { rewrite (statements_done_at _ 1) by lia. eexists _, _.
    unfold put_lead, run_route, getUser, getLead.
    rewrite query_step by by apply rejected_iff.
    rewrite Hu. cbn [role_or_hr]. rewrite Hrole, Hv.
    rewrite query_fail by by apply rejected_at. reflexivity. }
  (* statement 2: updateLead, which the store refuses *)
  assert (Nat.min 2 (statements_done fault (w_tick w)) = 2%nat) as ->.
  { unfold statements_done. destruct fault as [f|]; [|done].
    cbn [length handoff_statements]. case_bool_decide as Hd; [|done].
    assert (f ≠ w_tick w) by (intros ->; by apply N0).
    assert (f ≠ S (w_tick w)) by (intros ->; by apply N1). lia. }
  rewrite (put_lead_checked fault clock parseFloat isEmail userId u lead currentLead body updates);
    [|by apply rejected_iff|by apply rejected_iff|done|by rewrite Hrole|done|by right].
  unfold put_lead_apply, run_route.
  rewrite (updateLead_refused fault lead updates _ _ currentLead) by done.
  eexists _, _. reflexivity.
Qed.


(** C1 (what the code does).  Two hr users claim the same unowned lead.
    Both pass the handler's check before either transaction begins; the
    transactions then run one after the other.  The second transaction
    reads the lead as owned, takes the unconditional branch and
    overwrites the owner: both requests succeed, two assignment entries
    are written, and the lead belongs to the second user. *)
Theorem concurrent_claims_two_winners id1 u1 id2 u2 lead l w :
  primary_keys (w_db w) →
  find_user (w_db w) id1 = Some u1 → user_role u1 = hr →
  find_user (w_db w) id2 = Some u2 → user_role u2 = hr →
  lead ≠ 0 →
  find_lead (w_db w) lead = Some l → currentOwnerId l = None →
  let s := run_schedule None clock isEmail [0; 1; 0; 0; 1; 1]%nat
             ([ (mkRequest id1 (Some lead) ∅, AtCheck);
                (mkRequest id2 (Some lead) ∅, AtCheck) ], w) in
  (succeeded ∘ snd) <$> s.1 = [true; true]
  ∧ currentOwnerId <$> find_lead (w_db s.2) lead = Some (Some id2)
  ∧ leadHistory (w_db s.2) =
      (leadHistory (w_db w) ++
       [ mkLeadHistory (w_hseq w) lead None (Some id1)
           (Some (lead_status l)) (Some (lead_status l)) (Some "Lead assigned")
           (CD_assignment None id1) id1 (clock (8 + w_tick w));
         mkLeadHistory (w_hseq w + 1) lead (Some id1) (Some id2)
           (Some (lead_status l)) (Some (lead_status l)) (Some "Lead assigned")
           (CD_assignment (Some id1) id2) id2 (clock (11 + w_tick w)) ])%list.
Proof using clock isEmail.
  intros Hpk Hu1 Hr1 Hu2 Hr2 Hz Hl Hown s. subst s.
  unfold run_schedule. cbn [foldl].
  (* both checks *)
  rewrite step_system_0, (step_check_unowned clock isEmail id1 u1 lead l) by done.
  cbn [fst snd].
  rewrite step_system_1, (step_check_unowned clock isEmail id2 u2 lead l) by done.
  cbn [fst snd].
  (* the first transaction *)
  rewrite step_system_0, (step_select clock isEmail _ lead id1 None l) by done.
  cbn [fst snd].
  rewrite step_system_0,
    (step_write_unowned clock isEmail id1 u1 (Some lead) ∅ None lead l l) by done.
  cbn [fst snd].
  (* the second transaction *)
  set (l1 := mkLead lead (Some id1) (lead_status l) (lead_isActive l) (lead_cols l)).
  set (w1 := assigned clock lead id1 None l l _).
  assert (find_lead (w_db w1) lead = Some l1) as Hl1.
  { by apply (updated_db_find _ _ l). }
  assert (primary_keys (w_db w1)) as Hpk1.
  { by apply (updated_db_keys (w_db w) lead l1). }
  rewrite step_system_1, (step_select clock isEmail _ lead id2 None l1) by done.
  cbn [fst snd].
  rewrite step_system_1,
    (step_write_owned clock isEmail id2 u2 (Some lead) ∅ None lead l1 id1 l1);
    [|done|done|done|by apply (find_user_exists _ _ u1)|done].
  cbn [fst snd].
  split; [reflexivity|]. split.
  - cbn [w_db assigned]. rewrite find_lead_with_history.
    by rewrite (updated_db_find _ _ l1 (mkLead lead (Some id2) (lead_status l1)
                                          (lead_isActive l1) (lead_cols l1))).
  - unfold assigned, w1, assigned, history_row, assignment_entry, tick, l1.
    cbn [w_db w_hseq w_tick leadHistory with_history updated_db with_leads
         i_leadId i_fromUserId i_toUserId i_previousStatus i_newStatus i_changeReason
         i_changeData i_changedByUserId currentOwnerId lead_status].
    rewrite Hown, <- app_assoc. reflexivity.
Qed.

End Claims.

(** ** What a handler leaves as it is *)

Section Frame.

Variable fault : option nat.
Variable clock : nat → Z.
Variable parseFloat : string → option string.
Variable isEmail : string → bool.

(** [R] relates the tables before a computation to the tables after it. *)
Context (R : relation DB) `{!Reflexive R, !Transitive R}.

Definition keeps {A} (m : M A) : Prop := ∀ w, R (w_db w) (w_db (m w).2).

Lemma keeps_ret {A} (a : A) : keeps (ret a).
Proof. intros w. reflexivity. Qed.

Lemma keeps_throw {A} e : keeps (@throw A e).
Proof. intros w. reflexivity. Qed.

Lemma keeps_reply {A} r : keeps (@reply A r).
Proof. intros w. reflexivity. Qed.

Lemma keeps_bind {A B} (m : M A) (k : A → M B) :
  keeps m → (∀ a, keeps (k a)) → keeps (bind m k).
Proof.
  intros Hm Hk w. unfold bind. specialize (Hm w).
  destruct (m w) as [[a|e|r] w']; [|done..].
  etrans; [exact Hm|apply Hk].
Qed.

Lemma keeps_query {A} (q : DB → A) : keeps (query fault q).
Proof. intros w. unfold query. destruct (rejected fault w); reflexivity. Qed.

Lemma keeps_new_Date : keeps (new_Date clock).
Proof. intros w. reflexivity. Qed.

Lemma keeps_execute {A} (f : DB → option (A * DB)) :
  (∀ db a db', f db = Some (a, db') → R db db') → keeps (execute fault f).
Proof.
  intros Hf w. unfold execute. destruct (rejected fault w); [reflexivity|].
  destruct (f (w_db w)) as [[a db']|] eqn:E; [|reflexivity]. by apply (Hf _ a).
Qed.

Lemma keeps_insert_history h :
  (∀ db id now row db', insert_history_table h id now db = Some (row, db') → R db db') →
  keeps (insert_history fault clock h).
Proof.
  intros Hf w. unfold insert_history. destruct (rejected fault w); [reflexivity|].
  destruct (insert_history_table _ _ _ _) as [[row db']|] eqn:E; [|reflexivity].
  by apply (Hf _ _ _ row db' E).
Qed.

Lemma keeps_transaction {A} (m : M A) : keeps m → keeps (transaction m).
Proof.
  intros Hm w. unfold transaction. specialize (Hm w).
  destruct (m w) as [[a|e|r] w']; [done|reflexivity|done].
Qed.


Lemma run_route_db msg (m : M Response) w :
  w_db (run_route msg m w).2 = w_db (m w).2.
Proof. unfold run_route. by destruct (m w) as [[a|e|r] w']. Qed.

(** A read whose result the rest of the handler depends on. *)
Lemma keeps_after_query {A B} (q : DB → A) (k : A → M B) w :
  keeps (k (q (w_db w))) → R (w_db w) (w_db (bind (query fault q) k w).2).
Proof.
  intros Hk. unfold bind, query. destruct (rejected fault w); [reflexivity|].
  apply (Hk (tick w)).
Qed.

(** The writes of the handlers of one lead. *)
Variable lead : Z.
Variable P : gmap string json → Prop.
Hypothesis R_update : ∀ cond set db ret db',
  (∀ l, cond l = true → lead_id l = lead) → P set →
  update_table cond set db = Some (ret, db') → R db db'.
Hypothesis R_history : ∀ h id now db row db',
  i_leadId h = lead → insert_history_table h id now db = Some (row, db') → R db db'.
Hypothesis R_notification : ∀ n db db',
  n_relatedLeadId n = Some lead → insert_notification_table n db = Some db' → R db db'.

Lemma has_id_lead l : has_id lead l = true → lead_id l = lead.
Proof. apply bool_decide_eq_true. Qed.

Lemma keeps_updateLead updates :
  P (sanitize updates) → keeps (updateLead fault lead updates).
Proof.
  intros HP. unfold updateLead, update_leads.
  apply keeps_bind; [|intros; apply keeps_ret].
  apply keeps_execute. intros db ret db'. by apply R_update; [apply has_id_lead|].
Qed.

Lemma keeps_createLeadHistory h :
  i_leadId h = lead → keeps (createLeadHistory fault clock h).
Proof. intros Hh. apply keeps_insert_history. intros db id now row db'. by apply R_history. Qed.

Lemma keeps_handoff currentLead updated userId role newStatus reason handoffType
    title message :
  (∀ a, P (sanitize (handoff_set a newStatus))) →
  keeps (handoff fault clock lead currentLead updated userId role newStatus reason
           handoffType title message).
Proof.
  intros HP. unfold handoff.
  apply keeps_bind; [apply keeps_query|]. intros [|a rest]; [apply keeps_ret|].
  apply keeps_bind; [by apply keeps_updateLead|]. intros _.
  apply keeps_bind; [by apply keeps_createLeadHistory|]. intros _.
  destruct updated as [l|]; [|apply keeps_throw].
  apply keeps_execute. intros db [] db' H.
  destruct (insert_notification_table _ db) as [db''|] eqn:E; simpl in H; [|done].
  injection H as <-. by eapply R_notification; [|exact E].
Qed.

Lemma keeps_put_lead_apply userId userRole currentLead updates :
  P (sanitize updates) → (∀ a s, P (sanitize (handoff_set a s))) →
  keeps (put_lead_apply fault clock userId userRole lead currentLead updates).
Proof.
  intros HP Hh. unfold put_lead_apply.
  apply keeps_bind; [by apply keeps_updateLead|]. intros updated.
  apply keeps_bind; cycle 1.
  { intros _. apply keeps_bind; [apply keeps_query|]. intros; apply keeps_ret. }
  destruct (changed_status updates currentLead) as [newStatus|].
  - apply keeps_bind; [by apply keeps_createLeadHistory|]. intros _.
    case_bool_decide; [|apply keeps_ret].
    destruct userRole; try apply keeps_ret; by apply keeps_handoff.
  - cbv zeta. destruct (changedFields_of updates currentLead); [apply keeps_ret|].
    apply keeps_bind; [by apply keeps_createLeadHistory|]. intros; apply keeps_ret.
Qed.

Lemma keeps_put_lead userId id body w :
  (∀ l, id = Some l → l = lead) →
  (∀ updates,
     validate_update parseFloat isEmail (role_or_hr (find_user (w_db w) userId)) body
     = inr updates → P (sanitize updates)) →
  (∀ a s, P (sanitize (handoff_set a s))) →
  R (w_db w) (w_db (put_lead fault clock parseFloat isEmail userId id body w).2).
Proof.
  intros Hid HP Hh. unfold put_lead. rewrite run_route_db. unfold getUser.
  apply keeps_after_query. cbv zeta.
  destruct (validate_update _ _ _ body) as [r|updates] eqn:Hv; [apply keeps_reply|].
  destruct id as [l|]; [|apply keeps_reply]. rewrite (Hid l eq_refl).
  apply keeps_bind; [apply keeps_query|]. intros [currentLead|]; [|apply keeps_reply].
  destruct (_ && _); [apply keeps_reply|].
  destruct (_ && _); [apply keeps_reply|].
  apply keeps_put_lead_apply; [by apply HP|done].
Qed.


Lemma keeps_assign_precheck userId id body :
  keeps (assign_precheck fault isEmail userId id body).
Proof.
  unfold assign_precheck.
  apply keeps_bind; [apply keeps_query|]. intros [currentUser|]; [|apply keeps_reply].
  destruct id as [l|]; [|apply keeps_reply].
  case_bool_decide; [apply keeps_reply|].
  destruct (safeParse _ _ body) as [data|]; [|apply keeps_reply].
  cbv zeta.
  apply keeps_bind; [apply keeps_query|]. intros [targetUser|]; [|apply keeps_reply].
  apply keeps_bind; [|intros; apply keeps_ret].
  destruct (user_role currentUser).
  - destruct (_ && _); [apply keeps_reply|apply keeps_ret].
  - case_bool_decide; [apply keeps_reply|].
    apply keeps_bind; [apply keeps_query|]. intros [existingLead|]; [|apply keeps_reply].
    destruct (truthy _); [apply keeps_reply|apply keeps_ret].
  - apply keeps_reply.
  - destruct (_ && _); [apply keeps_reply|apply keeps_ret].
Qed.

Lemma keeps_assign_catch {A} e : keeps (@assign_catch A e).
Proof. destruct e; first [apply keeps_reply|apply keeps_throw]. Qed.




Lemma keeps_delete_lead userId id w :
  (∀ l, id = Some l → l = lead) →
  P {[ "currentOwnerId" := JNull; "status" := JStr "new" ]} →
  (∀ db, R db (delete_history_table lead db)) →
  (∀ db db', delete_lead_table lead db = Some db' → R db db') →
  R (w_db w) (w_db (delete_lead fault clock userId id w).2).
Proof.
  intros Hid HP Hdh Hdl. unfold delete_lead. rewrite run_route_db.
  apply keeps_bind; [apply keeps_query|]. intros currentUser. cbv zeta.
  destruct id as [l|]; [|apply keeps_reply]. rewrite (Hid l eq_refl).
  apply keeps_bind; [apply keeps_query|]. intros [currentLead|]; [|apply keeps_reply].
  destruct (_ && _); [apply keeps_reply|].
  case_bool_decide; [apply keeps_reply|].
  destruct (_ && _).
  - apply keeps_bind; [apply keeps_new_Date|]. intros now.
    apply keeps_bind; [|intros; apply keeps_ret].
    unfold unassignLeadWithHistory. apply keeps_transaction.
    apply keeps_bind.
    { apply keeps_insert_history. intros db id now' row db' Hi.
      by eapply R_history; [|exact Hi]. }
    intros _. apply keeps_bind; [|intros; apply keeps_ret].
    apply keeps_execute. intros db ret db'. by apply R_update; [apply has_id_lead|].
  - apply keeps_bind; [apply keeps_new_Date|]. intros now.
    apply keeps_bind; [|intros; apply keeps_ret].
    unfold deleteLeadWithHistory. apply keeps_transaction.
    apply keeps_bind.
    { apply keeps_insert_history. intros db id now' row db' Hi.
      by eapply R_history; [|exact Hi]. }
    intros _. apply keeps_bind.
    { apply keeps_execute. intros db [] db' [= <-]. apply Hdh. }
    intros _. apply keeps_execute. intros db [] db' Hx.
    destruct (delete_lead_table lead db) as [db''|] eqn:E; simpl in Hx; [|done].
    injection Hx as <-. by apply Hdl.
Qed.

End Frame.

(** ** The parts of the store a request on one lead can reach *)

(** What [f] reads from the tables is the same before and after. *)
Definition kept {A} (f : DB → A) : relation DB := λ db db', f db' = f db.

#[local] Instance kept_refl {A} (f : DB → A) : Reflexive (kept f).
Proof. by intros db. Qed.

#[local] Instance kept_trans {A} (f : DB → A) : Transitive (kept f).
Proof. unfold kept. intros a b c H1 H2. congruence. Qed.

Definition other_leads (lead : Z) (db : DB) : list Lead :=
  filter (λ l, lead_id l ≠ lead) (leads db).

Definition other_history (lead : Z) (db : DB) : list LeadHistory :=
  filter (λ h, leadId h ≠ lead) (leadHistory db).

(** The history has only gained entries, all of them of [lead]. *)
Definition history_appended (lead : Z) : relation DB := λ db db',
  ∃ new, leadHistory db' = (leadHistory db ++ new)%list
         ∧ Forall (λ h, leadId h = lead) new.

(** The notifications have only gained rows, all of them about [lead]. *)
Definition notifications_appended (lead : Z) : relation DB := λ db db',
  ∃ new, notifications db' = (notifications db ++ new)%list
         ∧ Forall (λ n, n_relatedLeadId n = Some lead) new.

#[local] Instance history_appended_refl lead : Reflexive (history_appended lead).
Proof. intros db. exists []. by rewrite app_nil_r. Qed.

#[local] Instance history_appended_trans lead : Transitive (history_appended lead).
Proof.
  intros a b c (n1 & H1 & F1) (n2 & H2 & F2). exists (n1 ++ n2)%list.
  rewrite H2, H1, app_assoc. split; [done|]. by apply Forall_app.
Qed.

#[local] Instance notifications_appended_refl lead : Reflexive (notifications_appended lead).
Proof. intros db. exists []. by rewrite app_nil_r. Qed.

#[local] Instance notifications_appended_trans lead :
  Transitive (notifications_appended lead).
Proof.
  intros a b c (n1 & H1 & F1) (n2 & H2 & F2). exists (n1 ++ n2)%list.
  rewrite H2, H1, app_assoc. split; [done|]. by apply Forall_app.
Qed.

Lemma history_appended_same lead db db' :
  leadHistory db' = leadHistory db → history_appended lead db db'.
Proof. intros H. exists []. by rewrite app_nil_r. Qed.

Lemma notifications_appended_same lead db db' :
  notifications db' = notifications db → notifications_appended lead db db'.
Proof. intros H. exists []. by rewrite app_nil_r. Qed.

Lemma update_table_inv cond set db ret db' :
  update_table cond set db = Some (ret, db') →
  ∃ rows, update_rows cond set (leads db) = Some (rows, ret) ∧ db' = with_leads db rows.
Proof.
  unfold update_table. destruct (update_rows cond set (leads db)) as [[rows ret']|]; [|done].
  simpl. destruct (forallb _ ret'); [|done]. intros [= <- <-]. eauto.
Qed.

Lemma insert_history_table_inv h id now db row db' :
  insert_history_table h id now db = Some (row, db') →
  row = history_row h id now ∧ db' = with_history db (leadHistory db ++ [row]).
Proof.
  unfold insert_history_table. destruct (history_refs_ok db h); [|done].
  by intros [= <- <-].
Qed.

Lemma insert_notification_table_inv n db db' :
  insert_notification_table n db = Some db' →
  db' = with_notifications db (notifications db ++ [n]).
Proof.
  unfold insert_notification_table. destruct (_ && _); [|done]. by intros [= <-].
Qed.

Lemma delete_lead_table_inv lead db db' :
  delete_lead_table lead db = Some db' →
  db' = with_leads db (filter (λ l, lead_id l ≠ lead) (leads db)).
Proof. unfold delete_lead_table. destruct (_ && _); [done|]. by intros [= <-]. Qed.

(** An UPDATE whose condition selects rows of [lead] only leaves the
    other rows, and the ids of all rows, as they are. *)
Lemma update_rows_others cond set lead rows rows' ret :
  (∀ l, cond l = true → lead_id l = lead) →
  update_rows cond set rows = Some (rows', ret) →
  filter (λ l, lead_id l ≠ lead) rows' = filter (λ l, lead_id l ≠ lead) rows
  ∧ lead_id <$> rows' = lead_id <$> rows.
Proof.
  intros Hc. revert rows' ret. induction rows as [|r rows IH]; intros rows' ret; simpl.
  - by intros [= <- <-].
  - destruct (update_rows cond set rows) as [[rest' ret0]|]; [|done]. simpl.
    destruct (IH rest' ret0 eq_refl) as [IH1 IH2].
    destruct (cond r) eqn:E.
    + destruct (apply_set set r) as [r'|] eqn:Hs; [|done]. simpl. intros [= <- <-].
      pose proof (apply_set_id _ _ _ Hs) as Hid. pose proof (Hc _ E) as Hl.
      rewrite !filter_cons, !fmap_cons, Hid, IH2.
      destruct (decide (lead_id r' ≠ lead)) as [Hne|_]; [congruence|].
      destruct (decide (lead_id r ≠ lead)) as [Hne|_]; [congruence|]. done.
    + intros [= <- <-]. rewrite !filter_cons, !fmap_cons, IH1, IH2. done.
Qed.

Lemma filter_filter_same {A} (P : A → Prop) `{!∀ x, Decision (P x)} (l : list A) :
  filter P (filter P l) = filter P l.
Proof.
  induction l as [|x l IH]; [done|]. rewrite filter_cons.
  destruct (decide (P x)) as [Hx|Hx]; [|done].
  rewrite filter_cons. destruct (decide (P x)); [|done]. by rewrite IH.
Qed.

(** What an UPDATE keeps of the first row with a given id, when it keeps
    it of every row it writes. *)
Lemma update_rows_find {A} (g : Lead → A) cond set lead rows rows' ret :
  (∀ l l', apply_set set l = Some l' → g l' = g l) →
  update_rows cond set rows = Some (rows', ret) →
  g <$> find (has_id lead) rows' = g <$> find (has_id lead) rows.
Proof.
  intros Hg. revert rows' ret. induction rows as [|r rows IH]; intros rows' ret; simpl.
  - by intros [= <- <-].
  - destruct (update_rows cond set rows) as [[rest' ret0]|]; [|done]. simpl.
    specialize (IH rest' ret0 eq_refl).
    destruct (cond r) eqn:E.
    + destruct (apply_set set r) as [r'|] eqn:Hs; [|done]. simpl. intros [= <- <-].
      simpl. unfold has_id at 1 3. rewrite (apply_set_id _ _ _ Hs).
      case_bool_decide; [|done]. simpl. f_equal. by apply Hg.
    + intros [= <- <-]. simpl. by destruct (has_id lead r).
Qed.

Lemma foldr_set_text_kept set f cols c0 c :
  set !! f = None →
  foldr (set_text set) (Some c0) cols = Some c → c !! f = c0 !! f.
Proof.
  intros Hf. revert c. induction cols as [|g cols IH]; intros c; simpl.
  - by intros [= <-].
  - destruct (foldr (set_text set) (Some c0) cols) as [c1|]; [|done]. simpl.
    specialize (IH c1 eq_refl).
    destruct (set !! g) as [[| | |s|]|] eqn:E; try done.
    + intros [= <-]. rewrite lookup_delete_ne; [done|]. intros ->. congruence.
    + destruct (store_text g s) as [stored|]; [|done]. simpl. intros [= <-].
      rewrite lookup_insert_ne; [done|]. intros ->. congruence.
    + by intros [= <-].
Qed.

(** [.set({...})] leaves a column that the object does not name. *)
Lemma apply_set_column_kept set f l l' :
  set !! f = None → apply_set set l = Some l' → lead_cols l' !! f = lead_cols l !! f.
Proof.
  intros Hf. unfold apply_set.
  destruct (foldr (set_text set) (Some (lead_cols l)) text_columns) as [c|] eqn:Hc.
  - destruct (set !! "currentOwnerId") as [[]|], (set !! "status") as [[]|],
      (set !! "isActive") as [[]|]; simpl; try discriminate;
      intros [= <-]; simpl; by apply (foldr_set_text_kept set f text_columns).
  - destruct (set !! "currentOwnerId") as [[]|], (set !! "status") as [[]|],
      (set !! "isActive") as [[]|]; simpl; discriminate.
Qed.

Ltac table_write :=
  match goal with
  | H : update_table _ _ _ = Some _ |- _ =>
      let rows := fresh "rows" in apply update_table_inv in H as (rows & H & ->)
  | H : insert_history_table _ _ _ _ = Some _ |- _ =>
      apply insert_history_table_inv in H as [-> ->]
  | H : insert_notification_table _ _ = Some _ |- _ =>
      apply insert_notification_table_inv in H as ->
  | H : delete_lead_table _ _ = Some _ |- _ =>
      apply delete_lead_table_inv in H as ->
  end.

(** The writes of the handlers, relation by relation. *)
Lemma history_appended_entry lead h id now db :
  i_leadId h = lead →
  history_appended lead db (with_history db (leadHistory db ++ [history_row h id now])).
Proof. intros Hh. eexists. split; [reflexivity|]. by repeat constructor. Qed.

Lemma notifications_appended_row lead n db :
  n_relatedLeadId n = Some lead →
  notifications_appended lead db (with_notifications db (notifications db ++ [n])).
Proof. intros Hn. eexists. split; [reflexivity|]. by repeat constructor. Qed.

Lemma other_history_entry lead h id now db :
  i_leadId h = lead →
  other_history lead (with_history db (leadHistory db ++ [history_row h id now]))
  = other_history lead db.
Proof.
  intros Hh. unfold other_history. simpl. rewrite filter_app, filter_cons. simpl.
  destruct (decide (i_leadId h ≠ lead)); [done|]. by rewrite filter_nil, app_nil_r.
Qed.

Section Reach.

Variable fault : option nat.
Variable clock : nat → Z.
Variable parseFloat : string → option string.
Variable isEmail : string → bool.

(** X1.  PUT /api/leads/:id, whatever the body, the actor and the
    statement the store rejects: the users are as before; the leads
    other than the one named are as before, and no row is added or
    removed; the history keeps every entry it had and gains entries of
    that lead only; the notifications gain rows about that lead only. *)
Theorem update_reaches_one_lead userId lead body w :
  let db' := w_db (put_lead fault clock parseFloat isEmail userId (Some lead) body w).2 in
  users db' = users (w_db w)
  ∧ other_leads lead db' = other_leads lead (w_db w)
  ∧ lead_id <$> leads db' = lead_id <$> leads (w_db w)
  ∧ history_appended lead (w_db w) db'
  ∧ notifications_appended lead (w_db w) db'.
Proof.
  intros db'. subst db'.
  split; [|split; [|split; [|split]]].
  - apply (keeps_put_lead fault clock parseFloat isEmail (kept users) lead (λ _, True));
      try done; try (by intros l [= ->]); intros; by table_write.
  - apply (keeps_put_lead fault clock parseFloat isEmail (kept (other_leads lead)) lead
             (λ _, True)); try done; try (by intros l [= ->]); intros; table_write; try done.
    by eapply (update_rows_others _ _ lead).
  - apply (keeps_put_lead fault clock parseFloat isEmail (kept (λ db, lead_id <$> leads db))
             lead (λ _, True)); try done; try (by intros l [= ->]); intros; table_write;
      try done.
    by eapply (update_rows_others _ _ lead).
  - apply (keeps_put_lead fault clock parseFloat isEmail (history_appended lead) lead
             (λ _, True)); try done; try (by intros l [= ->]); intros; table_write;
      first [by apply history_appended_same|by apply history_appended_entry].
  - apply (keeps_put_lead fault clock parseFloat isEmail (notifications_appended lead) lead
             (λ _, True)); try done; try (by intros l [= ->]); intros; table_write;
      first [by apply notifications_appended_same|by apply notifications_appended_row].
Qed.


(** X3.  DELETE /api/leads/:id, whatever the actor and the statement
    the store rejects: the users and the notifications are as before, and
    so are the other leads and the history entries of the other leads. *)
Theorem deletion_reaches_one_lead userId lead w :
  let db' := w_db (delete_lead fault clock userId (Some lead) w).2 in
  users db' = users (w_db w)
  ∧ notifications db' = notifications (w_db w)
  ∧ other_leads lead db' = other_leads lead (w_db w)
  ∧ other_history lead db' = other_history lead (w_db w).
Proof.
  intros db'. subst db'.
  split; [|split; [|split]].
  - apply (keeps_delete_lead fault clock (kept users) lead (λ _, True));
      try done; try (by intros l [= ->]); intros; by table_write.
  - apply (keeps_delete_lead fault clock (kept notifications) lead (λ _, True));
      try done; try (by intros l [= ->]); intros; by table_write.
  - apply (keeps_delete_lead fault clock (kept (other_leads lead)) lead (λ _, True));
      try done; try (by intros l [= ->]); intros; try table_write; try done.
    + by eapply (update_rows_others _ _ lead).
    + apply filter_filter_same.
  - apply (keeps_delete_lead fault clock (kept (other_history lead)) lead (λ _, True));
      try done; try (by intros l [= ->]); intros; try table_write; try done.
    + by apply other_history_entry.
    + apply filter_filter_same.
Qed.

(** X4.  An actor who is neither manager nor admin cannot change, by
    PUT /api/leads/:id, a column that the reduced schema does not
    declare; name, email, phone, location, degree, domain, sessionDays,
    timing, walkinDate and walkinTime are such columns.  Whatever the
    body and the statement the store rejects, the column of the lead
    holds after the call what it held before. *)
Theorem restricted_columns_never_change userId lead body f w :
  elevated (role_or_hr (find_user (w_db w) userId)) = false →
  f ∉ baseUpdateSchema.*1 →
  let db' := w_db (put_lead fault clock parseFloat isEmail userId (Some lead) body w).2 in
  (λ l, lead_cols l !! f) <$> find_lead db' lead
  = (λ l, lead_cols l !! f) <$> find_lead (w_db w) lead.
Proof.
  intros He Hf db'. subst db'.
  apply (keeps_put_lead fault clock parseFloat isEmail
           (kept (λ db, (λ l, lead_cols l !! f) <$> find_lead db lead))
           lead (λ set, ∀ l l', apply_set set l = Some l' → lead_cols l' !! f = lead_cols l !! f)).
  - intros cond set db ret db' _ HP H. table_write.
    unfold kept, find_lead. cbn [leads with_leads].
    by apply (update_rows_find (λ l, lead_cols l !! f) _ _ lead) in H.
  - intros; by table_write.
  - intros; by table_write.
  - by intros l [= ->].
  - intros updates Hv l l'. apply apply_set_column_kept. apply sanitize_None.
    revert Hv. unfold validate_update, updateLeadSchema. rewrite He.
    destruct (safeParse isEmail baseUpdateSchema body) as [u0|] eqn:Hp; [|done].
    pose proof (safeParse_undeclared _ _ _ _ f Hp Hf) as H0.
    pose proof (safeParse_valid isEmail hr body u0 Hp) as Hv0.
    destruct (parse_amount parseFloat "registrationAmount" _ u0) as [|u1] eqn:H1; [done|].
    intros H2.
    apply parse_amount_valid in H1 as [Hv1 Hs1]; [|by_evaluation|done|done].
    apply parse_amount_valid in H2 as [Hv2 Hs2]; [|by_evaluation|done|done].
    rewrite Hs2, Hs1; [done| |]; intros ->; apply Hf; by_evaluation.
  - intros a s l l'. rewrite apply_set_handoff. by intros [= <-].
Qed.

End Reach.

(** ** Answers and writes *)

Section Outcomes.

Variable fault : option nat.
Variable clock : nat → Z.
Variable parseFloat : string → option string.
Variable isEmail : string → bool.

(** A computation that only reads. *)
Abbreviation reads := (keeps (kept (λ db : DB, db))).

Lemma reads_query {A} (q : DB → A) : reads (query fault q).
Proof. apply (keeps_query fault (kept (λ db : DB, db))). Qed.

Lemma reads_new_Date : reads (new_Date clock).
Proof. apply (keeps_new_Date clock (kept (λ db : DB, db))). Qed.

Lemma reads_assign_precheck userId id body :
  reads (assign_precheck fault isEmail userId id body).
Proof. apply (keeps_assign_precheck fault isEmail (kept (λ db : DB, db))). Qed.

Lemma reads_assign_catch {A} e : reads (@assign_catch A e).
Proof. apply (keeps_assign_catch (kept (λ db : DB, db))). Qed.

Definition never_replies {A} (m : M A) : Prop := ∀ w r, (m w).1 ≠ Reply r.

Definition returns {A} (Q : A → Prop) (m : M A) : Prop :=
  ∀ w a, (m w).1 = Ret a → Q a.

(** What [m] may leave in the tables, by the way it ends: a value it
    returns satisfies [Q]; an early answer comes with the tables as they
    were; and, when [strict], so does an error. *)
Definition settles {A} (strict : bool) (Q : A → Prop) (m : M A) : Prop :=
  ∀ w, match (m w).1 with
       | Ret a => Q a
       | Reply _ => w_db (m w).2 = w_db w
       | Throw _ => strict = true → w_db (m w).2 = w_db w
       end.

Lemma never_replies_ret {A} (a : A) : never_replies (ret a).
Proof. by intros w r. Qed.

Lemma never_replies_throw {A} e : never_replies (@throw A e).
Proof. by intros w r. Qed.

Lemma never_replies_query {A} (q : DB → A) : never_replies (query fault q).
Proof. intros w r. unfold query. by destruct (rejected fault w). Qed.

Lemma never_replies_execute {A} (f : DB → option (A * DB)) :
  never_replies (execute fault f).
Proof.
  intros w r. unfold execute. destruct (rejected fault w); [done|].
  by destruct (f (w_db w)) as [[a db]|].
Qed.

Lemma never_replies_insert_history h : never_replies (insert_history fault clock h).
Proof.
  intros w r. unfold insert_history. destruct (rejected fault w); [done|].
  by destruct (insert_history_table _ _ _ _) as [[a db]|].
Qed.

Lemma never_replies_bind {A B} (m : M A) (k : A → M B) :
  never_replies m → (∀ a, never_replies (k a)) → never_replies (bind m k).
Proof.
  intros Hm Hk w r. unfold bind. specialize (Hm w).
  destruct (m w) as [[a|e|r0] w']; [apply Hk|done|]. by destruct (Hm r0).
Qed.

Lemma never_replies_updateLead lead updates :
  never_replies (updateLead fault lead updates).
Proof.
  apply never_replies_bind; [apply never_replies_execute|].
  intros; apply never_replies_ret.
Qed.

Lemma returns_bind {A B} (Q : B → Prop) (m : M A) (k : A → M B) :
  (∀ a, returns Q (k a)) → returns Q (bind m k).
Proof.
  intros Hk w b. unfold bind. destruct (m w) as [[a|e|r0] w']; [apply Hk|done..].
Qed.

Lemma returns_ret {A} (Q : A → Prop) a : Q a → returns Q (ret a).
Proof. intros H w a'. by intros [= <-]. Qed.

Lemma settles_reply {A} strict (Q : A → Prop) r : settles strict Q (reply r).
Proof. by intros w. Qed.

Lemma settles_ret {A} strict (Q : A → Prop) a : Q a → settles strict Q (ret a).
Proof. by intros H w. Qed.

Lemma settles_after_read {A B} strict (Q : B → Prop) (m : M A) (k : A → M B) :
  reads m → (∀ a, settles strict Q (k a)) → settles strict Q (bind m k).
Proof.
  intros Hm Hk w. unfold bind. specialize (Hm w). unfold kept in Hm.
  destruct (m w) as [[a|e|r0] w'] eqn:E; simpl in Hm; [|simpl; auto..].
  specialize (Hk a w'). rewrite <- Hm. exact Hk.
Qed.

Lemma settles_writes {A} (Q : A → Prop) (m : M A) :
  never_replies m → returns Q m → settles false Q m.
Proof.
  intros Hn Hr w. specialize (Hn w). specialize (Hr w).
  destruct (m w).1 as [a|e|r0]; [by apply Hr|done|by destruct (Hn r0)].
Qed.

Lemma settles_transaction {A} (Q : A → Prop) (m : M A) :
  settles false Q m → settles true Q (transaction m).
Proof.
  intros Hm w. specialize (Hm w). unfold transaction.
  by destruct (m w) as [[a|e|r0] w'].
Qed.

Lemma settles_then_ret {A B} (Q : A → Prop) (Q' : B → Prop) (m : M A) (f : A → B) :
  settles true Q m → (∀ a, Q a → Q' (f a)) → settles true Q' (bind m (λ a, ret (f a))).
Proof.
  intros Hm Hf w. specialize (Hm w). unfold bind.
  destruct (m w) as [[a|e|r0] w']; [by apply Hf|done..].
Qed.

Lemma settles_try_catch {A} (Q : A → Prop) (m : M A) (h : Exn → M A) :
  settles true Q m → (∀ e, reads (h e)) → (∀ e, returns (λ _, False) (h e)) →
  settles true Q (try_catch m h).
Proof.
  intros Hm Hh Hr w. specialize (Hm w). unfold try_catch.
  destruct (m w) as [[a|e|r0] w']; [done| |done].
  simpl in Hm. specialize (Hh e w'). specialize (Hr e w'). unfold kept in Hh.
  rewrite <- (Hm eq_refl).
  destruct (h e w') as [[a|e'|r0] w'']; simpl in *; [by destruct (Hr a)|done..].
Qed.

(** The answer of a handler whose body settles. *)
Lemma run_route_settles strict (Q : Response → Prop) msg m w code message :
  settles strict Q m → (∀ c s, ¬ Q (R_error c s)) →
  (run_route msg m w).1 = R_error code message →
  (strict = true ∨ code ≠ 500%nat) →
  w_db (run_route msg m w).2 = w_db w.
Proof.
  intros Hm HQ. specialize (Hm w). unfold run_route.
  destruct (m w) as [[a|e|r0] w']; simpl in *.
  - intros ->. by destruct (HQ code message).
  - intros [= <- _] [->|Hc]; [by apply Hm|done].
  - done.
Qed.

Lemma never_replies_handoff lead currentLead updated userId role newStatus reason
    handoffType title message :
  never_replies (handoff fault clock lead currentLead updated userId role newStatus reason
                   handoffType title message).
Proof.
  apply never_replies_bind; [apply never_replies_query|].
  intros [|a rest]; [apply never_replies_ret|].
  apply never_replies_bind; [apply never_replies_updateLead|]. intros _.
  apply never_replies_bind; [apply never_replies_insert_history|]. intros _.
  destruct updated; [apply never_replies_execute|apply never_replies_throw].
Qed.

Lemma never_replies_put_lead_apply userId userRole lead currentLead updates :
  never_replies (put_lead_apply fault clock userId userRole lead currentLead updates).
Proof.
  apply never_replies_bind; [apply never_replies_updateLead|]. intros updated.
  apply never_replies_bind; cycle 1.
  { intros _. apply never_replies_bind; [apply never_replies_query|].
    intros; apply never_replies_ret. }
  destruct (changed_status updates currentLead) as [newStatus|].
  - apply never_replies_bind; [apply never_replies_insert_history|]. intros _.
    case_bool_decide; [|apply never_replies_ret].
    destruct userRole; try apply never_replies_ret; apply never_replies_handoff.
  - cbv zeta. destruct (changedFields_of updates currentLead); [apply never_replies_ret|].
    apply never_replies_bind; [apply never_replies_insert_history|].
    intros; apply never_replies_ret.
Qed.

(** X5.  PUT /api/leads/:id answers 400, 403 or 404 only before its
    first write: when the answer is an error other than 500, the tables
    are as they were before the call, whichever statement the store
    rejects. *)
Theorem refused_update_writes_nothing userId id body w code message :
  (put_lead fault clock parseFloat isEmail userId id body w).1 = R_error code message →
  code ≠ 500%nat →
  w_db (put_lead fault clock parseFloat isEmail userId id body w).2 = w_db w.
Proof.
  intros Hr Hc. unfold put_lead in *.
  apply (run_route_settles false (λ r, ∃ l, r = R_lead l) _ _ _ code message);
    [|by intros c s [l ?]|done|by right].
  apply settles_after_read; [apply reads_query|]. intros currentUser. cbv zeta.
  destruct (validate_update _ _ _ body) as [r|updates]; [apply settles_reply|].
  destruct id as [lead|]; [|apply settles_reply].
  apply settles_after_read; [apply reads_query|].
  intros [currentLead|]; [|apply settles_reply].
  destruct (_ && _); [apply settles_reply|].
  destruct (_ && _); [apply settles_reply|].
  apply settles_writes; [apply never_replies_put_lead_apply|].
  unfold put_lead_apply. apply returns_bind. intros updated.
  apply returns_bind. intros _. apply returns_bind. intros finalLead.
  apply returns_ret. eauto.
Qed.

(** X6.  DELETE /api/leads/:id is all or nothing: when the answer is an
    error, 500 included, the tables are as they were before the call,
    whichever statement the store rejects. *)
Theorem failed_deletion_writes_nothing userId id w code message :
  (delete_lead fault clock userId id w).1 = R_error code message →
  w_db (delete_lead fault clock userId id w).2 = w_db w.
Proof.
  intros Hr. unfold delete_lead in *.
  apply (run_route_settles true (λ r, ∃ s, r = R_success s) _ _ _ code message);
    [|by intros c s [l ?]|done|by left].
  apply settles_after_read; [apply reads_query|]. intros currentUser. cbv zeta.
  destruct id as [lead|]; [|apply settles_reply].
  apply settles_after_read; [apply reads_query|].
  intros [currentLead|]; [|apply settles_reply].
  destruct (_ && _); [apply settles_reply|].
  case_bool_decide; [apply settles_reply|].
  destruct (_ && _).
  - apply settles_after_read; [apply reads_new_Date|]. intros now.
    apply (settles_then_ret (λ _, True)); [|eauto].
    apply settles_transaction, settles_writes; [|done].
    apply never_replies_bind; [apply never_replies_insert_history|]. intros _.
    apply never_replies_bind; [apply never_replies_execute|].
    intros; apply never_replies_ret.
  - apply settles_after_read; [apply reads_new_Date|]. intros now.
    apply (settles_then_ret (λ _, True)); [|eauto].
    apply settles_transaction, settles_writes; [|done].
    apply never_replies_bind; [apply never_replies_insert_history|]. intros _.
    apply never_replies_bind; [apply never_replies_execute|]. intros _.
    apply never_replies_execute.
Qed.

(** X7.  POST /api/leads/:id/assign is all or nothing: when the answer
    is an error (400, 403, 404, 409 or 500), the tables are as they were
    before the call, whichever statement the store rejects. *)
Theorem failed_assignment_writes_nothing userId id body w code message :
  (assign_lead fault clock isEmail userId id body w).1 = R_error code message →
  w_db (assign_lead fault clock isEmail userId id body w).2 = w_db w.
Proof.
  intros Hr. unfold assign_lead in *.
  apply (run_route_settles true (λ r, ∃ l, r = R_assigned l) _ _ _ code message);
    [|by intros c s [l ?]|done|by left].
  apply settles_after_read; [apply reads_assign_precheck|].
  intros [[lead target] reason].
  apply (settles_then_ret (λ _, True)); [|eauto].
  apply settles_try_catch.
  - unfold assignLead. apply settles_transaction, settles_writes; [|done].
    apply never_replies_bind.
    { apply never_replies_bind; [apply never_replies_query|].
      intros [l|]; [apply never_replies_ret|apply never_replies_throw]. }
    intros currentLead. unfold assignLead_write. cbv zeta.
    destruct (_ && _).
    + apply never_replies_bind; [apply never_replies_execute|].
      intros [|updatedLead rest]; [apply never_replies_throw|].
      apply never_replies_bind; [apply never_replies_insert_history|].
      intros; apply never_replies_ret.
    + apply never_replies_bind; [apply never_replies_execute|]. intros result.
      apply never_replies_bind; [apply never_replies_insert_history|].
      intros; apply never_replies_ret.
  - intros e. apply reads_assign_catch.
  - intros e w0 a. by destruct e.
Qed.

End Outcomes.

(** ** The workflow, step by step *)

Section Scenarios.

Variable clock : nat → Z.
Variable parseFloat : string → option string.
Variable isEmail : string → bool.











(** X13.  A manager or admin cannot delete a lead that a notification
    refers to: [deleteLeadWithHistory] removes the history of the lead
    before the lead, but not its notifications, so the store refuses the
    DELETE of the lead; the transaction is rolled back, the call answers
    500 and the tables are as before, the history included. *)
Theorem destroy_refused_while_notified userId u lead currentLead w :
  find_user (w_db w) userId = Some u →
  elevated (user_role u) = true →
  find_lead (w_db w) lead = Some currentLead →
  opt_user_exists (w_db w) (currentOwnerId currentLead) = true →
  existsb (λ n, bool_decide (n_relatedLeadId n = Some lead)) (notifications (w_db w)) = true →
  ∃ w',
    delete_lead None clock userId (Some lead) w = (R_error 500 "Failed to delete lead", w')
    ∧ w_db w' = w_db w.
Proof.
  intros Hu He Hl Hfk Hnotif.
  pose proof (find_user_exists _ _ _ Hu) as Hex.
  assert (delete_lead None clock userId (Some lead) w
    = run_route "Failed to delete lead"
        (now <- new_Date clock ;;
         deleteLeadWithHistory None clock lead
           (deletion_entry lead currentLead userId now) ;;;
         ret (R_success "Lead deleted successfully"))
        (tick (tick w))) as ->.
  { unfold delete_lead, run_route, getUser, getLead.
    rewrite query_step by done. rewrite Hu. cbn [role_or_hr].
    rewrite query_step by done. cbn [tick w_db]. rewrite Hl.
    destruct (user_role u); try discriminate He; reflexivity. }
  unfold run_route. rewrite new_Date_step. unfold deleteLeadWithHistory.
  rewrite transaction_step.
  rewrite insert_history_step; [|done|]; cycle 1.
  { unfold history_refs_ok.
    cbn [deletion_entry i_leadId i_fromUserId i_toUserId i_changedByUserId opt_user_exists
         tick w_db].
    by rewrite (find_lead_exists _ _ _ Hl), Hfk, Hex. }
  cbv zeta.
  erewrite execute_step; [|done|reflexivity].
  unfold execute. rewrite no_fault. cbn [w_db tick].
  unfold delete_lead_table, delete_history_table, lead_referenced.
  cbn [leadHistory notifications with_history].
  rewrite Hnotif, orb_true_r, andb_true_r.
  assert (∀ db hs, lead_exists (with_history db hs) lead = lead_exists db lead) as Hwh
    by done.
  rewrite !Hwh, (find_lead_exists _ _ _ Hl).
  eexists. split; reflexivity.
Qed.

(** The check of a claim on a lead that has an owner. *)
Lemma step_check_owned userId u lead l w :
  find_user (w_db w) userId = Some u → user_role u = hr → lead ≠ 0 →
  find_lead (w_db w) lead = Some l → truthy (currentOwnerId l) = true →
  step_request None clock isEmail (mkRequest userId (Some lead) ∅) AtCheck w
  = (Done (R_error 409 "Lead is already assigned"), tick (tick (tick w))).
Proof.
  intros Hu Hrole Hz Hl Hown.
  cbn [step_request rq_user rq_id rq_body].
  unfold assign_precheck, getUser, getLead.
  rewrite query_step by done. cbv beta. rewrite Hu.
  rewrite (bool_decide_eq_false_2 (lead = 0)) by done.
  change (safeParse isEmail assignLeadSchema ∅) with (Some (∅ : gmap string json)).
  cbv beta iota zeta.
  change (or_else (str_field ∅ "toUserId") userId) with userId.
  rewrite query_step by done. cbv beta. cbn [tick w_db]. rewrite Hu, Hrole.
  rewrite (bool_decide_eq_false_2 (userId ≠ userId)) by (intros H; by apply H).
  rewrite bind_assoc, query_step by done. cbv beta. cbn [tick w_db].
  rewrite Hl, Hown. reflexivity.
Qed.

(** The writes of a claim whose read saw no owner, on a lead that has
    got one since: the conditional update finds no row. *)
Lemma step_write_conflict userId rid body reason lead snapshot l w :
  primary_keys (w_db w) →
  currentOwnerId snapshot = None →
  find_lead (w_db w) lead = Some l → currentOwnerId l ≠ None →
  step_request None clock isEmail (mkRequest userId rid body)
    (AtWrite lead userId reason snapshot) w
  = (Done (R_error 409 "Lead is already assigned to another user"),
     mkWorld (w_db w) (w_hseq w) (S (w_tick w))).
Proof.
  intros Hpk Hsnap Hl Hown.
  cbn [step_request rq_user]. unfold try_catch, transaction, assignLead_write.
  rewrite Hsnap. rewrite !bool_decide_eq_true_2 by done. cbn [andb].
  unfold update_leads.
  rewrite (execute_step None _ _ w [] (with_leads (w_db w) (leads (w_db w))));
    [done|done|].
  unfold update_table. rewrite update_rows_none; [done|].
  apply Forall_forall. intros r Hr.
  destruct (has_id lead r) eqn:E; [|done].
  destruct Hpk as [_ Hnd].
  rewrite (find_lead_unique _ _ _ _ Hnd Hl Hr E).
  by rewrite bool_decide_eq_false_2.
Qed.

(** X14.  Two hr users claim the same unowned lead, and the conditional
    update does its work: when both transactions read the lead before
    either writes, and when the second request starts after the first
    has finished, exactly one request succeeds, the other answers 409,
    the lead belongs to the first user and the history gains exactly one
    assignment entry. *)
Theorem guarded_claims_one_winner id1 u1 id2 u2 lead l w :
  primary_keys (w_db w) →
  find_user (w_db w) id1 = Some u1 → user_role u1 = hr →
  find_user (w_db w) id2 = Some u2 → user_role u2 = hr →
  id1 ≠ "" →
  lead ≠ 0 →
  find_lead (w_db w) lead = Some l → currentOwnerId l = None →
  let start := ([ (mkRequest id1 (Some lead) ∅, AtCheck);
                  (mkRequest id2 (Some lead) ∅, AtCheck) ], w) in
  let entry t := mkLeadHistory (w_hseq w) lead None (Some id1)
                   (Some (lead_status l)) (Some (lead_status l)) (Some "Lead assigned")
                   (CD_assignment None id1) id1 (clock (t + w_tick w)) in
  (let s := run_schedule None clock isEmail [0; 1; 0; 1; 0; 1]%nat start in
   snd <$> s.1 =
     [ Done (R_assigned (Some (mkLead lead (Some id1) (lead_status l) (lead_isActive l)
                                 (lead_cols l))));
       Done (R_error 409 "Lead is already assigned to another user") ]
   ∧ currentOwnerId <$> find_lead (w_db s.2) lead = Some (Some id1)
   ∧ leadHistory (w_db s.2) = (leadHistory (w_db w) ++ [entry 9%nat])%list)
  ∧ (let s := run_schedule None clock isEmail [0; 0; 0; 1; 1; 1]%nat start in
     snd <$> s.1 =
       [ Done (R_assigned (Some (mkLead lead (Some id1) (lead_status l) (lead_isActive l)
                                   (lead_cols l))));
         Done (R_error 409 "Lead is already assigned") ]
     ∧ currentOwnerId <$> find_lead (w_db s.2) lead = Some (Some id1)
     ∧ leadHistory (w_db s.2) = (leadHistory (w_db w) ++ [entry 5%nat])%list).
Proof.
  intros Hpk Hu1 Hr1 Hu2 Hr2 Hne Hz Hl Hown start entry. subst start entry.
  set (l1 := mkLead lead (Some id1) (lead_status l) (lead_isActive l) (lead_cols l)).
  split.
  - unfold run_schedule. cbn [foldl].
    rewrite step_system_0, (step_check_unowned clock isEmail id1 u1 lead l) by done.
    cbn [fst snd].
    rewrite step_system_1, (step_check_unowned clock isEmail id2 u2 lead l) by done.
    cbn [fst snd].
    rewrite step_system_0, (step_select clock isEmail _ lead id1 None l) by done.
    cbn [fst snd].
    rewrite step_system_1, (step_select clock isEmail _ lead id2 None l) by done.
    cbn [fst snd].
    rewrite step_system_0,
      (step_write_unowned clock isEmail id1 u1 (Some lead) ∅ None lead l l) by done.
    cbn [fst snd]. fold l1.
    set (w1 := assigned clock lead id1 None l l _).
    assert (find_lead (w_db w1) lead = Some l1) as Hl1.
    { by apply (updated_db_find _ _ l). }
    assert (primary_keys (w_db w1)) as Hpk1.
    { by apply (updated_db_keys (w_db w) lead l1). }
    rewrite step_system_1, (step_write_conflict id2 (Some lead) ∅ None lead l l1) by done.
    cbn [fst snd fmap list_fmap w_db]. rewrite Hl1.
    split; [done|]. split; [done|].
    unfold w1, assigned, history_row, assignment_entry, tick.
    cbn [w_db w_hseq w_tick leadHistory with_history updated_db with_leads
         i_leadId i_fromUserId i_toUserId i_previousStatus i_newStatus i_changeReason
         i_changeData i_changedByUserId]. by rewrite Hown.
  - unfold run_schedule. cbn [foldl].
    rewrite step_system_0, (step_check_unowned clock isEmail id1 u1 lead l) by done.
    cbn [fst snd].
    rewrite step_system_0, (step_select clock isEmail _ lead id1 None l) by done.
    cbn [fst snd].
    rewrite step_system_0,
      (step_write_unowned clock isEmail id1 u1 (Some lead) ∅ None lead l l) by done.
    cbn [fst snd]. fold l1.
    set (w1 := assigned clock lead id1 None l l _).
    assert (find_lead (w_db w1) lead = Some l1) as Hl1.
    { by apply (updated_db_find _ _ l). }
    rewrite step_system_1, (step_check_owned id2 u2 lead l1); try done; cycle 1.
    { cbn [l1 currentOwnerId truthy]. by rewrite bool_decide_eq_false_2. }
    cbn [fst snd].
    rewrite !step_system_1. cbn [step_request fst snd fmap list_fmap tick w_db].
    rewrite Hl1.
    split; [done|]. split; [done|].
    unfold w1, assigned, history_row, assignment_entry, tick.
    cbn [w_db w_hseq w_tick leadHistory with_history updated_db with_leads
         i_leadId i_fromUserId i_toUserId i_previousStatus i_newStatus i_changeReason
         i_changeData i_changedByUserId]. by rewrite Hown.
Qed.

(** X15.  Editing and deleting need ownership: an actor who is neither
    manager nor admin (an hr user, an accounts user, or an actor of whom
    the users table has no row) and who does not own the lead gets 403
    from PUT /api/leads/:id, with a valid body, and from
    DELETE /api/leads/:id; the tables stay as they are. *)
Theorem edit_and_delete_need_ownership userId lead l body updates w :
  elevated (role_or_hr (find_user (w_db w) userId)) = false →
  find_lead (w_db w) lead = Some l →
  currentOwnerId l ≠ Some userId →
  validate_update parseFloat isEmail (role_or_hr (find_user (w_db w) userId)) body
  = inr updates →
  (∃ message w',
     put_lead None clock parseFloat isEmail userId (Some lead) body w
     = (R_error 403 message, w') ∧ w_db w' = w_db w)
  ∧ (∃ message w',
       delete_lead None clock userId (Some lead) w = (R_error 403 message, w')
       ∧ w_db w' = w_db w).
Proof.
  intros He Hl Hown Hv. split.
  - unfold put_lead, run_route, getUser, getLead.
    rewrite query_step by done. cbv zeta. rewrite Hv.
    rewrite query_step by done. cbn [tick w_db]. rewrite Hl.
    rewrite !(bool_decide_eq_true_2 (currentOwnerId l ≠ Some userId)) by done.
    rewrite !andb_true_r.
    destruct (role_or_hr (find_user (w_db w) userId)); try discriminate He;
      eexists _, _; split; reflexivity.
  - unfold delete_lead, run_route, getUser, getLead.
    rewrite query_step by done. cbv zeta.
    rewrite query_step by done. cbn [tick w_db]. rewrite Hl.
    rewrite !(bool_decide_eq_true_2 (currentOwnerId l ≠ Some userId)) by done.
    rewrite !andb_true_r.
    destruct (role_or_hr (find_user (w_db w) userId)); try discriminate He;
      eexists _, _; split; reflexivity.
Qed.

(** X16.  An accounts user can neither delete nor assign: DELETE
    /api/leads/:id on an existing lead answers 403 even when the user
    owns the lead, and POST /api/leads/:id/assign with a valid request
    answers 403; the tables stay as they are. *)
Theorem accounts_cannot_delete_or_assign userId u lead l body data t w :
  find_user (w_db w) userId = Some u → user_role u = accounts →
  (find_lead (w_db w) lead = Some l →
   ∃ w',
     delete_lead None clock userId (Some lead) w
     = (R_error 403 "Access denied: Accounts users cannot delete leads", w')
     ∧ w_db w' = w_db w)
  ∧ (lead ≠ 0 →
     safeParse isEmail assignLeadSchema body = Some data →
     find_user (w_db w) (or_else (str_field data "toUserId") userId) = Some t →
     ∃ w',
       assign_lead None clock isEmail userId (Some lead) body w
       = (R_error 403 "Insufficient permissions", w')
       ∧ w_db w' = w_db w).
Proof.
  intros Hu Hrole. split.
  - intros Hl. unfold delete_lead, run_route, getUser, getLead.
    rewrite query_step by done. rewrite Hu. cbn [role_or_hr]. rewrite Hrole.
    rewrite query_step by done. cbn [tick w_db]. rewrite Hl.
    eexists. split; reflexivity.
  - intros Hz Hp Ht. unfold assign_lead, run_route, assign_precheck, getUser.
    rewrite !bind_assoc, query_step by done. cbv beta. rewrite Hu.
    rewrite (bool_decide_eq_false_2 (lead = 0)) by done. rewrite Hp. cbv zeta.
    rewrite !bind_assoc, query_step by done. cbv beta.
    cbn [tick w_db]. rewrite Ht, Hrole.
    eexists. split; reflexivity.
Qed.

(** X17.  Who may assign to whom: an hr user who names another user as
    the target gets 403; a manager or admin who names a target that is
    neither an hr user nor the actor gets 400.  Neither request reaches
    the store's [assignLead]: the tables stay as they are. *)
Theorem assignment_targets userId u body data target t lead w :
  find_user (w_db w) userId = Some u →
  lead ≠ 0 →
  safeParse isEmail assignLeadSchema body = Some data →
  or_else (str_field data "toUserId") userId = target →
  find_user (w_db w) target = Some t →
  target ≠ userId →
  (user_role u = hr →
   ∃ w',
     assign_lead None clock isEmail userId (Some lead) body w
     = (R_error 403 "HR users can only assign leads to themselves", w')
     ∧ w_db w' = w_db w)
  ∧ (elevated (user_role u) = true → user_role t ≠ hr →
     ∃ w',
       assign_lead None clock isEmail userId (Some lead) body w
       = (R_error 400 "Can only assign leads to HR users", w')
       ∧ w_db w' = w_db w).
Proof.
  intros Hu Hz Hp Ht Hfind Hne.
  split.
  - intros Hrole. unfold assign_lead, run_route, assign_precheck, getUser.
    rewrite !bind_assoc, query_step by done. cbv beta. rewrite Hu.
    rewrite (bool_decide_eq_false_2 (lead = 0)) by done. rewrite Hp. cbv zeta.
    rewrite !bind_assoc, query_step by done. cbv beta. rewrite Ht.
    cbn [tick w_db]. rewrite Hfind, Hrole.
    rewrite (bool_decide_eq_true_2 (target ≠ userId)) by done.
    eexists. split; reflexivity.
  - intros He Hrt. unfold assign_lead, run_route, assign_precheck, getUser.
    rewrite !bind_assoc, query_step by done. cbv beta. rewrite Hu.
    rewrite (bool_decide_eq_false_2 (lead = 0)) by done. rewrite Hp. cbv zeta.
    rewrite !bind_assoc, query_step by done. cbv beta. rewrite Ht.
    cbn [tick w_db]. rewrite Hfind.
    rewrite (bool_decide_eq_true_2 (target ≠ userId)) by done.
    rewrite (bool_decide_eq_true_2 (user_role t ≠ hr)) by done.
    destruct (user_role u); try discriminate He; eexists; split; reflexivity.
Qed.

End Scenarios.

(** ** What [updateLead] stores *)


(** ** Reading the history *)

(** X19.  Who may read the history of a lead: GET /api/leads/:id/history
    by a stored user on an existing lead answers with the entries of the
    lead, newest first by timestamp, exactly when the user is a manager
    or an admin, or owns the lead, or is an accounts user and the lead is
    pending; every other request is answered 403. *)
Theorem history_access userId u lead l w :
  find_user (w_db w) userId = Some u →
  find_lead (w_db w) lead = Some l →
  let allowed :=
    elevated (user_role u)
    || bool_decide (currentOwnerId l = Some userId)
    || bool_decide (user_role u = accounts) && bool_decide (lead_status l = "pending") in
  (allowed = true →
   (get_lead_history None userId lead w).1
   = inr (order_by_changedAt_desc (history_of (w_db w) lead)))
  ∧ (allowed = false →
     ∃ message, (get_lead_history None userId lead w).1 = inl (R_error 403 message)).
Proof.
  intros Hu Hl allowed. subst allowed.
  unfold get_lead_history, getUser, getLead, getLeadHistory.
  rewrite query_step by done. cbv zeta. rewrite Hu. cbn [fmap option_fmap option_map].
  rewrite query_step by done. cbn [tick w_db]. rewrite Hl.
  destruct (user_role u); cbn [elevated orb andb bool_decide decide_rel];
    unfold elevated; cbn [orb andb].
  all: repeat rewrite (bool_decide_eq_false_2 (_ = _ :> Role)) by done.
  all: repeat rewrite (bool_decide_eq_true_2 (_ = _ :> Role)) by done.
  all: cbn [orb andb].
  - split; [done|]. by intros.
  - destruct (decide (currentOwnerId l = Some userId)) as [Ho|Ho].
    + rewrite (bool_decide_eq_true_2 _ Ho).
      rewrite (bool_decide_eq_false_2 (currentOwnerId l ≠ Some userId)) by tauto.
      split; [done|]. by intros.
    + rewrite (bool_decide_eq_false_2 _ Ho).
      rewrite (bool_decide_eq_true_2 (currentOwnerId l ≠ Some userId)) by done.
      split; [done|]. intros _. by eexists.
  - destruct (decide (currentOwnerId l = Some userId)) as [Ho|Ho].
    + rewrite (bool_decide_eq_true_2 _ Ho).
      rewrite (bool_decide_eq_false_2 (currentOwnerId l ≠ Some userId)) by tauto.
      split; [done|]. by intros.
    + rewrite (bool_decide_eq_false_2 _ Ho).
      rewrite (bool_decide_eq_true_2 (currentOwnerId l ≠ Some userId)) by done.
      destruct (decide (lead_status l = "pending")) as [Hp|Hp].
      * rewrite (bool_decide_eq_true_2 _ Hp).
        rewrite (bool_decide_eq_false_2 (lead_status l ≠ "pending")) by tauto.
        split; [done|]. by intros.
      * rewrite (bool_decide_eq_false_2 _ Hp).
        rewrite (bool_decide_eq_true_2 (lead_status l ≠ "pending")) by done.
        split; [done|]. intros _. by eexists.
  - split; [done|]. by intros.
Qed.

Section History.

Variable clock : nat → Z.
Variable parseFloat : string → option string.
Variable isEmail : string → bool.



(** X21.  The hardcoded manager passes [isAuthenticated] as a manager,
    but the lead routes look the actor up in the users table, which has
    no row of that id unless someone put it there.  Without such a row,
    PUT /api/leads/:id validates the body against the reduced schema and
    answers 403 on every existing lead, as to an hr user who does not own
    it; so does DELETE /api/leads/:id; POST /api/leads/:id/assign
    answers 403, and GET /api/leads/:id/history answers 403. *)
Theorem hardcoded_manager_is_hr_to_lead_routes fault lead l body updates w :
  find_user (w_db w) "hardcoded-manager-id" = None →
  find_lead (w_db w) lead = Some l →
  opt_user_exists (w_db w) (currentOwnerId l) = true →
  validate_update parseFloat isEmail hr body = inr updates →
  let session := Some (mkSessionUser "hardcoded-manager-id" "password") in
  isAuthenticated fault session w = (Next "hardcoded-manager-id" manager, session, w)
  ∧ put_lead None clock parseFloat isEmail "hardcoded-manager-id" (Some lead) body w
    = (R_error 403 "Access denied: You can only edit your own assigned leads",
       tick (tick w))
  ∧ delete_lead None clock "hardcoded-manager-id" (Some lead) w
    = (R_error 403 "Access denied: You can only delete your own leads", tick (tick w))
  ∧ (∀ id request,
       assign_lead None clock isEmail "hardcoded-manager-id" id request w
       = (R_error 403 "User not found", tick w))
  ∧ (get_lead_history None "hardcoded-manager-id" lead w).1
    = inl (R_error 403 "Access denied - invalid role").
Proof.
  intros Hu Hl Hfk Hv session.
  assert (currentOwnerId l ≠ Some "hardcoded-manager-id") as Hown.
  { intros E. rewrite E in Hfk. cbn [opt_user_exists] in Hfk.
    apply bool_decide_eq_true in Hfk as [u' Hu']. congruence. }
  split; [done|]. split; [|split; [|split]].
  - unfold put_lead, run_route, getUser, getLead.
    rewrite query_step by done. cbv zeta. rewrite Hu. cbn [role_or_hr]. rewrite Hv.
    rewrite query_step by done. cbn [tick w_db]. rewrite Hl.
    by rewrite !(bool_decide_eq_true_2 (currentOwnerId l ≠ _)) by done.
  - unfold delete_lead, run_route, getUser, getLead.
    rewrite query_step by done. cbv zeta. rewrite Hu. cbn [role_or_hr].
    rewrite query_step by done. cbn [tick w_db]. rewrite Hl.
    by rewrite !(bool_decide_eq_true_2 (currentOwnerId l ≠ _)) by done.
  - intros id request. unfold assign_lead, run_route, assign_precheck, getUser.
    rewrite !bind_assoc, query_step by done. cbv beta. by rewrite Hu.
  - unfold get_lead_history, getUser, getLead.
    rewrite query_step by done. cbv zeta. rewrite Hu.
    rewrite query_step by done. cbn [tick w_db]. by rewrite Hl.
Qed.

End History.

End Properties.

(** * Properties of the rest of the server *)

(** ** The session check *)

(** X22.  Whoever passes [isAuthenticated] holds a password session and
    is either the hardcoded manager, taken as a manager without a look
    at the store, or a user whom the store holds as active, with the
    role the store holds (not one remembered by the session).  The
    session and the tables are left as they are. *)
Theorem authenticated_is_active_user fault session w sub role session' w' :
  isAuthenticated fault session w = (Next sub role, session', w') →
  session' = session ∧ w_db w' = w_db w
  ∧ ∃ user, session = Some user ∧ s_loginType user = "password" ∧ s_id user = sub
      ∧ ((sub = "hardcoded-manager-id" ∧ role = manager)
         ∨ (∃ u, find_user (w_db w) sub = Some u ∧ user_role u = role
                 ∧ user_isActive u = Some true)).
Proof.
  unfold isAuthenticated. destruct session as [user|]; [|done].
  case_bool_decide as Hlogin; [|done].
  case_bool_decide as Hhard.
  - intros [= <- <- <- <-]. split; [done|]. split; [done|].
    exists user. repeat split; try done. by left.
  - unfold getUser, query. destruct (rejected fault w); [done|].
    destruct (find_user (w_db w) (s_id user)) as [dbUser|] eqn:Hf; [|done].
    case_bool_decide as Hact; [|done].
    intros [= <- <- <- <-]. split; [done|]. split; [done|].
    pose proof (find_user_id _ _ _ Hf) as Hid.
    exists user. repeat split; try done. right. exists dbUser. by rewrite Hid.
Qed.

(** X23.  A user whom the store no longer holds, or holds as not
    active, is logged out by the next request: [isAuthenticated]
    answers 401 and removes the user from the session, so that every
    later request with that session is answered 401 as well, whatever
    the store holds by then. *)
Theorem deactivated_user_is_logged_out fault user w :
  s_loginType user = "password" →
  s_id user ≠ "hardcoded-manager-id" →
  (∀ u, find_user (w_db w) (s_id user) = Some u → user_isActive u ≠ Some true) →
  ∃ w',
    isAuthenticated fault (Some user) w = (Unauthorized, None, w')
    ∧ ∀ fault' w'', isAuthenticated fault' None w'' = (Unauthorized, None, w'').
Proof.
  intros Hlogin Hhard Hgone. unfold isAuthenticated.
  rewrite (bool_decide_eq_true_2 _ Hlogin), (bool_decide_eq_false_2 _ Hhard).
  unfold getUser, query. destruct (rejected fault w); [by eexists|].
  destruct (find_user (w_db w) (s_id user)) as [dbUser|] eqn:Hf; [|by eexists].
  rewrite bool_decide_eq_false_2 by by apply Hgone. by eexists.
Qed.

(** ** The upload helpers *)


(** ** [getLeadMetrics] *)

Lemma group_rows_lookup (f : string → nat) (keys : list string) (m : gmap string nat) s :
  foldl (λ (m : gmap string nat) row, <[row.1 := row.2]> m) m ((λ s, (s, f s)) <$> keys) !! s
  = if bool_decide (s ∈ keys) then Some (f s) else m !! s.
Proof.
  revert m. induction keys as [|k keys IH]; intros m; [done|].
  rewrite fmap_cons. cbn [foldl fst snd]. rewrite IH.
  destruct (decide (s ∈ keys)) as [Hin|Hin].
  - rewrite !bool_decide_eq_true_2; [done| |done]. by right.
  - rewrite (bool_decide_eq_false_2 (s ∈ keys)) by done.
    destruct (decide (s = k)) as [->|Hne].
    + rewrite lookup_insert_eq. rewrite bool_decide_eq_true_2; [done|by left].
    + rewrite lookup_insert_ne by done.
      rewrite bool_decide_eq_false_2; [done|].
      intros [?|?]%elem_of_cons; done.
Qed.

Lemma count_where_positive (p : Lead → bool) db :
  (0 < count_where p db)%nat ↔ ∃ l, l ∈ leads db ∧ p l = true.
Proof.
  unfold count_where. induction (leads db) as [|x xs IH].
  - split; [simpl; lia|]. by intros (l & ?%elem_of_nil & _).
  - rewrite filter_cons. destruct (decide (p x = true)) as [Hx|Hx].
    + split; [|simpl; lia]. intros _. exists x. split; [by left|done].
    + rewrite IH. split.
      * intros (l & Hl & Hp). exists l. split; [by right|done].
      * intros (l & [->|Hl]%elem_of_cons & Hp); [done|]. by exists l.
Qed.

Lemma count_where_disjoint (p q : Lead → bool) db :
  (∀ l, p l = true → q l = false) →
  (count_where p db + count_where q db ≤ count_where (λ _, true) db)%nat.
Proof.
  intros Hpq. unfold count_where. induction (leads db) as [|x xs IH]; [done|].
  rewrite !filter_cons. destruct (decide (true = true)); [|done].
  destruct (decide (p x = true)) as [Hp|Hp].
  - rewrite (Hpq _ Hp). destruct (decide (false = true)); [done|]. simpl. lia.
  - destruct (decide (q x = true)); simpl; lia.
Qed.

Lemma count_where_all db : count_where (λ _, true) db = length (leads db).
Proof.
  unfold count_where. induction (leads db) as [|x xs IH]; [done|].
  rewrite filter_cons. destruct (decide (true = true)); [|done]. simpl. by rewrite IH.
Qed.

(** X25.  The four figures of the dashboard agree with each other when no
    statement fails: the total is the number of leads, the distribution
    has an entry for exactly the statuses that occur, each with the
    number of leads in it, [completed] is the distribution's figure for
    completed, and the active and the completed leads together are not
    more than the total.  The four reads leave the store as it is. *)
Theorem metrics_agree w :
  ∃ m, getLeadMetrics None w
       = (Ret m, mkWorld (w_db w) (w_hseq w) (4 + w_tick w))
  ∧ totalLeads m = length (leads (w_db w))
  ∧ (∀ s, statusDistribution m !! s
          = let n := length (filter (λ l, lead_status l = s) (leads (w_db w))) in
            if bool_decide (n = 0%nat) then None else Some n)
  ∧ completed m = default 0%nat (statusDistribution m !! "completed")
  ∧ (activeHR m + completed m ≤ totalLeads m)%nat.
Proof.
  assert (∀ s db, count_where (λ l, bool_decide (lead_status l = s)) db
                  = length (filter (λ l, lead_status l = s) (leads db))) as Hcount.
  { intros s db. unfold count_where. f_equal. apply list_filter_iff. intros l.
    split; [by intros ?%bool_decide_eq_true|by intros ?; apply bool_decide_eq_true]. }
  assert (∀ s db,
            foldl (λ (m : gmap string nat) row, <[row.1 := row.2]> m) ∅ (count_by_status db) !! s
            = let n := length (filter (λ l, lead_status l = s) (leads db)) in
              if bool_decide (n = 0%nat) then None else Some n) as Hdist.
  { intros s db. unfold count_by_status.
    rewrite (group_rows_lookup (λ s, count_where (λ l, bool_decide (lead_status l = s)) db)).
    rewrite lookup_empty. cbn zeta. rewrite <- Hcount.
    destruct (decide (s ∈ remove_dups (lead_status <$> leads db))) as [Hin|Hin].
    - rewrite bool_decide_eq_true_2 by done. rewrite bool_decide_eq_false_2; [done|].
      apply elem_of_remove_dups, list_elem_of_fmap in Hin as (l & -> & Hl).
      enough (0 < count_where (λ l0, bool_decide (lead_status l0 = lead_status l)) db)%nat by lia.
      apply count_where_positive. exists l. split; [done|]. by apply bool_decide_eq_true.
    - rewrite bool_decide_eq_false_2 by done. rewrite bool_decide_eq_true_2; [done|].
      destruct (count_where (λ l, bool_decide (lead_status l = s)) db) eqn:E; [done|].
      exfalso. apply Hin.
      assert (0 < count_where (λ l, bool_decide (lead_status l = s)) db)%nat as Hpos by lia.
      apply count_where_positive in Hpos as (l & Hl & Hs%bool_decide_eq_true).
      apply elem_of_remove_dups, list_elem_of_fmap. by exists l. }
  eexists. split; [|split; [|split; [|split]]].
  - unfold getLeadMetrics.
    rewrite query_step by apply no_fault.
    rewrite query_step by apply no_fault.
    rewrite query_step by apply no_fault.
    rewrite query_step by apply no_fault.
    reflexivity.
  - cbn [totalLeads]. apply count_where_all.
  - intros s. cbn [statusDistribution w_db tick]. apply Hdist.
  - cbn [completed statusDistribution w_db tick]. rewrite Hdist. cbn zeta.
    rewrite Hcount. by case_bool_decide as E; [rewrite E|].
  - cbn [activeHR completed totalLeads w_db tick]. apply count_where_disjoint.
    intros l [_ Hs%bool_decide_eq_true]%andb_true_iff. apply bool_decide_eq_false.
    intros Hc. rewrite Hc in Hs. by repeat apply elem_of_cons in Hs as [Hs|Hs]; [..|apply elem_of_nil in Hs].
Qed.

(** ** The export *)

(** Reading a row back, the way a CSV reader does: a comma outside
    quotes ends a cell, a cell that starts with a quote runs to its
    closing quote, and two quotes inside it stand for one. *)
Inductive ReadState := AtStart | InPlain | InQuoted | AfterQuote.

(** [prepend s cells] puts [s] in front of the cell in progress. *)
Definition prepend (s : string) (cells : list string) : list string :=
  match cells with
  | [] => [s]
  | cell :: rest => (s ++ cell) :: rest
  end.

Fixpoint read_cells (st : ReadState) (row : string) : list string :=
  match row with
  | EmptyString => [""]
  | String c rest =>
      match st with
      | AtStart =>
          if bool_decide (c = comma) then "" :: read_cells AtStart rest
          else if bool_decide (c = quote) then read_cells InQuoted rest
          else prepend (String c "") (read_cells InPlain rest)
      | InPlain =>
          if bool_decide (c = comma) then "" :: read_cells AtStart rest
          else prepend (String c "") (read_cells InPlain rest)
      | InQuoted =>
          if bool_decide (c = quote) then read_cells AfterQuote rest
          else prepend (String c "") (read_cells InQuoted rest)
      | AfterQuote =>
          if bool_decide (c = quote)
          then prepend (String quote "") (read_cells InQuoted rest)
          else if bool_decide (c = comma) then "" :: read_cells AtStart rest
          else prepend (String c "") (read_cells InPlain rest)
      end
  end.

(** What follows a cell in a row: the end of the row, or a comma and
    the other cells. *)
Definition follows (tl : string) (cells : list string) : Prop :=
  (tl = "" ∧ cells = [])
  ∨ ∃ more, tl = String comma more ∧ cells = read_cells AtStart more.

Lemma append_String c (s t : string) : String c s ++ t = String c (s ++ t).
Proof. reflexivity. Qed.

Lemma append_nil_l (t : string) : "" ++ t = t.
Proof. reflexivity. Qed.

Lemma append_nil_r (s : string) : s ++ "" = s.
Proof. induction s as [|c s IH]; [done|]. by rewrite append_String, IH. Qed.

Lemma append_assoc (s t r : string) : (s ++ t) ++ r = s ++ (t ++ r).
Proof. induction s as [|c s IH]; [done|]. by rewrite !append_String, IH. Qed.

Lemma read_after_cell st tl cells :
  st ≠ InQuoted → follows tl cells → read_cells st tl = "" :: cells.
Proof.
  intros Hst [[-> ->]|(more & -> & ->)]; [done|].
  destruct st; try done; simpl; by rewrite ?bool_decide_eq_true_2.
Qed.

Lemma prepend_String c s cells :
  prepend (String c "") (prepend s cells) = prepend (String c s) cells.
Proof. by destruct cells. Qed.

Lemma read_plain s tl cells :
  has_char comma s = false → has_char quote s = false →
  follows tl cells →
  read_cells AtStart (s ++ tl) = s :: cells
  ∧ read_cells InPlain (s ++ tl) = s :: cells.
Proof.
  intros Hc Hq Htl.
  assert (read_cells InPlain (s ++ tl) = s :: cells) as Hplain.
  { induction s as [|c s IH]; [by apply read_after_cell|].
    simpl in Hc, Hq. apply orb_false_iff in Hc as [Hc Hc'].
    apply orb_false_iff in Hq as [Hq Hq'].
    rewrite append_String. cbn [read_cells]. rewrite Hc.
    by rewrite (IH Hc' Hq'). }
  split; [|done].
  destruct s as [|c s]; [by apply read_after_cell|].
  simpl in Hc, Hq. apply orb_false_iff in Hc as [Hc Hc'].
  apply orb_false_iff in Hq as [Hq Hq'].
  rewrite append_String. cbn [read_cells]. rewrite Hc, Hq.
  rewrite append_String in Hplain. cbn [read_cells] in Hplain. by rewrite Hc in Hplain.
Qed.

Lemma read_quoted s tl cells :
  follows tl cells →
  read_cells InQuoted (double_quotes s ++ String quote tl) = s :: cells.
Proof.
  intros Htl. induction s as [|c s IH].
  - cbn [double_quotes]. rewrite append_nil_l. cbn [read_cells].
    rewrite bool_decide_eq_true_2 by done. by apply read_after_cell.
  - cbn [double_quotes]. case_bool_decide as Hc.
    + subst c. rewrite !append_String. cbn [read_cells].
      rewrite !bool_decide_eq_true_2 by done. by rewrite IH.
    + rewrite append_String. cbn [read_cells].
      rewrite bool_decide_eq_false_2 by done. by rewrite IH.
Qed.

Lemma read_cell value tl cells :
  follows tl cells →
  read_cells AtStart (escapeCSVValue value ++ tl) = default "" value :: cells.
Proof.
  intros Htl. destruct value as [s|]; simpl; [|by apply read_after_cell].
  destruct (has_char comma s || has_char quote s || has_char LF s || has_char CR s) eqn:E.
  - rewrite append_String. cbn [read_cells].
    rewrite (bool_decide_eq_false_2 (quote = comma)) by done.
    rewrite bool_decide_eq_true_2 by done.
    rewrite append_assoc, append_String. by apply read_quoted.
  - apply orb_false_iff in E as [E _]. apply orb_false_iff in E as [E _].
    apply orb_false_iff in E as [Hc Hq]. by apply read_plain.
Qed.

(** X26.  A row of the CSV export can be read back: splitting it at the
    commas outside quotes and undoing the quoting gives the values that
    were written, cell by cell (null and undefined as the empty string),
    whatever commas, quotes and line breaks the values contain. *)
Theorem csv_row_reads_back values :
  values ≠ [] →
  read_cells AtStart (csv_row values) = default "" <$> values.
Proof.
  unfold csv_row. induction values as [|v values IH]; [done|]. intros _.
  destruct values as [|v' values].
  - simpl. rewrite <- (append_nil_r (escapeCSVValue v)).
    apply read_cell. by left.
  - change (join comma (escapeCSVValue <$> v :: v' :: values))
      with (escapeCSVValue v ++ String comma (join comma (escapeCSVValue <$> v' :: values))).
    rewrite fmap_cons. apply read_cell. right. eexists. split; [done|].
    symmetry. by apply IH.
Qed.

(** ** [broadcastUpdate] *)

Lemma broadcast_foldl options (p : Client → bool) sent clients :
  (∀ sent c, broadcast_to options sent c = if p c then (sent ++ [c])%list else sent) →
  foldl (broadcast_to options) sent clients
  = (sent ++ filter (λ c, p c = true) clients)%list.
Proof.
  intros Hp. revert sent. induction clients as [|c clients IH]; intros sent; simpl.
  - by rewrite app_nil_r.
  - rewrite IH, Hp, filter_cons.
    destruct (p c) eqn:E.
    + destruct (decide (true = true)); [|done]. by rewrite <- app_assoc.
    + by destruct (decide (false = true)).
Qed.

(** X27.  A broadcast to a set of roles reaches every open connection
    whose stored role is in the set and whose [send] does not throw, in
    the order of the connections, and no other connection; a [send] that
    throws does not keep the later connections from receiving. *)
Theorem broadcast_by_role roles clients :
  roles ≠ [] → "" ∉ roles →
  broadcastUpdate (mkBroadcastOptions None (Some roles) None) clients
  = filter (λ c, (c_open c && includes (Some roles) (c_userRole c)
                  && negb (c_send_throws c)) = true) clients.
Proof.
  intros Hne Hempty. unfold broadcastUpdate.
  rewrite (broadcast_foldl _
             (λ c, c_open c && includes (Some roles) (c_userRole c)
                   && negb (c_send_throws c))); [done|].
  intros sent c. unfold broadcast_to. cbn [o_roles o_excludeRoles o_userIds given].
  destruct roles as [|r roles]; [done|]. cbn [given andb].
  destruct (c_open c); [|done]. cbn [negb andb].
  destruct (includes (Some (r :: roles)) (c_userRole c)) eqn:Hin; cbn [negb andb].
  - assert (truthy (c_userRole c) = true) as ->.
    { unfold includes in Hin. destruct (c_userRole c) as [role|]; [|done].
      apply bool_decide_eq_true in Hin. simpl. apply negb_true_iff, bool_decide_eq_false.
      by intros ->. }
    rewrite andb_false_r. by destruct (c_send_throws c).
  - by destruct (negb (truthy (c_userId c)) && negb (truthy (c_userRole c))).
Qed.

(** * Examples *)

Module Example.

Definition clock (n : nat) : Z := Z.of_nat n.
Definition parseFloat (s : string) : option string := Some s.
Definition isEmail (s : string) : bool := true.

Fixpoint all_digits (s : string) : bool :=
  match s with
  | EmptyString => true
  | String b rest =>
      (48 <=? Ascii.nat_of_ascii b)%nat && (Ascii.nat_of_ascii b <=? 57)%nat
      && all_digits rest
  end.

Fixpoint zeros (n : nat) : string :=
  match n with
  | O => ""
  | S n => "0" ++ zeros n
  end.

(** A store that takes a date of ten characters, a time of eight
    characters or of five, which it completes with the seconds, and an
    amount of digits that fits the precision, which it holds with the
    decimals of the scale; it refuses every other string. *)
#[global] Instance store : Store := λ ty s,
  match ty with
  | T_text => Some s
  | T_date => if bool_decide (String.length s = 10%nat) then Some s else None
  | T_time =>
      if bool_decide (String.length s = 8%nat) then Some s
      else if bool_decide (String.length s = 5%nat) then Some (s ++ ":00")
      else None
  | T_decimal precision scale =>
      if all_digits s
         && bool_decide (0 < String.length s ≤ precision - scale)%nat
      then Some (s ++ "." ++ zeros scale)
      else None
  end.

Definition hr1 : User := mkUser "hr1" hr (Some true).
Definition hr2 : User := mkUser "hr2" hr (Some true).
Definition acc1 : User := mkUser "acc1" accounts (Some true).
Definition mgr : User := mkUser "mgr" manager (Some true).

Definition lead5 : Lead :=
  mkLead 5 (Some "hr1") "scheduled" (Some true) {[ "name" := "Ann" ]}.


Definition completed : gmap string json := {[ "status" := JStr "completed" ]}.

(** An unowned lead and two hr users who ask for it. *)
Definition lead1 : Lead := mkLead 1 None "new" (Some true) {[ "name" := "Bo" ]}.

Definition db_unowned : DB := mkDB [hr1; hr2; acc1; mgr] [lead1] [] [].

Definition two_claims : System :=
  ([ (mkRequest "hr1" (Some 1) ∅, AtCheck); (mkRequest "hr2" (Some 1) ∅, AtCheck) ],
   mkWorld db_unowned 1 0).

(** Lead 5 of hr1, with an active accounts user. *)
Definition db_owned : DB := mkDB [hr1; hr2; acc1; mgr] [lead5] [] [].
Definition start : World := mkWorld db_owned 1 0.

(** An amount that does not fit decimal(10,2). *)
Definition overflow : gmap string json :=
  {[ "status" := JStr "completed"; "registrationAmount" := JStr "100000000000" ]}.

Definition rename : gmap string json := {[ "name" := JStr "Mallory" ]}.
Definition college : gmap string json := {[ "collegeName" := JStr "MIT" ]}.
Definition note : gmap string json := {[ "notes" := JStr "called" ]}.

(** A store clock that reads the same at every statement. *)
Definition frozen_clock (n : nat) : Z := 7.

(** Lead 7 of the accounts user, with an active admin user. *)
Definition adm : User := mkUser "adm" admin (Some true).
Definition lead7 : Lead :=
  mkLead 7 (Some "acc1") "pending" (Some true) {[ "name" := "Cy" ]}.
Definition db_accounts : DB := mkDB [hr1; hr2; acc1; mgr; adm] [lead7] [] [].

(** Lead 5 of hr1, with a notification that refers to it. *)
Definition db_notified : DB :=
  mkDB [hr1; hr2; acc1; mgr] [lead5] []
    [ mkNotification "acc1" "New Lead Assigned" "Lead Ann has been forwarded from HR"
        "lead_assignment" (Some 5) ].

Definition to_hr2 : gmap string json := {[ "toUserId" := JStr "hr2" ]}.
Definition to_acc1 : gmap string json := {[ "toUserId" := JStr "acc1" ]}.

(** Four connections: an hr user, a manager, an hr user whose socket is
    closed, and an hr user whose [send] throws. *)
Definition hr_client : Client := mkClient true (Some "hr1") (Some "hr") false.
Definition clients : list Client :=
  [ hr_client;
    mkClient true (Some "mgr") (Some "manager") false;
    mkClient false (Some "hr2") (Some "hr") false;
    mkClient true (Some "hr2") (Some "hr") true ].

(** Three cells: one with a comma, a null, one that starts with a quote. *)
Definition cells : list (option string) :=
  [ Some "a,b"; None; Some (String quote "x") ].

End Example.





(** The hand-off path at one rejected statement: when the store rejects
    the insert of the hand-off entry (statement 6 of the call), the
    call answers 500, yet the lead already belongs to the accounts user
    with status "pending" and the status-change entry is in the
    history, while the hand-off entry is not: the tables are neither as
    before the call nor as after the complete call. *)
Lemma handoff_partially_visible :
  let before := Example.start in
  let complete := (put_lead None Example.clock Example.parseFloat Example.isEmail
                     "hr1" (Some 5) Example.completed before).2 in
  let out := put_lead (Some 6%nat) Example.clock Example.parseFloat Example.isEmail
               "hr1" (Some 5) Example.completed before in
  out.1 = R_error 500 "Failed to update lead"
  ∧ (currentOwnerId <$> find_lead (w_db out.2) 5) = Some (Some "acc1")
  ∧ (lead_status <$> find_lead (w_db out.2) 5) = Some "pending"
  ∧ length (leadHistory (w_db out.2)) = 1%nat
  ∧ length (leadHistory (w_db before)) = 0%nat
  ∧ length (leadHistory (w_db complete)) = 2%nat
  ∧ w_db out.2 ≠ w_db before
  ∧ w_db out.2 ≠ w_db complete.
Proof.
  vm_compute. repeat split; try reflexivity; intros H; discriminate H.
Qed.

Lemma handoff_writes_commit_separately_witness :
  ∃ c q t,
    put_lead (Some 6%nat) Example.clock Example.parseFloat Example.isEmail "hr1" (Some 5)
      Example.completed Example.start
    = (R_error 500 "Failed to update lead",
       mkWorld
         (updated_db
            (with_history
               (updated_db Example.db_owned 5
                  (mkLead 5 (Some "hr1") "completed" (Some true) c))
               [ mkLeadHistory 1 5 (Some "hr1") (Some "hr1") (Some "scheduled")
                   (Some "completed") (Some "Status updated")
                   (CD_updates Example.completed) "hr1" 3 ])
            5 (mkLead 5 (Some "acc1") "pending" (Some true) c))
         q t).
Proof.
  destruct (handoff_writes_commit_separately Example.clock Example.parseFloat
              Example.isEmail "hr1" Example.hr1 Example.acc1 [] 5 Example.lead5
              Example.completed Example.completed Example.start) as [c H].
  - split; by_evaluation.
  - reflexivity.
  - reflexivity.
  - vm_compute. reflexivity.
  - reflexivity.
  - reflexivity.
  - reflexivity.
  - discriminate.
  - reflexivity.
  - exists c. exact (H (Some 6%nat)).
Defined.

(** C5, the claim as stated fails: an hr user who submits [name] for
    their own lead gets the lead back, unchanged, and no error. *)
Lemma restricted_field_accepted :
  (put_lead None Example.clock Example.parseFloat Example.isEmail "hr1" (Some 5)
     Example.rename Example.start).1
  = R_lead (Some Example.lead5).
Proof. vm_compute. reflexivity. Qed.

Lemma restricted_fields_stripped_witness :
  put_lead None Example.clock Example.parseFloat Example.isEmail "hr1" (Some 5)
    Example.rename Example.start
  = put_lead None Example.clock Example.parseFloat Example.isEmail "hr1" (Some 5)
      (strip_restricted Example.rename) Example.start.
Proof.
  apply (restricted_fields_stripped Example.clock Example.parseFloat Example.isEmail
           None "hr1" (Some 5) Example.rename Example.start).
  reflexivity.
Defined.

(** C7, the claim as stated fails: the two entries of a hand-off written
    while the clock of the store reads the same carry the same
    [changedAt]; [getLeadHistory] returns the status change (sequence 1)
    before the hand-off (sequence 2), the older entry first, and the
    reverse list is ordered by [changedAt] just as well. *)
Lemma history_ties_not_by_sequence :
  let after := (put_lead None Example.frozen_clock Example.parseFloat Example.isEmail
                  "hr1" (Some 5) Example.completed Example.start).2 in
  let result := (getLeadHistory None 5 after).1 in
  (match result with
   | Ret rows => h_id <$> rows = [1; 2] ∧ changedAt <$> rows = [7; 7]
                 ∧ StronglySorted not_older (reverse rows)
   | _ => False
   end).
Proof.
  vm_compute. split; [reflexivity|]. split; [reflexivity|].
  repeat constructor; discriminate.
Qed.

(** C8, the claim as stated fails: an hr user changes [collegeName] of
    their lead, whose stored value differs from the submitted one; the
    value is stored and no entry is written. *)
Lemma workflow_field_edit_unaudited :
  let out := put_lead None Example.clock Example.parseFloat Example.isEmail "hr1" (Some 5)
               Example.college Example.start in
  col_value Example.lead5 "collegeName" = JNull
  ∧ (∃ l, out.1 = R_lead (Some l) ∧ col_value l "collegeName" = JStr "MIT")
  ∧ leadHistory (w_db out.2) = [].
Proof.
  vm_compute. split; [reflexivity|]. split; [|reflexivity].
  eexists. split; reflexivity.
Qed.

Lemma field_edit_audit_witness :
  ∃ l' w',
    put_lead None Example.clock Example.parseFloat Example.isEmail "hr1" (Some 5)
      Example.college Example.start = (R_lead (Some l'), w')
    ∧ lead_cols Example.lead5 !! "collegeName" = None
    ∧ lead_cols l' !! "collegeName" = Some "MIT"
    ∧ leadHistory (w_db w') = [].
Proof.
  destruct (field_edit_audit Example.clock Example.parseFloat Example.isEmail
              "hr1" Example.hr1 5 Example.lead5 Example.college Example.college Example.start)
    as (l' & w' & Hrun & _ & Hstored & _ & Hnone).
  - split; by_evaluation.
  - reflexivity.
  - vm_compute. reflexivity.
  - vm_compute. reflexivity.
  - intros s H. vm_compute in H. discriminate H.
  - reflexivity.
  - right. reflexivity.
  - reflexivity.
  - exists l', w'. split; [exact Hrun|]. split; [reflexivity|]. split.
    + apply (Hstored "collegeName" "MIT"); [by_evaluation|reflexivity|discriminate].
    + apply Hnone. intros f v Hin Hf.
      assert (f = "collegeName") as ->.
      { destruct (decide (f = "collegeName")) as [->|Hne]; [done|].
        unfold Example.college in Hf. rewrite lookup_singleton_ne in Hf by done.
        discriminate Hf. }
      exfalso. revert Hin. by_evaluation.
Defined.

Lemma release_by_owner_witness :
  let released := mkLead 5 None "new" (Some true) (lead_cols Example.lead5) in
  let entry :=
    mkLeadHistory 1 5 (Some "hr1") None (Some "scheduled") (Some "new")
      (Some "Lead released by HR - returned to Lead Management")
      (CD_unassigned (Some "hr1") "hr1" 2) "hr1" 2 in
  let db' := updated_db (with_history Example.db_owned [entry]) 5 released in
  delete_lead None Example.clock "hr1" (Some 5) Example.start
  = (R_success "Lead returned to Lead Management for reassignment", mkWorld db' 2 4)
  ∧ find_lead db' 5 = Some released
  ∧ leadHistory db' = [entry]
  ∧ ∀ fault,
      w_db (delete_lead fault Example.clock "hr1" (Some 5) Example.start).2
      = Example.db_owned
      ∨ w_db (delete_lead fault Example.clock "hr1" (Some 5) Example.start).2 = db'.
Proof.
  apply (release_by_owner Example.clock "hr1" Example.hr1 5 Example.lead5 Example.start).
  - split; by_evaluation.
  - reflexivity.
  - reflexivity.
  - reflexivity.
  - reflexivity.
Defined.

Lemma destroy_erases_history_witness :
  ∃ w',
    delete_lead None Example.clock "mgr" (Some 5) Example.start
    = (R_success "Lead deleted successfully", w')
    ∧ find_lead (w_db w') 5 = None
    ∧ history_of (w_db w') 5 = []
    ∧ leadHistory (w_db w') = [].
Proof.
  apply (destroy_erases_history Example.clock "mgr" Example.mgr 5 Example.lead5
           Example.start).
  - reflexivity.
  - reflexivity.
  - reflexivity.
  - reflexivity.
  - reflexivity.
Defined.

Lemma self_assign_overwrites_owner_example :
  ∃ w',
    assignLead None Example.clock 5 "hr2" "hr2" None Example.start
    = (Ret (Some (mkLead 5 (Some "hr2") "scheduled" (Some true)
                    (lead_cols Example.lead5))), w')
    ∧ (currentOwnerId <$> find_lead (w_db w') 5) = Some (Some "hr2")
    ∧ leadHistory (w_db w') =
        [ mkLeadHistory 1 5 (Some "hr1") (Some "hr2") (Some "scheduled") (Some "scheduled")
            (Some "Lead assigned") (CD_assignment (Some "hr1") "hr2") "hr2" 2 ].
Proof.
  apply (self_assign_overwrites_owner Example.clock "hr2" Example.hr2 "hr1" None 5
           Example.lead5 Example.start).
  - split; by_evaluation.
  - reflexivity.
  - reflexivity.
  - reflexivity.
  - reflexivity.
Qed.

Lemma concurrent_claims_two_winners_witness :
  let s := run_schedule None Example.clock Example.isEmail [0; 1; 0; 0; 1; 1]%nat
             Example.two_claims in
  (succeeded ∘ snd) <$> s.1 = [true; true]
  ∧ currentOwnerId <$> find_lead (w_db s.2) 1 = Some (Some "hr2")
  ∧ leadHistory (w_db s.2) =
      [ mkLeadHistory 1 1 None (Some "hr1") (Some "new") (Some "new")
          (Some "Lead assigned") (CD_assignment None "hr1") "hr1" 8;
        mkLeadHistory 2 1 (Some "hr1") (Some "hr2") (Some "new") (Some "new")
          (Some "Lead assigned") (CD_assignment (Some "hr1") "hr2") "hr2" 11 ].
Proof.
  apply (concurrent_claims_two_winners Example.clock Example.isEmail
           "hr1" Example.hr1 "hr2" Example.hr2 1 Example.lead1
           (mkWorld Example.db_unowned 1 0)).
  - split; by_evaluation.
  - reflexivity.
  - reflexivity.
  - reflexivity.
  - reflexivity.
  - discriminate.
  - reflexivity.
  - reflexivity.
Defined.

Lemma claim_on_owned_lead_overwrites_witness :
  (∃ w',
     assign_lead None Example.clock Example.isEmail "hr2" (Some 5) ∅ Example.start
     = (R_error 409 "Lead is already assigned", w')
     ∧ w_db w' = Example.db_owned)
  ∧ (∀ snapshot,
       currentOwnerId snapshot = None →
       ∃ w',
         step_request None Example.clock Example.isEmail (mkRequest "hr2" (Some 5) ∅)
           (AtWrite 5 "hr2" None snapshot) Example.start
         = (Done (R_error 409 "Lead is already assigned to another user"), w')
         ∧ w_db w' = Example.db_owned)
  ∧ (∃ w1 w',
       step_request None Example.clock Example.isEmail (mkRequest "hr2" (Some 5) ∅)
         (AtSelect 5 "hr2" None) Example.start
       = (AtWrite 5 "hr2" None Example.lead5, w1)
       ∧ step_request None Example.clock Example.isEmail (mkRequest "hr2" (Some 5) ∅)
           (AtWrite 5 "hr2" None Example.lead5) w1
         = (Done (R_assigned (Some (mkLead 5 (Some "hr2") "scheduled" (Some true)
                                      (lead_cols Example.lead5)))), w')
       ∧ find_lead (w_db w') 5
         = Some (mkLead 5 (Some "hr2") "scheduled" (Some true) (lead_cols Example.lead5))
       ∧ leadHistory (w_db w') =
           [ mkLeadHistory 1 5 (Some "hr1") (Some "hr2") (Some "scheduled") (Some "scheduled")
               (Some "Lead assigned") (CD_assignment (Some "hr1") "hr2") "hr2" 2 ]).
Proof.
  refine (claim_on_owned_lead_overwrites Example.clock Example.isEmail "hr2" Example.hr2
            ∅ ∅ "hr1" 5 Example.lead5 Example.start _ _ _ _ _ _ _ _ _ _).
  - split; by_evaluation.
  - reflexivity.
  - reflexivity.
  - reflexivity.
  - reflexivity.
  - discriminate.
  - reflexivity.
  - reflexivity.
  - discriminate.
  - reflexivity.
Defined.

(** A body whose strings are validated but which the store cannot take:
    the amount does not fit the column, the first UPDATE of the handler
    is refused, the call answers 500 and nothing is written. *)
Lemma typed_value_refused :
  validate_update Example.parseFloat Example.isEmail hr Example.overflow
  = inr Example.overflow
  ∧ store_accepts (sanitize Example.overflow) = false
  ∧ put_lead None Example.clock Example.parseFloat Example.isEmail "hr1" (Some 5)
      Example.overflow Example.start
    = (R_error 500 "Failed to update lead", mkWorld Example.db_owned 1 3).
Proof. vm_compute. repeat split; reflexivity. Qed.

(** ** The other properties, on the example data *)

Lemma restricted_columns_never_change_witness :
  (λ l, lead_cols l !! "name")
    <$> find_lead (w_db (put_lead None Example.clock Example.parseFloat Example.isEmail
                           "hr1" (Some 5) Example.rename Example.start).2) 5
  = Some (Some "Ann").
Proof.
  apply (restricted_columns_never_change None Example.clock Example.parseFloat
           Example.isEmail "hr1" 5 Example.rename "name" Example.start).
  - reflexivity.
  - by_evaluation.
Defined.

Lemma refused_update_writes_nothing_witness :
  (put_lead None Example.clock Example.parseFloat Example.isEmail
     "hr2" (Some 5) Example.rename Example.start).1
  = R_error 403 "Access denied: You can only edit your own assigned leads"
  ∧ w_db (put_lead None Example.clock Example.parseFloat Example.isEmail
            "hr2" (Some 5) Example.rename Example.start).2 = Example.db_owned.
Proof.
  split; [vm_compute; reflexivity|].
  apply (refused_update_writes_nothing None Example.clock Example.parseFloat Example.isEmail
           "hr2" (Some 5) Example.rename Example.start 403%nat
           "Access denied: You can only edit your own assigned leads").
  - vm_compute. reflexivity.
  - discriminate.
Defined.

Lemma failed_deletion_writes_nothing_witness :
  (delete_lead (Some 3%nat) Example.clock "hr1" (Some 5) Example.start).1
  = R_error 500 "Failed to delete lead"
  ∧ w_db (delete_lead (Some 3%nat) Example.clock "hr1" (Some 5) Example.start).2
    = Example.db_owned.
Proof.
  split; [vm_compute; reflexivity|].
  apply (failed_deletion_writes_nothing (Some 3%nat) Example.clock "hr1" (Some 5)
           Example.start 500%nat "Failed to delete lead").
  vm_compute. reflexivity.
Defined.

Lemma failed_assignment_writes_nothing_witness :
  (assign_lead (Some 4%nat) Example.clock Example.isEmail "hr1" (Some 1) ∅
     (mkWorld Example.db_unowned 1 0)).1
  = R_error 500 "Failed to assign lead"
  ∧ w_db (assign_lead (Some 4%nat) Example.clock Example.isEmail "hr1" (Some 1) ∅
            (mkWorld Example.db_unowned 1 0)).2 = Example.db_unowned.
Proof.
  split; [vm_compute; reflexivity|].
  apply (failed_assignment_writes_nothing (Some 4%nat) Example.clock Example.isEmail
           "hr1" (Some 1) ∅ (mkWorld Example.db_unowned 1 0) 500%nat "Failed to assign lead").
  vm_compute. reflexivity.
Defined.






Lemma destroy_refused_while_notified_witness :
  ∃ w',
    delete_lead None Example.clock "mgr" (Some 5) (mkWorld Example.db_notified 1 0)
    = (R_error 500 "Failed to delete lead", w')
    ∧ w_db w' = Example.db_notified.
Proof.
  apply (destroy_refused_while_notified Example.clock "mgr" Example.mgr 5 Example.lead5
           (mkWorld Example.db_notified 1 0)).
  - reflexivity.
  - reflexivity.
  - reflexivity.
  - reflexivity.
  - reflexivity.
Defined.

Lemma guarded_claims_one_winner_witness :
  let start := Example.two_claims in
  let won := mkLead 1 (Some "hr1") "new" (Some true) {[ "name" := "Bo" ]} in
  let entry t := mkLeadHistory 1 1 None (Some "hr1") (Some "new") (Some "new")
                   (Some "Lead assigned") (CD_assignment None "hr1") "hr1" t in
  (let s := run_schedule None Example.clock Example.isEmail [0; 1; 0; 1; 0; 1]%nat start in
   snd <$> s.1 =
     [ Done (R_assigned (Some won));
       Done (R_error 409 "Lead is already assigned to another user") ]
   ∧ currentOwnerId <$> find_lead (w_db s.2) 1 = Some (Some "hr1")
   ∧ leadHistory (w_db s.2) = [entry 9])
  ∧ (let s := run_schedule None Example.clock Example.isEmail [0; 0; 0; 1; 1; 1]%nat start in
     snd <$> s.1 =
       [ Done (R_assigned (Some won)); Done (R_error 409 "Lead is already assigned") ]
     ∧ currentOwnerId <$> find_lead (w_db s.2) 1 = Some (Some "hr1")
     ∧ leadHistory (w_db s.2) = [entry 5]).
Proof.
  refine (guarded_claims_one_winner Example.clock Example.isEmail "hr1" Example.hr1
            "hr2" Example.hr2 1 Example.lead1 (mkWorld Example.db_unowned 1 0)
            _ _ _ _ _ _ _ _ _).
  - split; by_evaluation.
  - reflexivity.
  - reflexivity.
  - reflexivity.
  - reflexivity.
  - discriminate.
  - discriminate.
  - reflexivity.
  - reflexivity.
Defined.

Lemma edit_and_delete_need_ownership_witness :
  (∃ message w',
     put_lead None Example.clock Example.parseFloat Example.isEmail "hr2" (Some 5)
       Example.note Example.start = (R_error 403 message, w')
     ∧ w_db w' = Example.db_owned)
  ∧ (∃ message w',
       delete_lead None Example.clock "hr2" (Some 5) Example.start
       = (R_error 403 message, w')
       ∧ w_db w' = Example.db_owned).
Proof.
  apply (edit_and_delete_need_ownership Example.clock Example.parseFloat Example.isEmail
           "hr2" 5 Example.lead5 Example.note Example.note Example.start).
  - reflexivity.
  - reflexivity.
  - discriminate.
  - vm_compute. reflexivity.
Defined.

Lemma accounts_cannot_delete_or_assign_witness :
  (∃ w',
     delete_lead None Example.clock "acc1" (Some 7) (mkWorld Example.db_accounts 1 0)
     = (R_error 403 "Access denied: Accounts users cannot delete leads", w')
     ∧ w_db w' = Example.db_accounts)
  ∧ (∃ w',
       assign_lead None Example.clock Example.isEmail "acc1" (Some 7) ∅
         (mkWorld Example.db_accounts 1 0)
       = (R_error 403 "Insufficient permissions", w')
       ∧ w_db w' = Example.db_accounts).
Proof.
  destruct (accounts_cannot_delete_or_assign Example.clock Example.isEmail "acc1"
              Example.acc1 7 Example.lead7 ∅ ∅ Example.acc1
              (mkWorld Example.db_accounts 1 0)) as [Hdelete Hassign].
  - reflexivity.
  - reflexivity.
  - split.
    + apply Hdelete. reflexivity.
    + apply Hassign; [discriminate|vm_compute; reflexivity|reflexivity].
Defined.

Lemma assignment_targets_witness :
  (∃ w',
     assign_lead None Example.clock Example.isEmail "hr1" (Some 5) Example.to_hr2
       Example.start
     = (R_error 403 "HR users can only assign leads to themselves", w')
     ∧ w_db w' = Example.db_owned)
  ∧ (∃ w',
       assign_lead None Example.clock Example.isEmail "mgr" (Some 5) Example.to_acc1
         Example.start
       = (R_error 400 "Can only assign leads to HR users", w')
       ∧ w_db w' = Example.db_owned).
Proof.
  split.
  - apply (assignment_targets Example.clock Example.isEmail "hr1" Example.hr1
             Example.to_hr2 Example.to_hr2 "hr2" Example.hr2 5 Example.start);
      [reflexivity|discriminate|vm_compute; reflexivity|reflexivity|reflexivity
      |discriminate|reflexivity].
  - apply (assignment_targets Example.clock Example.isEmail "mgr" Example.mgr
             Example.to_acc1 Example.to_acc1 "acc1" Example.acc1 5 Example.start);
      [reflexivity|discriminate|vm_compute; reflexivity|reflexivity|reflexivity
      |discriminate|reflexivity|discriminate].
Defined.


Lemma history_access_witness :
  (get_lead_history None "hr1" 5 Example.start).1 = inr []
  ∧ ∃ message,
      (get_lead_history None "hr2" 5 Example.start).1 = inl (R_error 403 message).
Proof.
  split.
  - apply (history_access "hr1" Example.hr1 5 Example.lead5 Example.start);
      reflexivity.
  - apply (history_access "hr2" Example.hr2 5 Example.lead5 Example.start);
      reflexivity.
Defined.


Lemma hardcoded_manager_is_hr_to_lead_routes_witness :
  let session := Some (mkSessionUser "hardcoded-manager-id" "password") in
  isAuthenticated None session Example.start
  = (Next "hardcoded-manager-id" manager, session, Example.start)
  ∧ put_lead None Example.clock Example.parseFloat Example.isEmail "hardcoded-manager-id"
      (Some 5) Example.note Example.start
    = (R_error 403 "Access denied: You can only edit your own assigned leads",
       mkWorld Example.db_owned 1 2)
  ∧ delete_lead None Example.clock "hardcoded-manager-id" (Some 5) Example.start
    = (R_error 403 "Access denied: You can only delete your own leads",
       mkWorld Example.db_owned 1 2)
  ∧ (∀ id request,
       assign_lead None Example.clock Example.isEmail "hardcoded-manager-id" id request
         Example.start
       = (R_error 403 "User not found", mkWorld Example.db_owned 1 1))
  ∧ (get_lead_history None "hardcoded-manager-id" 5 Example.start).1
    = inl (R_error 403 "Access denied - invalid role").
Proof.
  refine (hardcoded_manager_is_hr_to_lead_routes Example.clock Example.parseFloat
            Example.isEmail None 5 Example.lead5 Example.note Example.note Example.start
            _ _ _ _).
  - reflexivity.
  - reflexivity.
  - reflexivity.
  - vm_compute. reflexivity.
Defined.

Lemma authenticated_is_active_user_witness :
  let session := Some (mkSessionUser "hr1" "password") in
  isAuthenticated None session Example.start = (Next "hr1" hr, session, mkWorld Example.db_owned 1 1)
  ∧ ∃ user, session = Some user ∧ s_loginType user = "password" ∧ s_id user = "hr1"
      ∧ (("hr1" = "hardcoded-manager-id" ∧ hr = manager)
         ∨ (∃ u, find_user Example.db_owned "hr1" = Some u ∧ user_role u = hr
                 ∧ user_isActive u = Some true)).
Proof.
  intros session. split; [reflexivity|].
  apply (authenticated_is_active_user None session Example.start "hr1" hr session
           (mkWorld Example.db_owned 1 1)).
  reflexivity.
Defined.

Lemma deactivated_user_is_logged_out_witness :
  ∃ w',
    isAuthenticated None (Some (mkSessionUser "gone" "password")) Example.start
    = (Unauthorized, None, w')
    ∧ ∀ fault' w'', isAuthenticated fault' None w'' = (Unauthorized, None, w'').
Proof.
  apply (deactivated_user_is_logged_out None (mkSessionUser "gone" "password")
           Example.start).
  - reflexivity.
  - discriminate.
  - intros u Hu. vm_compute in Hu. discriminate Hu.
Defined.

Lemma csv_row_reads_back_witness :
  read_cells AtStart (csv_row Example.cells) = [ "a,b"; ""; String quote "x" ].
Proof.
  apply (csv_row_reads_back Example.cells). discriminate.
Defined.

Lemma broadcast_by_role_witness :
  broadcastUpdate (mkBroadcastOptions None (Some ["hr"]) None) Example.clients
  = [ Example.hr_client ].
Proof.
  rewrite (broadcast_by_role ["hr"] Example.clients).
  - reflexivity.
  - discriminate.
  - by_evaluation.
Defined.
